(** * Spreadsheet AI Arena: dataset checkout and task queue

    A shallow embedding of the Python sources

      - [spreadsheet_arena/datasets/tasks.py]      (manifest parsing),
      - [spreadsheet_arena/mcp/tools/task_queue.py] (lease / submit queue),
      - [spreadsheet_arena/datasets/adapters/transforms.py] (archive guards),
      - [spreadsheet_arena/datasets/checkout.py]   (checkout orchestration),

    together with the properties their specification states about them.

    Python values that the code only stores or tests for truth are kept as
    JSON trees ([pyval]); paths follow [pathlib.PurePosixPath]; the mutable
    queue object, the results directory and the output stream are threaded
    explicitly through every operation. *)

From Stdlib Require Import ZArith String Ascii List Lia Bool.
From stdpp Require Import base option list strings pretty gmap.

Local Open Scope Z_scope.
Set Warnings "-register-all".

(** ** Python values *)

Module Py.

(** JSON documents as [json.loads] returns them.  A float is kept as the
    dyadic number [m * 2^e]; a dict is its list of items in insertion order. *)
Inductive pyval : Type :=
| PNone
| PBool (b : bool)
| PInt (z : Z)
| PFloat (m e : Z)
| PStr (s : string)
| PList (l : list pyval)
| PDict (d : list (string * pyval)).

Definition pydict := list (string * pyval).

(** Python's truth test ([bool(v)]). *)
Definition truthy (v : pyval) : bool :=
  match v with
  | PNone => false
  | PBool b => b
  | PInt z => negb (z =? 0)
  | PFloat m _ => negb (m =? 0)
  | PStr s => negb (String.eqb s "")
  | PList l => match l with [] => false | _ => true end
  | PDict d => match d with [] => false | _ => true end
  end.

(** [a or b] *)
Definition py_or (a b : pyval) : pyval := if truthy a then a else b.

(** [d.get(k)]: the value stored under [k], [None] when there is none. *)
Fixpoint dict_get (d : pydict) (k : string) : pyval :=
  match d with
  | [] => PNone
  | (k', v) :: d' => if String.eqb k' k then v else dict_get d' k
  end.

(** [k in d] *)
Fixpoint dict_has (d : pydict) (k : string) : bool :=
  match d with
  | [] => false
  | (k', _) :: d' => if String.eqb k' k then true else dict_has d' k
  end.

Definition dict_keys (d : pydict) : list string := map fst d.

(** [str(n)] for an integer. *)
Definition str_of_Z (z : Z) : string := pretty z.
Definition str_of_nat (n : nat) : string := pretty n.

(** The wrapper for optional strings: [None] or a [str]. *)
Definition opt_str (o : option string) : pyval :=
  match o with Some s => PStr s | None => PNone end.

(** Exceptions, by class, with the message [str(e)] gives. *)
Inductive exn : Type :=
| ValueError (msg : string)
| RuntimeError (msg : string)
| TypeError (msg : string)
| AttributeError (msg : string)
| KeyError (msg : string)
| FileNotFoundError (msg : string)
| OSError (msg : string)
| NotImplementedError (msg : string)
| ShutilError (msg : string)
| BadArchive (msg : string)
| CalledProcessError (msg : string).

Definition str_of_exn (e : exn) : string :=
  match e with
  | ValueError m | RuntimeError m | TypeError m | AttributeError m
  | KeyError m | FileNotFoundError m | OSError m | NotImplementedError m
  | ShutilError m | BadArchive m | CalledProcessError m => m
  end.

(** [isinstance(e, OSError)]; [shutil.Error] is a subclass of it. *)
Definition is_OSError (e : exn) : bool :=
  match e with
  | FileNotFoundError _ | OSError _ | ShutilError _ => true
  | _ => false
  end.

(** A call either returns or raises. *)
Definition outcome (A : Type) : Type := (A + exn)%type.
Definition Return {A} (a : A) : outcome A := inl a.
Definition Raise {A} (e : exn) : outcome A := inr e.

Definition rbind {A B} (r : outcome A) (k : A -> outcome B) : outcome B :=
  match r with inl a => k a | inr e => inr e end.

(** [type(v).__name__] *)
Definition type_name (v : pyval) : string :=
  match v with
  | PNone => "NoneType" | PBool _ => "bool" | PInt _ => "int"
  | PFloat _ _ => "float" | PStr _ => "str" | PList _ => "list"
  | PDict _ => "dict"
  end.

End Py.
Export Py.

Notation "'let?' x := r 'in' k" := (rbind r (fun x => k))
  (at level 10, x name, r at level 100, k at level 200).

(** ** Paths *)

Module PathLib.

(** [PurePosixPath]: a root (empty, one slash or exactly two slashes) and
    the components after it. *)
Record Path : Type := mkPath { root : string; parts : list string }.

Fixpoint split_slash (s : string) : list string :=
  match s with
  | EmptyString => [EmptyString]
  | String c s' =>
      if Ascii.eqb c "/"%char then EmptyString :: split_slash s'
      else match split_slash s' with
           | x :: xs => String c x :: xs
           | [] => [String c EmptyString]
           end
  end.

(** [posixpath.splitroot]: two leading slashes are kept apart, three or
    more collapse to one. *)
Definition splitroot (s : string) : string :=
  match s with
  | String "/" (String "/" (String "/" _)) => "/"
  | String "/" (String "/" _) => "//"
  | String "/" _ => "/"
  | _ => ""
  end.

Definition keep_part (x : string) : bool :=
  negb (String.eqb x "") && negb (String.eqb x ".").

(** [Path(s)] *)
Definition of_string (s : string) : Path :=
  {| root := splitroot s; parts := filter (fun x => keep_part x = true) (split_slash s) |}.

(** [str(p)] *)
Definition to_string (p : Path) : string :=
  match root p, parts p with
  | EmptyString, [] => "."
  | r, ps => r +:+ String.concat "/" ps
  end.

Definition is_absolute (p : Path) : bool := negb (String.eqb (root p) "").

(** [a / b] *)
Definition joinpath (a b : Path) : Path :=
  if is_absolute b then b
  else {| root := root a; parts := parts a ++ parts b |}.

(** [p.parent] *)
Definition parent (p : Path) : Path :=
  {| root := root p; parts := removelast (parts p) |}.

(** [p.name] *)
Definition name (p : Path) : string := List.last (parts p) "".

(** Lexical resolution of [..] against the components seen so far; [..] at
    the root stays at the root. *)
Fixpoint normalize (seen : list string) (todo : list string) : list string :=
  match todo with
  | [] => seen
  | x :: todo' =>
      if String.eqb x ".." then normalize (removelast seen) todo'
      else normalize (seen ++ [x]) todo'
  end.

(** [p.resolve()] on a file system without symbolic links, the process
    running in the directory [cwd]. *)
Definition resolve (cwd : list string) (p : Path) : Path :=
  {| root := "/";
     parts := if is_absolute p then normalize [] (parts p)
              else normalize cwd (parts p) |}.

(** [p.is_relative_to(d)]: [p] is [d] or lies below it. *)
Definition is_relative_to (p d : Path) : bool :=
  String.eqb (root p) (root d) &&
  bool_decide (parts d `prefix_of` parts p).

End PathLib.
Export PathLib.

(** ** Manifest parsing ([datasets/tasks.py]) *)

Module Tasks.

Record TaskSpec : Type := mkTaskSpec {
  id : string;
  instruction : pyval;
  input_path : option Path;
  answer_path : option Path;
  meta : pydict
}.

(** [_maybe_rel]: nothing for a missing or empty entry, the path itself when
    absolute, the path below [base] otherwise.  [Path(s)] refuses a value
    that is not a string with a [TypeError], whose wording varies between
    Python versions and is left empty. *)
Definition _maybe_rel (cwd : list string) (base : Path) (s : pyval)
  : outcome (option Path) :=
  if negb (truthy s) then Return None
  else match s with
       | PStr s' =>
           let p := of_string s' in
           Return (Some (if is_absolute p then p
                         else resolve cwd (joinpath base p)))
       | _ => Raise (TypeError "")
       end.

Definition reserved_key (k : string) : bool :=
  String.eqb k "id" || String.eqb k "name" || String.eqb k "instruction"
  || String.eqb k "input" || String.eqb k "answer".

Section Parse.

(** [str(v)] of a float, a list or a dict is Python's [repr] of it, which
    the parser only copies; it is left to the caller of the model. *)
Variable repr_other : pyval -> string.

Definition py_str (v : pyval) : string :=
  match v with
  | PStr s => s
  | PInt z => str_of_Z z
  | PBool true => "True"
  | PBool false => "False"
  | PNone => "None"
  | _ => repr_other v
  end.

Variable cwd : list string.

(** One turn of the loop of [_parse_tasks], [out] holding the tasks built
    so far. *)
Definition parse_record (dataset_root : Path) (t : pyval) (out : list TaskSpec)
  : outcome TaskSpec :=
  match t with
  | PDict d =>
      let tid := py_str (py_or (dict_get d "id")
                          (py_or (dict_get d "name")
                             (PStr ("task-" +:+ str_of_nat (length out + 1))))) in
      let instr := py_or (dict_get d "instruction")
                     (PStr ("Run benchmark task '" +:+ tid +:+ "'.")) in
      let? inp := _maybe_rel cwd dataset_root (dict_get d "input") in
      let? ans := _maybe_rel cwd dataset_root (dict_get d "answer") in
      let meta := filter (fun kv => reserved_key (fst kv) = false) d in
      Return (mkTaskSpec tid instr inp ans meta)
  | _ => Raise (AttributeError ("'" +:+ type_name t +:+ "' object has no attribute 'get'"))
  end.

Fixpoint parse_loop (dataset_root : Path) (raw : list pyval) (out : list TaskSpec)
  : outcome (list TaskSpec) :=
  match raw with
  | [] => Return out
  | t :: raw' =>
      let? spec := parse_record dataset_root t out in
      parse_loop dataset_root raw' (out ++ [spec])
  end.

Definition _parse_tasks (obj : pyval) (dataset_root : Path) : outcome (list TaskSpec) :=
  match obj with
  | PList raw => parse_loop dataset_root raw []
  | PDict d =>
      match dict_get d "tasks" with
      | PList raw => parse_loop dataset_root raw []
      | _ => Raise (ValueError "Manifest must be a JSON array or an object with a 'tasks' array")
      end
  | _ => Raise (ValueError "Manifest must be a JSON array or an object with a 'tasks' array")
  end.

End Parse.

End Tasks.
(** ** The task queue ([mcp/tools/task_queue.py]) *)

Module Queue.

Import Tasks.

(** The three strings [QueueItem.status] ever holds. *)
Inductive Status : Type := pending | in_progress | completed.

#[global] Instance Status_eq_dec : EqDecision Status.
Proof. solve_decision. Defined.

(** A reading of [time.time()]: the float [m * 2^e], only ever stored. *)
Definition Time : Type := (Z * Z)%type.
Definition PTime (t : Time) : pyval := PFloat (fst t) (snd t).

Record QueueItem : Type := mkQueueItem {
  id : Z;
  spec : TaskSpec;
  status : Status;
  started_at : option Time;
  finished_at : option Time;
  result : option pydict
}.

(** What a call of the grading callback does: return a value or raise an
    [Exception] whose [str] is the message. *)
Definition Grader : Type := TaskSpec -> Path -> pyval + string.

Record TaskQueue : Type := mkTaskQueue {
  _items : list QueueItem;
  _in_progress : gset Z;
  _completed : Z;
  _results_dir : Path;
  _grader : option Grader;
  log_progress : bool
}.

(** What the queue acts on outside itself: the directories it made, the
    files of the results directory (each holding the record dumped to it),
    the lines printed, and the calls made to the grading callback. *)
Record World : Type := mkWorld {
  dirs : gset string;
  files : gmap string pydict;
  stdout : list string;
  grader_calls : list (TaskSpec * Path)
}.

Definition State : Type := (TaskQueue * World)%type.

(** [TaskQueue.__init__] *)
Definition init (specs : list TaskSpec) (results_dir : Path)
    (grader : option Grader) (log : bool) (w : World) : State :=
  ({| _items := imap (fun i s => mkQueueItem (Z.of_nat i) s pending None None None) specs;
      _in_progress := ∅;
      _completed := 0;
      _results_dir := results_dir;
      _grader := grader;
      log_progress := log |},
   {| dirs := {[ to_string results_dir ]} ∪ dirs w;
      files := files w; stdout := stdout w; grader_calls := grader_calls w |}).

(** [pending_count] and [completed_count] *)
Definition pending_count (q : TaskQueue) : Z :=
  Z.of_nat (length (filter (fun it => status it = pending) (_items q))).

Definition completed_count (q : TaskQueue) : Z := _completed q.

(** The dict [next_task] hands to the agent. *)
Definition lease_view (it : QueueItem) : pydict :=
  [ ("task_id", PInt (id it));
    ("id", PStr (Tasks.id (spec it)));
    ("instruction", instruction (spec it));
    ("input", match input_path (spec it) with
              | Some p => PStr (to_string p)
              | None => PNone
              end);
    ("meta", PDict (meta (spec it))) ].

(** The loop of [next_task]: the first pending item is marked in place and
    returned; the items before it and after it stay as they are. *)
Fixpoint lease_first (now : Time) (items : list QueueItem)
  : option (list QueueItem * QueueItem) :=
  match items with
  | [] => None
  | it :: rest =>
      if decide (status it = pending) then
        let it' := mkQueueItem (id it) (spec it) in_progress (Some now)
                     (finished_at it) (result it) in
        Some (it' :: rest, it')
      else
        match lease_first now rest with
        | Some (rest', leased) => Some (it :: rest', leased)
        | None => None
        end
  end.

Definition print (line : string) (w : World) : World :=
  {| dirs := dirs w; files := files w; stdout := stdout w ++ [line];
     grader_calls := grader_calls w |}.

(** [next_task], the clock reading [now] at the lease. *)
Definition next_task (now : Time) (s : State) : State * option pydict :=
  let (q, w) := s in
  match lease_first now (_items q) with
  | Some (items', it) =>
      let q' := {| _items := items';
                   _in_progress := {[ id it ]} ∪ _in_progress q;
                   _completed := _completed q;
                   _results_dir := _results_dir q;
                   _grader := _grader q;
                   log_progress := log_progress q |} in
      let w' := if log_progress q
                then print ("[queue] leasing task " +:+ str_of_Z (id it) +:+ ": "
                            +:+ Tasks.id (spec it)) w
                else w in
      ((q', w'), Some (lease_view it))
  | None => (s, None)
  end.

(** [f"{n:05d}"] for [n] that is not negative. *)
Definition pad5 (n : Z) : string :=
  let s := str_of_Z n in
  String.concat "" (replicate (5 - String.length s) "0") +:+ s.

Definition result_file (q : TaskQueue) (it : QueueItem) : string :=
  to_string (joinpath (_results_dir q)
               (of_string ("task_" +:+ pad5 (id it) +:+ ".json"))).

(** [grade or None] *)
Definition or_none (grade : pyval) : pyval := if truthy grade then grade else PNone.

(** The optional grading of [submit_answer]: the grade and the call made,
    if any. *)
Definition run_grader (q : TaskQueue) (it : QueueItem) (p_out : option Path)
  : pyval * list (TaskSpec * Path) :=
  match _grader q, p_out with
  | Some g, Some p =>
      (match g (spec it) p with
       | inl v => v
       | inr msg => PDict [("status", PStr "grading_error"); ("error", PStr msg)]
       end, [(spec it, p)])
  | _, _ => (PDict [], [])
  end.

(** [Path(output_path) if output_path else None] *)
Definition path_or_none (output_path : option string) : option Path :=
  match output_path with
  | Some o => if String.eqb o "" then None else Some (of_string o)
  | None => None
  end.

(** The record [submit_answer] dumps to the results directory and keeps on
    the item. *)
Definition result_record (it : QueueItem) (p_out : option Path) (grade : pyval)
    (t_sub : Time) : pydict :=
  [ ("task_id", PInt (id it));
    ("spec_id", PStr (Tasks.id (spec it)));
    ("output_path", match p_out with
                    | Some p => PStr (to_string p)
                    | None => PNone
                    end);
    ("grade", or_none grade);
    ("submitted_at", PTime t_sub) ].

(** [submit_answer], the clock read at [t_sub] for the record and at
    [t_fin] for the item. *)
Definition submit_answer (task_id : Z) (output_path : option string)
    (t_sub t_fin : Time) (s : State) : State * outcome pydict :=
  let (q, w) := s in
  let p_out := path_or_none output_path in
  if (task_id <? 0) || (Z.of_nat (length (_items q)) <=? task_id) then
    (s, Raise (ValueError ("Unknown task_id " +:+ str_of_Z task_id)))
  else
    match _items q !! Z.to_nat task_id with
    | None => (s, Raise (ValueError ("Unknown task_id " +:+ str_of_Z task_id)))
    | Some it =>
        if negb (bool_decide (status it = in_progress)) then
          (s, Raise (RuntimeError ("Task " +:+ str_of_Z task_id
                                   +:+ " not in progress (status="
                                   +:+ match status it with
                                       | pending => "pending"
                                       | in_progress => "in_progress"
                                       | completed => "completed"
                                       end +:+ ")")))
        else
          let (grade, calls) := run_grader q it p_out in
          let rec := result_record it p_out grade t_sub in
          let it' := mkQueueItem (id it) (spec it) completed (started_at it)
                       (Some t_fin) (Some rec) in
          let q' := {| _items := <[ Z.to_nat task_id := it' ]> (_items q);
                       _in_progress := _in_progress q ∖ {[ id it ]};
                       _completed := _completed q + 1;
                       _results_dir := _results_dir q;
                       _grader := _grader q;
                       log_progress := log_progress q |} in
          let w1 := {| dirs := dirs w;
                       files := <[ result_file q it := rec ]> (files w);
                       stdout := stdout w;
                       grader_calls := grader_calls w ++ calls |} in
          let w' := if log_progress q
                    then print ("[queue] completed task " +:+ str_of_Z (id it)) w1
                    else w1 in
          ((q', w'),
           Return [ ("ok", PBool true);
                    ("grade", or_none grade);
                    ("completed", PInt (_completed q'));
                    ("total", PInt (Z.of_nat (length (_items q')))) ])
    end.

(** Calls made to a queue, one after the other as its lock orders them. *)
Inductive call : Type :=
| NextTask (now : Time)
| SubmitAnswer (task_id : Z) (output_path : option string) (t_sub t_fin : Time).

Inductive reply : Type :=
| Leased (view : option pydict)
| Submitted (ack : outcome pydict).

Definition step (c : call) (s : State) : State * reply :=
  match c with
  | NextTask now => let (s', v) := next_task now s in (s', Leased v)
  | SubmitAnswer tid out t1 t2 =>
      let (s', r) := submit_answer tid out t1 t2 s in (s', Submitted r)
  end.

(** The states a run goes through, the first one included, and the
    replies it gets. *)
Fixpoint run (cs : list call) (s : State) : list State * list reply :=
  match cs with
  | [] => ([s], [])
  | c :: cs' =>
      let (s', r) := step c s in
      let (ss, rs) := run cs' s' in
      (s :: ss, r :: rs)
  end.

End Queue.
(** ** The file system, as the library calls of the sources see it *)

Module FS.

(** What a file holds: bytes, a JSON document (kept parsed), or an archive
    with its members' names and data. *)
Inductive content : Type :=
| Bytes (s : string)
| Json (v : pyval)
| Zip (members : list (string * string))
| TarGz (members : list (string * string)).

Inductive node : Type := File (c : content) | Dir.

(** A file system of files and directories, without links: the entries by
    their absolute path, given by its components; the root is the empty
    list and always a directory.  Links, which a tar archive can hold and
    [tarfile] then creates, have no place here: an archive is taken to
    hold files and directories only. *)
Abbreviation files_t := (gmap (list string) node).

Definition node_at (m : files_t) (k : list string) : option node :=
  match k with [] => Some Dir | _ => m !! k end.

Definition exists_ (m : files_t) (k : list string) : bool :=
  match node_at m k with Some _ => true | None => false end.

Definition is_dir (m : files_t) (k : list string) : bool :=
  match node_at m k with Some Dir => true | _ => false end.

(** The entries at [a] and below it, by their path relative to [a]. *)
Definition subtree (a : list string) (m : files_t) : list (list string * node) :=
  omap (fun kv : list string * node =>
          if decide (a `prefix_of` fst kv)
          then Some (drop (length a) (fst kv), snd kv) else None)
       (map_to_list m).

Definition remove_under (a : list string) (m : files_t) : files_t :=
  filter (fun kv : list string * node => ¬ a `prefix_of` fst kv) m.

Definition graft (b : list string) (entries : list (list string * node)) (m : files_t)
  : files_t :=
  foldr (fun e acc => <[ b ++ fst e := snd e ]> acc) m entries.

(** A name a directory entry can have: not empty, not [.] or [..], and
    without a slash. *)
Fixpoint has_slash (s : string) : bool :=
  match s with
  | EmptyString => false
  | String c s' => Ascii.eqb c "/"%char || has_slash s'
  end.

Definition file_name (x : string) : bool :=
  negb (has_slash x) && negb (String.eqb x "") && negb (String.eqb x ".")
  && negb (String.eqb x "..").

(** The entries directly in [a]. *)
Definition children (a : list string) (m : files_t) : list string :=
  omap (fun kv : list string * node =>
          match drop (length a) (fst kv) with
          | [x] => if decide (a `prefix_of` fst kv) then Some x else None
          | _ => None
          end)
       (map_to_list m).

Definition has_children (a : list string) (m : files_t) : bool :=
  match children a m with [] => false | _ => true end.

(** The proper, non-empty prefixes of [k] and [k] itself, shortest first. *)
Definition prefixes (k : list string) : list (list string) :=
  map (fun n => take n k) (seq 1 (length k)).

Definition blocked (m : files_t) (k : list string) : bool :=
  existsb (fun a => match m !! a with Some (File _) => true | _ => false end)
          (prefixes k).

(** [os.makedirs(k, exist_ok)]: nothing to do for a directory that is
    there; otherwise the missing directories on the way are made too. *)
Definition makedirs (m : files_t) (k : list string) (exist_ok : bool)
  : outcome unit * files_t :=
  match node_at m k with
  | Some Dir => (if exist_ok then Return tt else Raise (OSError "file exists"), m)
  | Some (File _) => (Raise (OSError "file exists"), m)
  | None =>
      if blocked m k then (Raise (OSError "not a directory"), m)
      else (Return tt, foldr (fun a acc => <[ a := Dir ]> acc) m (prefixes k))
  end.

(** [Path.unlink(missing_ok)] *)
Definition unlink (m : files_t) (k : list string) (missing_ok : bool)
  : outcome unit * files_t :=
  match node_at m k with
  | None => (if missing_ok then Return tt else Raise (FileNotFoundError ""), m)
  | Some Dir => (Raise (OSError "is a directory"), m)
  | Some (File _) => (Return tt, delete k m)
  end.

(** [Path.rmdir()] *)
Definition rmdir (m : files_t) (k : list string) : outcome unit * files_t :=
  match k, node_at m k with
  | [], _ => (Raise (OSError "device or resource busy"), m)
  | _, None => (Raise (FileNotFoundError ""), m)
  | _, Some (File _) => (Raise (OSError "not a directory"), m)
  | _, Some Dir =>
      if has_children k m then (Raise (OSError "directory not empty"), m)
      else (Return tt, delete k m)
  end.

(** [shutil.rmtree(k, ignore_errors)] *)
Definition rmtree (m : files_t) (k : list string) (ignore_errors : bool)
  : outcome unit * files_t :=
  match node_at m k with
  | Some Dir => (Return tt, remove_under k m)
  | Some (File _) =>
      (if ignore_errors then Return tt else Raise (OSError "not a directory"), m)
  | None => (if ignore_errors then Return tt else Raise (FileNotFoundError ""), m)
  end.

(** [os.rename(a, b)] *)
Definition rename (m : files_t) (a b : list string) : outcome unit * files_t :=
  match node_at m a with
  | None => (Raise (FileNotFoundError ""), m)
  | Some na =>
      if decide (a = b) then (Return tt, m)
      else if decide (a `prefix_of` b) then (Raise (OSError "invalid argument"), m)
      else if negb (is_dir m (removelast b)) then (Raise (FileNotFoundError ""), m)
      else
        let moved := graft b (subtree a m) (remove_under b (remove_under a m)) in
        match na, node_at m b with
        | File _, Some Dir => (Raise (OSError "is a directory"), m)
        | Dir, Some (File _) => (Raise (OSError "not a directory"), m)
        | Dir, Some Dir =>
            if has_children b m then (Raise (OSError "directory not empty"), m)
            else (Return tt, moved)
        | _, _ => (Return tt, moved)
        end
  end.

(** Whether copying the entries to below [b] would put a file where a
    directory is or a directory where a file is. *)
Definition clashes (m : files_t) (b : list string) (entries : list (list string * node))
  : bool :=
  existsb (fun e => match snd e, m !! (b ++ fst e) with
                    | File _, Some Dir => true
                    | Dir, Some (File _) => true
                    | _, _ => false
                    end) entries.

(** [shutil.copytree(a, b, dirs_exist_ok)].  When an entry cannot be copied
    the library goes on with the others and raises at the end; here the
    copy is then left out as a whole. *)
Definition copytree (m : files_t) (a b : list string) (dirs_exist_ok : bool)
  : outcome unit * files_t :=
  match node_at m a with
  | None => (Raise (FileNotFoundError ""), m)
  | Some (File _) => (Raise (OSError "not a directory"), m)
  | Some Dir =>
      match makedirs m b dirs_exist_ok with
      | (inr e, m1) => (inr e, m1)
      | (inl _, m1) =>
          let entries := filter (fun e => fst e <> []) (subtree a m) in
          if clashes m1 b entries then (Raise (ShutilError "copytree"), m1)
          else (Return tt, graft b entries m1)
      end
  end.

(** [shutil.copy2(a, b)] *)
Definition copy2 (m : files_t) (a b : list string) : outcome unit * files_t :=
  let real := if is_dir m b then b ++ [List.last a ""] else b in
  match node_at m a with
  | None => (Raise (FileNotFoundError ""), m)
  | Some Dir => (Raise (OSError "is a directory"), m)
  | Some (File c) =>
      if negb (is_dir m (removelast real)) then (Raise (FileNotFoundError ""), m)
      else if is_dir m real then (Raise (OSError "is a directory"), m)
      else (Return tt, <[ real := File c ]> m)
  end.

(** [shutil.move(a, b)]: into [b] when that is a directory; by
    [os.rename], and when that fails by copying and removing. *)
Definition move (m : files_t) (a b : list string) : outcome unit * files_t :=
  if is_dir m b && bool_decide (a = b) then (Return tt, m)
  else
    let real := if is_dir m b then b ++ [List.last a ""] else b in
    if is_dir m b && exists_ m real
    then (Raise (ShutilError "Destination path already exists"), m)
    else
      match rename m a real with
      | (inl _, m1) => (Return tt, m1)
      | (inr _, _) =>
          if is_dir m a then
            if bool_decide (a `prefix_of` real)
            then (Raise (ShutilError "Cannot move a directory into itself"), m)
            else match copytree m a real false with
                 | (inl _, m1) => rmtree m1 a false
                 | (inr e, m1) => (inr e, m1)
                 end
          else match copy2 m a real with
               | (inl _, m1) => unlink m1 a false
               | (inr e, m1) => (inr e, m1)
               end
      end.

(** Where [zipfile] puts a member: its name without the empty, [.] and
    [..] components. *)
Definition zip_target (name : string) : list string :=
  filter (fun x => x <> "" /\ x <> "." /\ x <> "..") (split_slash name).

Definition ends_with_slash (name : string) : bool :=
  match List.last (split_slash name) "x" with EmptyString => true | _ => false end.

(** Writes one archive member at [target]. *)
Definition extract_member (m : files_t) (target : list string) (is_directory : bool)
    (data : string) : outcome unit * files_t :=
  if is_directory then makedirs m target true
  else match makedirs m (removelast target) true with
       | (inr e, m1) => (inr e, m1)
       | (inl _, m1) =>
           if is_dir m1 target then (Raise (OSError "is a directory"), m1)
           else (Return tt, <[ target := File (Bytes data) ]> m1)
       end.

(** Members are written one after the other; the first failure stops the
    extraction and leaves what was written before. *)
Fixpoint extract_members (m : files_t) (targets : list (list string * bool * string))
  : outcome unit * files_t :=
  match targets with
  | [] => (Return tt, m)
  | (t, d, data) :: rest =>
      match extract_member m t d data with
      | (inl _, m1) => extract_members m1 rest
      | (inr e, m1) => (inr e, m1)
      end
  end.

(** [ZipFile.extractall(dest)] *)
Definition zip_targets (dest : list string) (members : list (string * string))
  : list (list string * bool * string) :=
  map (fun nd => (dest ++ zip_target (fst nd), ends_with_slash (fst nd), snd nd)) members.

(** [TarFile.extractall(dest)] without an extraction filter: a member goes
    where its name leads from [dest], when absolute where it says. *)
Definition tar_target (dest : list string) (name : string) : list string :=
  let p := of_string name in
  if is_absolute p then normalize [] (parts p) else normalize dest (parts p).

Definition tar_targets (dest : list string) (members : list (string * string))
  : list (list string * bool * string) :=
  map (fun nd => (tar_target dest (fst nd), ends_with_slash (fst nd), snd nd)) members.

End FS.

(** ** Programs over the file system *)

Module Sys.

Import FS.

(** The stages of [checkout_one], kept for the record of what a run did. *)
Inductive Stage : Type := Lookup | Fetch | Copy | Transform | Install.

#[global] Instance Stage_eq_dec : EqDecision Stage.
Proof. solve_decision. Defined.

(** What [git] answers, by repository URL or checkout directory: the
    working tree of a clone or checkout ([None] when the command fails),
    the name of the checked-out branch, the commit a revision names, and
    whether a fetch succeeds. *)
Record Git : Type := mkGit {
  clone_tree : string -> option string -> option (list (list string * node));
  abbrev_head : list string -> option string;
  rev_parse : list string -> string -> option string;
  fetch_ok : list string -> string -> bool;
  checkout_tree : list string -> string -> option (list (list string * node))
}.

(** A library call: the calls of [pathlib], [shutil], [zipfile], [tarfile],
    [tempfile], [json] and [subprocess] the sources make, [str] of a value,
    and the mark of a new stage. *)
Inductive op : Type :=
| Resolve (p : Path)
| StrOf (v : pyval)
| Exists (p : Path)
| IsDir (p : Path)
| Iterdir (p : Path)
| Rglob (root : Path) (pattern : string)
| ReadJson (p : Path)
| MkdirP (p : Path)
| Unlink (p : Path) (missing_ok : bool)
| Rmdir (p : Path)
| Rmtree (p : Path) (ignore_errors : bool)
| Rename (a b : Path)
| Move (a b : Path)
| Copytree (a b : Path) (dirs_exist_ok : bool)
| Copy2 (a b : Path)
| ZipNames (z : Path)
| ZipExtractall (z dest : Path)
| TarNames (z : Path)
| TarExtractall (z dest : Path)
| Mkdtemp (prefix : string)
| GitClone (url : string) (ref : option string) (dir : Path)
| GitAbbrevHead (dir : Path)
| GitRevParse (dir : Path) (rev : string)
| GitFetch (dir : Path) (ref : string)
| GitCheckout (dir : Path) (ref : string)
| Print (line : string)
| EnterStage (s : Stage).

Definition ans (o : op) : Type :=
  match o with
  | Exists _ | IsDir _ => bool
  | Iterdir _ | Rglob _ _ => list Path
  | Resolve _ => Path
  | StrOf _ => string
  | ReadJson _ => pyval
  | ZipNames _ | TarNames _ => list string
  | Mkdtemp _ => Path
  | GitAbbrevHead _ | GitRevParse _ _ => string
  | _ => unit
  end.

(** Where a call may change the file system: at [Below a], the entry [a]
    and the entries below it; at [Above a], the entry [a] and the
    directories it lies in. *)
Inductive target : Type := Below (a : list string) | Above (a : list string).

Definition touches (t : target) (k : list string) : Prop :=
  match t with Below a => a `prefix_of` k | Above a => k `prefix_of` a end.

(** What [pathlib] and [fnmatch] make of a glob pattern: the exception for
    a pattern they refuse; whether the pattern selects an entry, given the
    entry's path relative to the directory searched and whether it is a
    directory; and, for a pattern with a [..] component, the paths found,
    given the working directory, the file system and the directory
    searched (such a pattern leads out of the directory searched, and what
    it finds can lie anywhere). *)
Record Glob : Type := mkGlob {
  refuses : string -> option exn;
  selects : string -> list string -> bool -> bool;
  climbs : list string -> files_t -> Path -> string -> list Path
}.

(** The world a program runs in: working directory, file system, the
    directory for temporary files, what a glob pattern matches, what
    [repr] prints for floats, lists and dicts, what [git] answers, the
    lines printed, and the record of the calls made so far. *)
Record World : Type := mkWorld {
  cwd : list string;
  files : files_t;
  tempdir : list string;
  glob_match : Glob;
  py_repr : pyval -> string;
  git : Git;
  stdout : list string;
  stage : Stage;
  log : list (Stage * op * list target)
}.

Definition with_files (w : World) (m : files_t) : World :=
  mkWorld (cwd w) m (tempdir w) (glob_match w) (py_repr w) (git w) (stdout w) (stage w) (log w).

(** The entry a path names for the running process. *)
Definition key (w : World) (p : Path) : list string := parts (resolve (cwd w) p).

Definition abs_path (k : list string) : Path := mkPath "/" k.

Definition is_Dir (n : node) : bool :=
  match n with Dir => true | File _ => false end.

(** [root.rglob(pattern)].  An absolute pattern is not supported.  For a
    pattern without a [..] component the search stays in [root]: when
    [root] is a directory, the paths found are [root] and the entries
    below it that the pattern selects, each as [root] joined with the
    entry's relative path; a directory never lists an entry under a name
    that is no file name (the special entries [.] and [..] among them).
    Nothing is found when [root] is no directory. *)
Definition rglob (w : World) (root : Path) (pattern : string) : outcome (list Path) :=
  if is_absolute (of_string pattern)
  then Raise (NotImplementedError "Non-relative patterns are unsupported")
  else
    match refuses (glob_match w) pattern with
    | Some e => Raise e
    | None =>
        if bool_decide (".." ∈ parts (of_string pattern))
        then Return (climbs (glob_match w) (cwd w) (files w) root pattern)
        else if negb (is_dir (files w) (key w root)) then Return []
        else Return (omap (fun e : list string * node =>
                             if forallb file_name (fst e)
                                && selects (glob_match w) pattern (fst e) (is_Dir (snd e))
                             then Some (joinpath root (mkPath "" (fst e))) else None)
                          (subtree (key w root) (files w)))
    end.

(** [p.iterdir()]: the special entries [.] and [..] are not included. *)
Definition iterdir (w : World) (p : Path) : outcome (list Path) :=
  match node_at (files w) (key w p) with
  | Some Dir => Return (map (fun x => joinpath p (mkPath "" [x]))
                          (filter (fun x => file_name x = true)
                                  (children (key w p) (files w))))
  | Some (File _) => Raise (OSError "not a directory")
  | None => Raise (FileNotFoundError "")
  end.

Definition read_json (w : World) (p : Path) : outcome pyval :=
  match node_at (files w) (key w p) with
  | Some (File (Json v)) => Return v
  | Some (File _) => Raise (ValueError "Expecting value")
  | Some Dir => Raise (OSError "is a directory")
  | None => Raise (FileNotFoundError "")
  end.

Definition archive_names (w : World) (z : Path) (zip : bool) : outcome (list string) :=
  match node_at (files w) (key w z) with
  | Some (File (Zip ms)) => if zip then Return (map fst ms) else Raise (BadArchive "not a gzip file")
  | Some (File (TarGz ms)) => if zip then Raise (BadArchive "File is not a zip file") else Return (map fst ms)
  | Some (File _) => Raise (BadArchive "")
  | Some Dir => Raise (OSError "is a directory")
  | None => Raise (FileNotFoundError "")
  end.

Definition archive_members (w : World) (z : Path) : list (string * string) :=
  match node_at (files w) (key w z) with
  | Some (File (Zip ms)) | Some (File (TarGz ms)) => ms
  | _ => []
  end.

(** The first name [prefix0], [prefix1], ... not taken in the temporary
    directory. *)
Definition fresh_name (w : World) (prefix : string) : option string :=
  List.find (fun x => negb (exists_ (files w) (tempdir w ++ [x])))
    (map (fun n => prefix +:+ str_of_nat n) (seq 0 (S (size (files w))))).

(** Where a call changes the file system, evaluated in the world it is made
    in. *)
Definition targets (w : World) (o : op) : list target :=
  match o with
  | MkdirP p => [Above (key w p)]
  | Unlink p _ | Rmdir p | Rmtree p _ => [Below (key w p)]
  | Rename a b => [Below (key w a); Below (key w b)]
  | Move a b => [Below (key w a); Below (key w b); Above (key w b)]
  | Copytree _ b _ => [Above (key w b); Below (key w b)]
  | Copy2 _ b => [Below (key w b)]
  | ZipExtractall _ dest => [Above (key w dest); Below (key w dest)]
  | TarExtractall z dest =>
      flat_map (fun t => [Above (fst (fst t)); Below (fst (fst t))])
        (tar_targets (key w dest) (archive_members w z))
  | Mkdtemp prefix =>
      match fresh_name w prefix with
      | Some x => [Below (tempdir w ++ [x])]
      | None => []
      end
  | GitClone _ _ dir => [Above (key w dir); Below (key w dir)]
  | GitFetch dir _ | GitCheckout dir _ => [Below (key w dir)]
  | _ => []
  end.

Definition lift {A} (w : World) (r : outcome A * files_t) : outcome A * World :=
  (fst r, with_files w (snd r)).

(** What a call answers and what it leaves. *)
Definition sem (o : op) (w : World) : outcome (ans o) * World :=
  match o return outcome (ans o) * World with
  | Resolve p => (Return (resolve (cwd w) p), w)
  | StrOf v => (Return (Tasks.py_str (py_repr w) v), w)
  | Exists p => (Return (exists_ (files w) (key w p)), w)
  | IsDir p => (Return (is_dir (files w) (key w p)), w)
  | Iterdir p => (iterdir w p, w)
  | Rglob root pattern => (rglob w root pattern, w)
  | ReadJson p => (read_json w p, w)
  | MkdirP p => lift w (makedirs (files w) (key w p) true)
  | Unlink p missing_ok => lift w (unlink (files w) (key w p) missing_ok)
  | Rmdir p => lift w (rmdir (files w) (key w p))
  | Rmtree p ignore_errors => lift w (rmtree (files w) (key w p) ignore_errors)
  | Rename a b => lift w (rename (files w) (key w a) (key w b))
  | Move a b => lift w (move (files w) (key w a) (key w b))
  | Copytree a b ok => lift w (copytree (files w) (key w a) (key w b) ok)
  | Copy2 a b => lift w (copy2 (files w) (key w a) (key w b))
  | ZipNames z => (archive_names w z true, w)
  | TarNames z => (archive_names w z false, w)
  | ZipExtractall z dest =>
      lift w (extract_members (files w) (zip_targets (key w dest) (archive_members w z)))
  | TarExtractall z dest =>
      lift w (extract_members (files w) (tar_targets (key w dest) (archive_members w z)))
  | Mkdtemp prefix =>
      match fresh_name w prefix with
      | Some x => (Return (abs_path (tempdir w ++ [x])),
                   with_files w (<[ tempdir w ++ [x] := Dir ]> (files w)))
      | None => (Raise (OSError "No usable temporary directory name found"), w)
      end
  | GitClone url ref dir =>
      match clone_tree (git w) url ref with
      | None => (Raise (CalledProcessError "git clone"), w)
      | Some entries =>
          if has_children (key w dir) (files w) || negb (is_dir (files w) (key w dir))
                                                   && exists_ (files w) (key w dir)
          then (Raise (CalledProcessError "git clone"), w)
          else match makedirs (files w) (key w dir) true with
               | (inr _, _) => (Raise (CalledProcessError "git clone"), w)
               | (inl _, m1) => (Return tt, with_files w (graft (key w dir) entries m1))
               end
      end
  | GitAbbrevHead dir =>
      (match abbrev_head (git w) (key w dir) with
       | Some s => Return s
       | None => Raise (CalledProcessError "git rev-parse")
       end, w)
  | GitRevParse dir rev =>
      (match rev_parse (git w) (key w dir) rev with
       | Some s => Return s
       | None => Raise (CalledProcessError "git rev-parse")
       end, w)
  | GitFetch dir ref =>
      (if fetch_ok (git w) (key w dir) ref then Return tt
       else Raise (CalledProcessError "git fetch"), w)
  | GitCheckout dir ref =>
      match checkout_tree (git w) (key w dir) ref with
      | None => (Raise (CalledProcessError "git checkout"), w)
      | Some entries =>
          (Return tt,
           with_files w (graft (key w dir) entries (remove_under (key w dir) (files w))))
      end
  | Print line =>
      (Return tt, mkWorld (cwd w) (files w) (tempdir w) (glob_match w) (py_repr w) (git w)
                    (stdout w ++ [line]) (stage w) (log w))
  | EnterStage s =>
      (Return tt, mkWorld (cwd w) (files w) (tempdir w) (glob_match w) (py_repr w) (git w)
                    (stdout w) s (log w))
  end.

(** A program: it returns, raises, or makes a library call and goes on with
    what the call returned or raised. *)
Inductive prog (A : Type) : Type :=
| Ret (a : A)
| Throw (e : exn)
| Call (o : op) (k : outcome (ans o) -> prog A).

Arguments Ret {A} a.
Arguments Throw {A} e.
Arguments Call {A} o k.

Fixpoint bind {A B} (p : prog A) (f : A -> prog B) : prog B :=
  match p with
  | Ret a => f a
  | Throw e => Throw e
  | Call o k => Call o (fun r => bind (k r) f)
  end.

(** A call whose exception is passed on. *)
Definition call (o : op) : prog (ans o) :=
  Call o (fun r => match r with inl a => Ret a | inr e => Throw e end).

(** A call with [try: ... except OSError: pass] around it. *)
Definition call_ignoring_OSError (o : op) : prog unit :=
  Call o (fun r => match r with
                   | inl _ => Ret tt
                   | inr e => if is_OSError e then Ret tt else Throw e
                   end).

(** [try: p finally: cleanup] *)
Fixpoint finally {A} (p : prog A) (cleanup : prog unit) : prog A :=
  match p with
  | Ret a => bind cleanup (fun _ => Ret a)
  | Throw e => bind cleanup (fun _ => Throw e)
  | Call o k => Call o (fun r => finally (k r) cleanup)
  end.

(** [for x in xs: body x] *)
Fixpoint for_each {A} (xs : list A) (body : A -> prog unit) : prog unit :=
  match xs with
  | [] => Ret tt
  | x :: rest => bind (body x) (fun _ => for_each rest body)
  end.

Definition record (w : World) (o : op) : World :=
  mkWorld (cwd w) (files w) (tempdir w) (glob_match w) (py_repr w) (git w) (stdout w) (stage w)
    (log w ++ [(stage w, o, targets w o)]).

(** Running a program: every call is recorded with the stage it was made
    in and the places it may change, then made. *)
Fixpoint run {A} (p : prog A) (w : World) : outcome A * World :=
  match p with
  | Ret a => (Return a, w)
  | Throw e => (Raise e, w)
  | Call o k =>
      let (r, w') := sem o (record w o) in
      run (k r) w'
  end.

End Sys.

Notation "'do' x <- p ; q" := (Sys.bind p (fun x => q))
  (at level 10, x name, p at level 100, q at level 200).
Notation "p ;;; q" := (Sys.bind p (fun _ => q))
  (at level 100, q at level 200, right associativity).

(** ** The transform engine ([datasets/adapters/transforms.py]) *)

Module Transforms.

Import FS Sys.

#[global] Instance Path_eq_dec : EqDecision Path.
Proof. solve_decision. Defined.

(** [obj[k]] for a value read from JSON. *)
Definition getitem (obj : pyval) (k : string) : prog pyval :=
  match obj with
  | PDict d => if dict_has d k then Ret (dict_get d k) else Throw (KeyError k)
  | _ => Throw (TypeError "")
  end.

(** [for x in v] over a value read from JSON. *)
Definition iterate (v : pyval) : prog (list pyval) :=
  match v with
  | PList l => Ret l
  | PStr s => Ret (map (fun c => PStr (String c EmptyString)) (list_ascii_of_string s))
  | PDict d => Ret (map (fun kv => PStr (fst kv)) d)
  | _ => Throw (TypeError ("'" +:+ type_name v +:+ "' object is not iterable"))
  end.

(** A value used where the library wants a string. *)
Definition as_str (v : pyval) : prog string :=
  match v with PStr s => Ret s | _ => Throw (TypeError "") end.

(** [dict.fromkeys(out)]: the first of equal paths stays. *)
Fixpoint dedupe (seen : list Path) (out : list Path) : list Path :=
  match out with
  | [] => []
  | p :: rest =>
      if bool_decide (p ∈ seen) then dedupe seen rest
      else p :: dedupe (p :: seen) rest
  end.

Fixpoint glob_loop (root : Path) (patterns : list pyval) (out : list Path)
  : prog (list Path) :=
  match patterns with
  | [] => Ret out
  | p :: rest =>
      do pat <- as_str p;
      do found <- call (Rglob root pat);
      glob_loop root rest (out ++ found)
  end.

Definition _glob_paths (root : Path) (patterns : pyval) : prog (list Path) :=
  do pats <- iterate patterns;
  do out <- glob_loop root pats [];
  Ret (dedupe [] out).

(** [s.endswith(t)] *)
Definition endswith (s t : string) : bool :=
  String.prefix (String.rev t) (String.rev s).

Fixpoint lstrip_dots (s : string) : string :=
  match s with
  | String "." s' => lstrip_dots s'
  | _ => s
  end.

Fixpoint has_dot (s : string) : bool :=
  match s with
  | EmptyString => false
  | String c s' => Ascii.eqb c "."%char || has_dot s'
  end.

(** [bool(p.suffixes)] *)
Definition has_suffixes (p : Path) : bool :=
  negb (endswith (name p) ".") && has_dot (lstrip_dots (name p)).

(** The part of [s] from its last dot on, when there is a dot. *)
Fixpoint from_last_dot (s : string) : option string :=
  match s with
  | EmptyString => None
  | String c s' =>
      match from_last_dot s' with
      | Some t => Some t
      | None => if Ascii.eqb c "."%char then Some s else None
      end
  end.

(** [p.suffix]: from the last dot of the name on, unless that dot is the
    first or the last character. *)
Definition suffix (p : Path) : string :=
  match from_last_dot (name p) with
  | Some t =>
      if (String.length t <? String.length (name p))%nat && (1 <? String.length t)%nat
      then t else ""
  | None => ""
  end.

Definition lower_char (c : ascii) : ascii :=
  let n := nat_of_ascii c in
  if (65 <=? n)%nat && (n <=? 90)%nat then ascii_of_nat (n + 32) else c.

(** [s.lower()], on the letters A to Z. *)
Fixpoint lower (s : string) : string :=
  match s with
  | EmptyString => EmptyString
  | String c s' => String (lower_char c) (lower s')
  end.

(** The check of [_safe_untar] and [_safe_unzip] for one member name:
    [str((dest / name).resolve()).startswith(str(dest.resolve()))]. *)
Definition member_check (dest : Path) (member : string) : prog bool :=
  do mpath <- call (Resolve (joinpath dest (of_string member)));
  do d <- call (Resolve dest);
  Ret (String.prefix (to_string d) (to_string mpath)).

Definition _safe_untar (tar_path dest : Path) : prog unit :=
  do names <- call (TarNames tar_path);
  for_each names (fun m =>
    do ok <- member_check dest m;
    if negb ok then Throw (RuntimeError ("Unsafe tar member path: " +:+ m))
    else Ret tt) ;;;
  call (TarExtractall tar_path dest).

Definition _safe_unzip (zip_path dest : Path) : prog unit :=
  do names <- call (ZipNames zip_path);
  for_each names (fun member =>
    do ok <- member_check dest member;
    if negb ok then Throw (RuntimeError ("Unsafe zip member path: " +:+ member))
    else Ret tt) ;;;
  call (ZipExtractall zip_path dest).

Definition _t_untar (root : Path) (step : pyval) : prog unit :=
  do patterns <- getitem step "patterns";
  do found <- _glob_paths root patterns;
  for_each found (fun tgz =>
    if negb (has_suffixes tgz)
       || negb (endswith (name tgz) ".tar.gz" || endswith (name tgz) ".tgz")
    then Ret tt
    else
      _safe_untar tgz (parent tgz) ;;;
      match step with
      | PDict d => if truthy (dict_get d "delete_archives")
                   then call (Unlink tgz false) else Ret tt
      | _ => Ret tt
      end).

Definition _t_unzip (root : Path) (step : pyval) : prog unit :=
  do patterns <- getitem step "patterns";
  do found <- _glob_paths root patterns;
  for_each found (fun z =>
    if negb (String.eqb (lower (suffix z)) ".zip") then Ret tt
    else
      _safe_unzip z (parent z) ;;;
      match step with
      | PDict d => if truthy (dict_get d "delete_archives")
                   then call (Unlink z false) else Ret tt
      | _ => Ret tt
      end).

(** [p.parents]: the nearest first. *)
Definition parents (p : Path) : list Path :=
  map (fun n => mkPath (root p) (take n (parts p))) (rev (seq 0 (length (parts p)))).

(** The order of paths: that of their parts, the root counting as the
    first part. *)
Definition sort_key (p : Path) : list string :=
  if String.eqb (root p) "" then parts p else root p :: parts p.

Fixpoint list_ltb (a b : list string) : bool :=
  match a, b with
  | _, [] => false
  | [], _ :: _ => true
  | x :: a', y :: b' =>
      match String.compare x y with
      | Lt => true
      | Gt => false
      | Eq => list_ltb a' b'
      end
  end.

Fixpoint insert_desc (p : Path) (sorted : list Path) : list Path :=
  match sorted with
  | [] => [p]
  | q :: rest =>
      if list_ltb (sort_key p) (sort_key q) then q :: insert_desc p rest
      else p :: sorted
  end.

(** [sorted(ps, reverse=True)] *)
Definition sorted_reverse (ps : list Path) : list Path :=
  foldr insert_desc [] ps.

(** [[d for d in ps if d.is_dir()]] *)
Fixpoint only_dirs (ps : list Path) : prog (list Path) :=
  match ps with
  | [] => Ret []
  | d :: rest =>
      do b <- call (IsDir d);
      do ds <- only_dirs rest;
      Ret (if b then d :: ds else ds)
  end.

Definition _t_keep_only (root : Path) (step : pyval) : prog unit :=
  do patterns <- getitem step "patterns";
  do keep <- _glob_paths root patterns;
  do all <- call (Rglob root "*");
  for_each all (fun p =>
    if bool_decide (p = root) then Ret tt
    else if existsb (fun parent => bool_decide (parent ∈ keep)) (parents p) then Ret tt
    else
      do d <- call (IsDir p);
      if d then Ret tt
      else if negb (bool_decide (p ∈ keep)) then call (Unlink p true)
      else Ret tt) ;;;
  do again <- call (Rglob root "*");
  do ds <- only_dirs again;
  for_each (sorted_reverse ds) (fun d => call_ignoring_OSError (Rmdir d)).

(** [s.rstrip("/\\")] *)
Definition rstrip_slashes (s : string) : string :=
  String.rev ((fix strip (t : string) : string :=
                 match t with
                 | String c t' =>
                     if Ascii.eqb c "/"%char || Ascii.eqb c "\"%char then strip t' else t
                 | EmptyString => EmptyString
                 end) (String.rev s)).

Definition _t_strip_prefix (root : Path) (step : pyval) : prog unit :=
  do raw <- getitem step "prefix";
  match raw with
  | PStr s =>
      let prefix := rstrip_slashes s in
      let src := joinpath root (of_string prefix) in
      do there <- call (Exists src);
      if negb there then Ret tt
      else
        do items <- call (Iterdir src);
        for_each items (fun item =>
          call (Move item (joinpath root (of_string (name item))))) ;;;
        do below <- call (Rglob src "*");
        do ds <- only_dirs below;
        for_each (sorted_reverse ds) (fun d => call (Rmdir d)) ;;;
        call (Rmdir src)
  | _ => Throw (AttributeError ("'" +:+ type_name raw +:+ "' object has no attribute 'rstrip'"))
  end.

Definition _t_rename (root : Path) (step : pyval) : prog unit :=
  do f <- getitem step "from";
  do f <- as_str f;
  do t <- getitem step "to";
  do t <- as_str t;
  call (Rename (joinpath root (of_string f)) (joinpath root (of_string t))).

Definition _t_delete (root : Path) (step : pyval) : prog unit :=
  do patterns <- getitem step "patterns";
  do found <- _glob_paths root patterns;
  for_each found (fun p =>
    do d <- call (IsDir p);
    if d then call (Rmtree p true) else call (Unlink p true)).

Definition _copy_any (src dst : Path) : prog unit :=
  do d <- call (IsDir src);
  if d then call (Copytree src dst true) else call (Copy2 src dst).

Definition ensure_dir (p : Path) : prog unit := call (MkdirP p).

Definition _t_copy (root : Path) (step : pyval) : prog unit :=
  do f <- getitem step "from";
  do f <- as_str f;
  do t <- getitem step "to";
  do t <- as_str t;
  let src := joinpath root (of_string f) in
  let dst := joinpath root (of_string t) in
  do d <- call (IsDir src);
  if d then
    ensure_dir dst ;;;
    do items <- call (Iterdir src);
    for_each items (fun item => _copy_any item (joinpath dst (of_string (name item))))
  else
    ensure_dir (parent dst) ;;;
    _copy_any src dst.

Definition _t_move (root : Path) (step : pyval) : prog unit :=
  do f <- getitem step "from";
  do f <- as_str f;
  do t <- getitem step "to";
  do t <- as_str t;
  let src := joinpath root (of_string f) in
  let dst := joinpath root (of_string t) in
  ensure_dir (parent dst) ;;;
  call (Move src dst).

(** [t == s] for a string literal [s]. *)
Definition eq_str (t : pyval) (s : string) : bool :=
  match t with PStr x => String.eqb x s | _ => false end.

Definition apply_step (root : Path) (step : pyval) : prog unit :=
  do t <- getitem step "type";
  if eq_str t "unzip" then _t_unzip root step
  else if eq_str t "keep_only" then _t_keep_only root step
  else if eq_str t "strip_prefix" then _t_strip_prefix root step
  else if eq_str t "rename" then _t_rename root step
  else if eq_str t "delete" then _t_delete root step
  else if eq_str t "copy" then _t_copy root step
  else if eq_str t "move" then _t_move root step
  else if eq_str t "untar" then _t_untar root step
  else
    do s <- call (StrOf t);
    Throw (ValueError ("Unknown transform type: " +:+ s)).

Definition apply_transforms (root : Path) (transforms : pyval) : prog unit :=
  do steps <- iterate transforms;
  for_each steps (apply_step root).

End Transforms.

(** ** Fetching from git ([datasets/adapters/git.py]) *)

Module GitAdapter.

Import FS Sys.

(** The second attempt of [_is_branch_or_tag_checked]: is the commit
    checked out the one [ref] names?  Any failure counts as no. *)
Definition same_commit (repo_dir : Path) (ref : string) : prog bool :=
  Call (GitRevParse repo_dir "HEAD") (fun r1 =>
    match r1 with
    | inl cur =>
        Call (GitRevParse repo_dir ref) (fun r2 =>
          match r2 with
          | inl out2 => Ret (String.eqb cur out2)
          | inr _ => Ret false
          end)
    | inr _ => Ret false
    end).

(** [_is_branch_or_tag_checked]; the output of [git rev-parse] comes
    stripped. *)
Definition _is_branch_or_tag_checked (repo_dir : Path) (ref : string) : prog bool :=
  Call (GitAbbrevHead repo_dir) (fun r =>
    match r with
    | inl out => if String.eqb out ref then Ret true else same_commit repo_dir ref
    | inr _ => same_commit repo_dir ref
    end).

(** A value used as a command-line argument or a path component. *)
Definition arg_str (v : pyval) : prog string :=
  match v with PStr s => Ret s | _ => Throw (TypeError "") end.

(** [fetch_git]; [url], [ref] and [subdir] as the configuration gives
    them. *)
Definition fetch_git (url ref subdir : pyval) (tmp_dir : Path) : prog Path :=
  let repo_dir := joinpath tmp_dir (of_string "repo") in
  do branch <- (if truthy ref then do r <- arg_str ref; Ret (Some r) else Ret None);
  do u <- arg_str url;
  call (GitClone u branch repo_dir) ;;;
  match branch with
  | Some r =>
      do checked <- _is_branch_or_tag_checked repo_dir r;
      if negb checked then
        call (GitFetch repo_dir r) ;;;
        call (GitCheckout repo_dir r)
      else Ret tt
  | None => Ret tt
  end ;;;
  do root <- (if negb (truthy subdir) then Ret repo_dir
              else do s <- arg_str subdir; Ret (joinpath repo_dir (of_string s)));
  do there <- call (Exists root);
  if negb there
  then
    do s <- call (StrOf subdir);
    Throw (FileNotFoundError ("subdir '" +:+ s +:+ "' not found in repo " +:+ u))
  else Ret root.

End GitAdapter.

(** ** Checking out a dataset ([datasets/checkout.py]) *)

Module Checkout.

Import FS Sys Transforms GitAdapter.

Definition REGISTRY_PATH : Path := of_string "configs/registry.json".

Definition _fetch_source (source : pyval) (tmp : Path) : prog Path :=
  do stype <- getitem source "type";
  if eq_str stype "git" then
    do url <- getitem source "url";
    match source with
    | PDict d => fetch_git url (dict_get d "ref") (dict_get d "subdir") tmp
    | _ => Throw (TypeError "")
    end
  else
    do s <- call (StrOf stype);
    Throw (ValueError ("Unsupported source type: " +:+ s)).

Record DatasetConfig : Type := mkDatasetConfig {
  id : pyval;
  version : pyval;
  source : pyval;
  transforms : pyval;
  manifest : pyval;
  tasks : pyval
}.

(** [obj.get(k, default)] *)
Definition get_default (d : pydict) (k : string) (default : pyval) : pyval :=
  if dict_has d k then dict_get d k else default.

Definition load_dataset_config (ref : pyval) : prog DatasetConfig :=
  do obj <- match ref with
            | PDict _ => Ret ref
            | PStr s => call (ReadJson (of_string s))
            | _ => Throw (TypeError "")
            end;
  do i <- getitem obj "id";
  do src <- getitem obj "source";
  match obj with
  | PDict d =>
      Ret (mkDatasetConfig i (get_default d "version" (PStr "0.0.0")) src
             (get_default d "transforms" (PList [])) (dict_get d "manifest")
             (dict_get d "tasks"))
  | _ => Throw (TypeError "")
  end.

Definition load_registry : prog pyval := call (ReadJson REGISTRY_PATH).

Definition safe_rmtree (p : Path) : prog unit :=
  do there <- call (Exists p);
  if there then call (Rmtree p false) else Ret tt.

(** [with tempfile.TemporaryDirectory(prefix=...) as tmp: body]; the
    directory is removed on the way out, whether [body] returned or
    raised, and it is no error if it is gone by then. *)
Definition with_temporary_directory {A} (prefix : string) (body : Path -> prog A)
  : prog A :=
  do tmp <- call (Mkdtemp prefix);
  finally (body tmp) (call (Rmtree tmp true)).

(** [checkout_one]; the marks of the stages are for the record of the run
    only. *)
Definition checkout_one (dataset_id : string) (output_dir : Path) (update : bool)
  : prog Path :=
  call (EnterStage Lookup) ;;;
  do registry <- load_registry;
  do ref <- match registry with
            | PDict d => Ret (dict_get d dataset_id)
            | _ => Throw (AttributeError ("'" +:+ type_name registry
                                          +:+ "' object has no attribute 'get'"))
            end;
  if negb (truthy ref)
  then Throw (ValueError ("Dataset '" +:+ dataset_id +:+ "' not found in registry "
                          +:+ to_string REGISTRY_PATH))
  else
    do cfg <- load_dataset_config ref;
    do dst <- call (Resolve (joinpath output_dir (of_string dataset_id)));
    ensure_dir output_dir ;;;
    do there <- call (Exists dst);
    if there && negb update then
      call (Print ("✔ Already present: " +:+ dataset_id)) ;;;
      Ret dst
    else
      with_temporary_directory "arena_" (fun tmp =>
        call (EnterStage Fetch) ;;;
        do src_root <- _fetch_source (source cfg) tmp;
        call (EnterStage Copy) ;;;
        let workdir := joinpath tmp (of_string "work") in
        call (Copytree src_root workdir false) ;;;
        call (EnterStage Transform) ;;;
        apply_transforms workdir (transforms cfg) ;;;
        call (EnterStage Install) ;;;
        do there <- call (Exists dst);
        (if there then safe_rmtree dst else Ret tt) ;;;
        call (Move workdir dst)) ;;;
      call (Print ("⬇ Downloaded: " +:+ dataset_id +:+ " → " +:+ to_string dst)) ;;;
      Ret dst.

End Checkout.

(** ** Properties of the task queue *)

Module QueueFacts.

Import Tasks Queue.

Definition leased_item (now : Time) (it : QueueItem) : QueueItem :=
  mkQueueItem (id it) (spec it) in_progress (Some now) (finished_at it) (result it).

Lemma lease_first_Some now items items' it' :
  lease_first now items = Some (items', it') ->
  exists (i : nat) (it : QueueItem),
    items !! i = Some it /\ status it = pending /\
    (forall (j : nat) (it0 : QueueItem),
        (j < i)%nat -> items !! j = Some it0 -> status it0 <> pending) /\
    it' = leased_item now it /\
    items' = <[ i := it' ]> items.
Proof.
  revert items' it'.
  induction items as [|a rest IH]; intros items' it' H; simpl in H; [discriminate|].
  destruct (decide (status a = pending)) as [Hp|Hp].
  - inversion H; subst. exists 0%nat, a. repeat split; auto.
    intros j it0 Hj. lia.
  - destruct (lease_first now rest) as [[rest' l]|] eqn:E; [|discriminate].
    inversion H; subst.
    destruct (IH _ _ eq_refl) as (i & it & Hi & Hs & Hlt & Hit & Hrest).
    exists (S i), it. repeat split; auto.
    + intros [|j] it0 Hj Hl; simpl in Hl.
      * inversion Hl; subst; auto.
      * apply (Hlt j); auto. lia.
    + simpl. now f_equal.
Qed.

Lemma lease_first_None now items :
  lease_first now items = None <->
  (forall it, it ∈ items -> status it <> pending).
Proof.
  induction items as [|a rest IH]; simpl.
  - split; auto. intros _ it Hin. inversion Hin.
  - destruct (decide (status a = pending)) as [Hp|Hp].
    + split; [discriminate|]. intros H. exfalso. apply (H a); [left|auto].
    + destruct (lease_first now rest) as [[rest' l]|] eqn:E.
      * split; [discriminate|]. intros H.
        assert (Some (rest', l) = None) as X; [|discriminate X].
        apply IH. intros it Hin. apply H. now right.
      * split; auto. intros _ it Hin.
        apply elem_of_cons in Hin as [->|Hin]; auto.
        destruct IH as [IH _]. now apply IH.
Qed.

End QueueFacts.

Module QueueInv.

Import Tasks Queue QueueFacts.

(** *** One call at a time *)

Ltac inv_pair :=
  let X := fresh "X" in intros X; inversion X; subst; clear X; try reflexivity.

Lemma next_task_Some now q w s' view :
  next_task now (q, w) = (s', Some view) ->
  exists (i : nat) (it : QueueItem),
    _items q !! i = Some it /\ status it = pending /\
    (forall (j : nat) (it0 : QueueItem),
        (j < i)%nat -> _items q !! j = Some it0 -> status it0 <> pending) /\
    view = lease_view (leased_item now it) /\
    _items (fst s') = <[ i := leased_item now it ]> (_items q) /\
    _completed (fst s') = _completed q /\
    _grader (fst s') = _grader q /\
    _results_dir (fst s') = _results_dir q /\
    log_progress (fst s') = log_progress q /\
    files (snd s') = files w /\
    grader_calls (snd s') = grader_calls w.
Proof.
  unfold next_task. intros H.
  destruct (lease_first now (_items q)) as [[items' it']|] eqn:E; [|discriminate].
  destruct (lease_first_Some _ _ _ _ E) as (i & it & Hi & Hs & Hlt & -> & ->).
  inversion H; subst; clear H. exists i, it. simpl.
  repeat (split; [assumption || reflexivity|]).
  split; destruct (log_progress q); reflexivity.
Qed.

Lemma next_task_None now s s' :
  next_task now s = (s', None) ->
  s' = s /\ forall it, it ∈ _items (fst s) -> status it <> pending.
Proof.
  unfold next_task. destruct s as [q w]. intros H.
  destruct (lease_first now (_items q)) as [[items' it']|] eqn:E; [discriminate|].
  inversion H; subst. split; auto. now apply (lease_first_None now).
Qed.

Lemma submit_answer_Raise tid out t1 t2 s s' e :
  submit_answer tid out t1 t2 s = (s', inr e) -> s' = s.
Proof.
  unfold submit_answer. destruct s as [q w].
  destruct ((tid <? 0) || (Z.of_nat (length (_items q)) <=? tid)); [inv_pair|].
  destruct (_items q !! Z.to_nat tid) as [it|]; [|inv_pair].
  destruct (negb (bool_decide (status it = in_progress))); [inv_pair|].
  destruct (run_grader q it _) as [g c]. intros H. inversion H.
Qed.

Definition completed_item (it : QueueItem) (t_fin : Time) (rec : pydict) : QueueItem :=
  mkQueueItem (id it) (spec it) completed (started_at it) (Some t_fin) (Some rec).

Lemma submit_answer_Return tid out t1 t2 q w s' ack :
  submit_answer tid out t1 t2 (q, w) = (s', inl ack) ->
  exists (it : QueueItem) (rec : pydict),
    0 <= tid < Z.of_nat (length (_items q)) /\
    _items q !! Z.to_nat tid = Some it /\ status it = in_progress /\
    _items (fst s') = <[ Z.to_nat tid := completed_item it t2 rec ]> (_items q) /\
    _completed (fst s') = _completed q + 1.
Proof.
  unfold submit_answer.
  destruct ((tid <? 0) || (Z.of_nat (length (_items q)) <=? tid)) eqn:Er; [inv_pair|].
  destruct (_items q !! Z.to_nat tid) as [it|] eqn:El; [|inv_pair].
  destruct (negb (bool_decide (status it = in_progress))) eqn:Es; [inv_pair|].
  destruct (run_grader q it _) as [g c]. intros H. inversion H; subst; clear H.
  eexists it, _. simpl. repeat split; try reflexivity.
  - apply orb_false_iff in Er as [E1 _]. lia.
  - apply orb_false_iff in Er as [_ E2]. lia.
  - apply negb_false_iff, bool_decide_eq_true in Es. exact Es.
Qed.

(** *** What every reachable state satisfies *)

Fixpoint count_completed (items : list QueueItem) : nat :=
  match items with
  | [] => 0
  | it :: rest =>
      (if decide (status it = completed) then 1 else 0) + count_completed rest
  end.

Record Inv (s : State) : Prop := {
  inv_ids : forall (i : nat) (it : QueueItem),
      _items (fst s) !! i = Some it -> id it = Z.of_nat i;
  inv_completed : _completed (fst s) = Z.of_nat (count_completed (_items (fst s)))
}.

Lemma count_completed_le items : (count_completed items <= length items)%nat.
Proof.
  induction items as [|a r IH]; simpl; [lia|].
  destruct (decide (status a = completed)); lia.
Qed.

Lemma count_completed_insert items (i : nat) (it x : QueueItem) :
  items !! i = Some it ->
  (count_completed (<[ i := x ]> items) + (if decide (status it = completed) then 1 else 0)
   = count_completed items + (if decide (status x = completed) then 1 else 0))%nat.
Proof.
  revert i. induction items as [|a r IH]; intros [|i] H; simpl in *; try discriminate.
  - inversion H; subst. lia.
  - specialize (IH i H). lia.
Qed.

Lemma count_completed_pending items :
  Forall (fun it => status it = pending) items -> count_completed items = 0%nat.
Proof.
  induction 1 as [|a r Ha _ IH]; simpl; auto.
  rewrite Ha, IH. reflexivity.
Qed.

Lemma init_Inv specs dir g log w : Inv (init specs dir g log w).
Proof.
  split; simpl.
  - intros i it H. rewrite list_lookup_imap in H.
    destruct (specs !! i); simpl in H; inversion H; reflexivity.
  - rewrite count_completed_pending; [reflexivity|].
    apply Forall_lookup. intros i it H. rewrite list_lookup_imap in H.
    destruct (specs !! i); simpl in H; inversion H; reflexivity.
Qed.

Lemma step_Inv c s : Inv s -> Inv (fst (step c s)).
Proof.
  intros [Hid Hc]. destruct c as [now|tid out t1 t2]; simpl.
  - destruct (next_task now s) as [s' [v|]] eqn:E; simpl.
    + destruct s as [q w].
      apply next_task_Some in E as (i & it & Hi & Hs & _ & _ & Hit & Hcc & _).
      split.
      * intros j x Hj. rewrite Hit in Hj.
        destruct (decide (i = j)) as [->|Hne].
        -- rewrite list_lookup_insert_eq in Hj by (eapply lookup_lt_Some; eauto).
           inversion Hj; subst. simpl. eauto.
        -- rewrite list_lookup_insert_ne in Hj by auto. eauto.
      * rewrite Hcc, Hit. simpl in Hc. rewrite Hc. f_equal.
        pose proof (count_completed_insert _ _ _ (leased_item now it) Hi) as X.
        simpl in X. rewrite Hs in X.
        destruct (decide (pending = completed)); [discriminate|].
        destruct (decide (in_progress = completed)); [discriminate|]. lia.
    + apply next_task_None in E as [-> _]. split; auto.
  - destruct (submit_answer tid out t1 t2 s) as [s' [ack|e]] eqn:E; simpl.
    + destruct s as [q w].
      apply submit_answer_Return in E as (it & rec & Hr & Hi & Hs & Hit & Hcc).
      split.
      * intros j x Hj. rewrite Hit in Hj.
        destruct (decide (Z.to_nat tid = j)) as [<-|Hne].
        -- rewrite list_lookup_insert_eq in Hj by (eapply lookup_lt_Some; eauto).
           inversion Hj; subst. simpl. eauto.
        -- rewrite list_lookup_insert_ne in Hj by auto. eauto.
      * rewrite Hcc, Hit. simpl in Hc. rewrite Hc.
        pose proof (count_completed_insert _ _ _ (completed_item it t2 rec) Hi) as X.
        simpl in X. rewrite Hs in X.
        destruct (decide (completed = completed)); [|congruence].
        destruct (decide (in_progress = completed)); [discriminate|]. lia.
    + apply submit_answer_Raise in E as ->. split; auto.
Qed.

Lemma run_head cs s : exists ss, fst (run cs s) = s :: ss.
Proof.
  destruct cs as [|c cs]; simpl; [eauto|].
  destruct (step c s) as [s' r]. destruct (run cs s') as [ss rs]. simpl. eauto.
Qed.

Lemma run_cons c cs s :
  run (c :: cs) s =
  (s :: fst (run cs (fst (step c s))), snd (step c s) :: snd (run cs (fst (step c s)))).
Proof.
  simpl. destruct (step c s) as [s' r]. simpl.
  destruct (run cs s') as [ss rs]. reflexivity.
Qed.

Lemma run_Inv cs s : Inv s -> Forall Inv (fst (run cs s)).
Proof.
  revert s. induction cs as [|c cs IH]; intros s H.
  - simpl. constructor; [exact H | constructor].
  - rewrite run_cons. simpl. constructor; auto. apply IH. now apply step_Inv.
Qed.

End QueueInv.

Module QueueLease.

Import Tasks Queue QueueFacts QueueInv.

(** The task ids a run handed out, in the order of the calls. *)
Definition leased_ids (rs : list reply) : list Z :=
  flat_map (fun r => match r with
                     | Leased (Some view) =>
                         match dict_get view "task_id" with
                         | PInt z => [z]
                         | _ => []
                         end
                     | _ => []
                     end) rs.

Lemma leased_ids_fresh cs :
  forall (s : State) (L : list Z),
    Inv s ->
    (forall (i : nat) (it : QueueItem),
        _items (fst s) !! i = Some it -> status it = pending -> id it ∉ L) ->
    NoDup (leased_ids (snd (run cs s))) /\
    (forall z, z ∈ leased_ids (snd (run cs s)) -> z ∉ L).
Proof.
  induction cs as [|c cs IH]; intros s L HI HL.
  - simpl. split; [constructor|]. intros z Hz. inversion Hz.
  - rewrite run_cons. cbn [snd leased_ids flat_map].
    pose proof (step_Inv c s HI) as HI'.
    destruct c as [now|tid out t1 t2]; cbn [step] in *.
    + destruct (next_task now s) as [s' [view|]] eqn:E; cbn [fst snd] in *.
      * destruct s as [q w].
        apply next_task_Some in E as (i & it & Hi & Hs & _ & -> & Hit & _).
        cbn [lease_view dict_get leased_item id]. simpl String.eqb. cbn iota.
        destruct (IH s' (id it :: L) HI') as [Hnd Hfresh].
        { intros j x Hj Hp. rewrite Hit in Hj.
          destruct (decide (i = j)) as [->|Hne].
          - rewrite list_lookup_insert_eq in Hj by (eapply lookup_lt_Some; eauto).
            inversion Hj; subst. discriminate Hp.
          - rewrite list_lookup_insert_ne in Hj by auto.
            apply not_elem_of_cons. split; [|eapply HL; eauto].
            destruct HI as [Hid _]. cbn [fst] in Hid.
            rewrite (Hid _ _ Hj), (Hid _ _ Hi). lia. }
        split.
        -- simpl. constructor; auto. intros Hin. apply (Hfresh _ Hin). left.
        -- intros z Hz. simpl in Hz. apply elem_of_cons in Hz as [->|Hz].
           ++ eapply HL; eauto.
           ++ intros HzL. apply (Hfresh _ Hz). now right.
      * apply next_task_None in E as [-> _]. simpl. apply IH; auto.
    + destruct (submit_answer tid out t1 t2 s) as [s' [ack|e]] eqn:E; cbn [fst snd] in *.
      * simpl. apply IH; auto. destruct s as [q w].
        apply submit_answer_Return in E as (it & rec & _ & Hi & Hs & Hit & _).
        intros j x Hj Hp. rewrite Hit in Hj.
        destruct (decide (Z.to_nat tid = j)) as [<-|Hne].
        -- rewrite list_lookup_insert_eq in Hj by (eapply lookup_lt_Some; eauto).
           inversion Hj; subst. discriminate Hp.
        -- rewrite list_lookup_insert_ne in Hj by auto. eapply HL; eauto.
      * apply submit_answer_Raise in E as ->. simpl. apply IH; auto.
Qed.

End QueueLease.

Module QueueSubmit.

Import Tasks Queue QueueFacts QueueInv.

Lemma submit_answer_in_progress tid out t1 t2 q w it :
  0 <= tid -> _items q !! Z.to_nat tid = Some it -> status it = in_progress ->
  submit_answer tid out t1 t2 (q, w) =
  let p_out := path_or_none out in
  let grade := fst (run_grader q it p_out) in
  let rec := result_record it p_out grade t1 in
  let w1 := {| dirs := dirs w;
               files := <[ result_file q it := rec ]> (files w);
               stdout := stdout w;
               grader_calls := grader_calls w ++ snd (run_grader q it p_out) |} in
  (({| _items := <[ Z.to_nat tid := completed_item it t2 rec ]> (_items q);
       _in_progress := _in_progress q ∖ {[ id it ]};
       _completed := _completed q + 1;
       _results_dir := _results_dir q;
       _grader := _grader q;
       log_progress := log_progress q |},
    if log_progress q
    then print ("[queue] completed task " +:+ str_of_Z (id it)) w1 else w1),
   Return [ ("ok", PBool true); ("grade", or_none grade);
            ("completed", PInt (_completed q + 1));
            ("total", PInt (Z.of_nat (length (_items q)))) ]).
Proof.
  intros H0 Hi Hs. unfold submit_answer.
  pose proof (lookup_lt_Some _ _ _ Hi) as Hlt.
  replace ((tid <? 0) || (Z.of_nat (length (_items q)) <=? tid)) with false
    by (symmetry; apply orb_false_iff; split; lia).
  rewrite Hi, Hs. simpl negb. cbv iota.
  destruct (run_grader q it (path_or_none out)) as [g c]. cbn [fst snd].
  cbn [_completed _items]. rewrite length_insert. reflexivity.
Qed.

(** C3.  A call of [submit_answer] with a task id below zero or past the
    last item, or with the id of an item whose status is not in progress
    (never leased, or completed already), raises ([ValueError] for the
    range, [RuntimeError] for the status) and returns the queue, the results
    directory, the output and the log of grader calls exactly as they were:
    no status, time stamp, result or counter changes. *)
Theorem submit_answer_rejects_not_in_progress
    (tid : Z) (out : option string) (t_sub t_fin : Time) (s : State) :
  (tid < 0 \/ Z.of_nat (length (_items (fst s))) <= tid \/
   exists it, _items (fst s) !! Z.to_nat tid = Some it /\ status it <> in_progress) ->
  exists e : exn,
    submit_answer tid out t_sub t_fin s = (s, Raise e) /\
    match e with ValueError _ | RuntimeError _ => True | _ => False end.
Proof.
  intros H. unfold submit_answer. destruct s as [q w]. cbn [fst] in H.
  destruct ((tid <? 0) || (Z.of_nat (length (_items q)) <=? tid)) eqn:Er.
  { eexists. split; [reflexivity|exact I]. }
  apply orb_false_iff in Er as [E1 E2].
  destruct H as [H|[H|(it & Hi & Hs)]]; try lia.
  rewrite Hi. destruct (bool_decide_reflect (status it = in_progress)) as [Hc|Hc];
    [contradiction|].
  simpl negb. cbv iota. eexists. split; [reflexivity|exact I].
Qed.

(** C6.  When [submit_answer] is called for an item in progress with an
    output path and the grading callback raises, the call still returns:
    its acknowledgement carries the grading-error outcome built from the
    exception's message and the new completed and total counts, the same
    outcome is in the record written to the results directory and kept on
    the item, the item is completed and the counter has gone up by one. *)
Theorem submit_answer_absorbs_grading_error
    (tid : Z) (o : string) (t_sub t_fin : Time) (q : TaskQueue) (w : World)
    (it : QueueItem) (g : Grader) (msg : string) :
  0 <= tid ->
  _items q !! Z.to_nat tid = Some it ->
  status it = in_progress ->
  _grader q = Some g ->
  o <> "" ->
  g (spec it) (of_string o) = inr msg ->
  let outcome := PDict [("status", PStr "grading_error"); ("error", PStr msg)] in
  exists (s' : State) (ack rec : pydict) (it' : QueueItem),
    submit_answer tid (Some o) t_sub t_fin (q, w) = (s', Return ack) /\
    dict_get ack "ok" = PBool true /\
    dict_get ack "grade" = outcome /\
    dict_get ack "completed" = PInt (_completed q + 1) /\
    dict_get ack "total" = PInt (Z.of_nat (length (_items q))) /\
    files (snd s') !! result_file q it = Some rec /\
    dict_get rec "grade" = outcome /\
    _items (fst s') !! Z.to_nat tid = Some it' /\
    status it' = completed /\ result it' = Some rec /\
    finished_at it' = Some t_fin /\
    _completed (fst s') = _completed q + 1.
Proof.
  intros H0 Hi Hs Hg Ho Hr outcome.
  rewrite (submit_answer_in_progress _ _ _ _ _ _ _ H0 Hi Hs). cbv zeta.
  assert (path_or_none (Some o) = Some (of_string o)) as Hp.
  { unfold path_or_none. destruct (String.eqb_spec o ""); [contradiction|reflexivity]. }
  rewrite Hp. unfold run_grader. rewrite Hg, Hr. cbn [fst snd].
  eexists _, _, (result_record it (Some (of_string o)) outcome t_sub),
    (completed_item it t_fin (result_record it (Some (of_string o)) outcome t_sub)).
  split; [reflexivity|].
  cbn [fst snd _items _completed].
  repeat split; try reflexivity.
  - destruct (log_progress q); cbn [print files]; apply lookup_insert_eq.
  - apply list_lookup_insert_eq. eapply lookup_lt_Some; eauto.
Qed.

(** C10.  When [submit_answer] is called for an item in progress and there
    is no grading callback, or no output path (none, or the empty string),
    or the callback returns an empty dict, the acknowledgement, the record
    written to the results directory and the record kept on the item each
    have a [grade] entry, and it holds [None]: the null grade is stored,
    not left out; without an output path the callback is not called. *)
Theorem submit_answer_null_grade
    (tid : Z) (out : option string) (t_sub t_fin : Time) (q : TaskQueue)
    (w : World) (it : QueueItem) :
  0 <= tid ->
  _items q !! Z.to_nat tid = Some it ->
  status it = in_progress ->
  (_grader q = None \/ path_or_none out = None \/
   exists (g : Grader) (p : Path),
     _grader q = Some g /\ path_or_none out = Some p /\ g (spec it) p = inl (PDict [])) ->
  exists (s' : State) (ack rec : pydict) (it' : QueueItem),
    submit_answer tid out t_sub t_fin (q, w) = (s', Return ack) /\
    dict_has ack "grade" = true /\ dict_get ack "grade" = PNone /\
    files (snd s') !! result_file q it = Some rec /\
    dict_has rec "grade" = true /\ dict_get rec "grade" = PNone /\
    _items (fst s') !! Z.to_nat tid = Some it' /\
    status it' = completed /\ result it' = Some rec /\
    (path_or_none out = None -> grader_calls (snd s') = grader_calls w).
Proof.
  intros H0 Hi Hs Hcase.
  rewrite (submit_answer_in_progress _ _ _ _ _ _ _ H0 Hi Hs). cbv zeta.
  assert (or_none (fst (run_grader q it (path_or_none out))) = PNone /\
          (path_or_none out = None -> snd (run_grader q it (path_or_none out)) = []))
    as [Hgrade Hcalls].
  { unfold run_grader.
    destruct Hcase as [Hg|[Hp|(g & p & Hg & Hp & Hr)]].
    - rewrite Hg. split; reflexivity.
    - rewrite Hp. destruct (_grader q); split; reflexivity.
    - rewrite Hg, Hp, Hr. split; [reflexivity|discriminate]. }
  set (grade := fst (run_grader q it (path_or_none out))) in *.
  eexists _, _, (result_record it (path_or_none out) grade t_sub),
    (completed_item it t_fin (result_record it (path_or_none out) grade t_sub)).
  split; [reflexivity|].
  cbn [fst snd _items _completed].
  repeat split; try reflexivity.
  - exact Hgrade.
  - destruct (log_progress q); cbn [print files]; apply lookup_insert_eq.
  - cbn [result_record dict_get]. simpl String.eqb. cbv iota. exact Hgrade.
  - apply list_lookup_insert_eq. eapply lookup_lt_Some; eauto.
  - intros Hp. rewrite (Hcalls Hp).
    destruct (log_progress q); cbn [print grader_calls]; apply app_nil_r.
Qed.

End QueueSubmit.

Module QueueProgress.

Import Tasks Queue QueueFacts QueueInv.

Definition rank (st : Status) : nat :=
  match st with pending => 0 | in_progress => 1 | completed => 2 end.

(** What one call may do to a status: nothing, lease it, or complete it. *)
Definition allowed (a b : Status) : Prop :=
  a = b \/ (a = pending /\ b = in_progress) \/ (a = in_progress /\ b = completed).

Definition adj (s s' : State) : Prop :=
  length (_items (fst s')) = length (_items (fst s)) /\
  (forall (i : nat) (x y : QueueItem),
      _items (fst s) !! i = Some x -> _items (fst s') !! i = Some y ->
      allowed (status x) (status y)) /\
  _completed (fst s) <= _completed (fst s').

Definition mono (s s' : State) : Prop :=
  length (_items (fst s')) = length (_items (fst s)) /\
  (forall (i : nat) (x y : QueueItem),
      _items (fst s) !! i = Some x -> _items (fst s') !! i = Some y ->
      (rank (status x) <= rank (status y))%nat) /\
  _completed (fst s) <= _completed (fst s').

Lemma allowed_rank a b : allowed a b -> (rank a <= rank b)%nat.
Proof. intros [->|[[-> ->]|[-> ->]]]; simpl; lia. Qed.

Lemma adj_refl s : adj s s.
Proof.
  repeat split; try lia. intros i x y Hx Hy. rewrite Hx in Hy.
  inversion Hy. now left.
Qed.

Lemma adj_insert (q : TaskQueue) (w : World) (s' : State) (i : nat) (it it' : QueueItem) :
  _items q !! i = Some it ->
  _items (fst s') = <[ i := it' ]> (_items q) ->
  allowed (status it) (status it') ->
  _completed q <= _completed (fst s') ->
  adj (q, w) s'.
Proof.
  intros Hi Hit Ha Hc. split; [|split]; cbn [fst]; auto.
  - rewrite Hit. apply length_insert.
  - intros j x y Hx Hy. rewrite Hit in Hy.
    destruct (decide (i = j)) as [->|Hne].
    + rewrite list_lookup_insert_eq in Hy by (eapply lookup_lt_Some; eauto).
      rewrite Hi in Hx. inversion Hx; inversion Hy; subst. exact Ha.
    + rewrite list_lookup_insert_ne in Hy by auto.
      rewrite Hx in Hy. inversion Hy. now left.
Qed.

Lemma step_adj c s : adj s (fst (step c s)).
Proof.
  destruct c as [now|tid out t1 t2]; simpl.
  - destruct (next_task now s) as [s' [v|]] eqn:E; simpl.
    + destruct s as [q w].
      apply next_task_Some in E as (i & it & Hi & Hs & _ & _ & Hit & Hcc & _).
      eapply adj_insert; eauto; [|lia].
      rewrite Hs. right; left. split; reflexivity.
    + apply next_task_None in E as [-> _]. apply adj_refl.
  - destruct (submit_answer tid out t1 t2 s) as [s' [ack|e]] eqn:E; simpl.
    + destruct s as [q w].
      apply submit_answer_Return in E as (it & rec & _ & Hi & Hs & Hit & Hcc).
      eapply adj_insert; eauto; [|lia].
      rewrite Hs. right; right. split; reflexivity.
    + apply submit_answer_Raise in E as ->. apply adj_refl.
Qed.

Lemma adj_mono s s' : adj s s' -> mono s s'.
Proof.
  intros (Hl & Hst & Hc). repeat split; auto.
  intros i x y Hx Hy. apply allowed_rank. eauto.
Qed.

Lemma mono_refl s : mono s s.
Proof. apply adj_mono, adj_refl. Qed.

Lemma mono_trans a b c : mono a b -> mono b c -> mono a c.
Proof.
  intros (Hl1 & Hs1 & Hc1) (Hl2 & Hs2 & Hc2). split; [|split]; try lia.
  intros i x z Hx Hz.
  destruct (lookup_lt_is_Some_2 (_items (fst b)) i) as [y Hy].
  { rewrite Hl1. eapply lookup_lt_Some; eauto. }
  specialize (Hs1 _ _ _ Hx Hy). specialize (Hs2 _ _ _ Hy Hz). lia.
Qed.

Lemma run_adjacent cs :
  forall (s : State) (k : nat) (a b : State),
    fst (run cs s) !! k = Some a -> fst (run cs s) !! S k = Some b ->
    exists c, b = fst (step c a).
Proof.
  induction cs as [|c cs IH]; intros s k a b Ha Hb.
  - simpl in Hb. destruct k; discriminate.
  - rewrite run_cons in Ha, Hb. cbn [fst] in Ha, Hb.
    destruct k as [|k]; simpl in Ha, Hb.
    + inversion Ha; subst. destruct (run_head cs (fst (step c a))) as [ss E].
      rewrite E in Hb. simpl in Hb. inversion Hb. eauto.
    + eapply IH; eauto.
Qed.

Lemma run_mono cs :
  forall (s : State) (k k' : nat) (a b : State),
    (k <= k')%nat ->
    fst (run cs s) !! k = Some a -> fst (run cs s) !! k' = Some b ->
    mono a b.
Proof.
  induction cs as [|c cs IH]; intros s k k' a b Hk Ha Hb.
  - simpl in Ha, Hb. destruct k, k'; try discriminate.
    inversion Ha; inversion Hb; subst. apply mono_refl.
  - rewrite run_cons in Ha, Hb. cbn [fst] in Ha, Hb.
    destruct k as [|k], k' as [|k']; simpl in Ha, Hb; try lia.
    + inversion Ha; inversion Hb; subst. apply mono_refl.
    + inversion Ha; subst.
      apply (mono_trans _ (fst (step c a))); [apply adj_mono, step_adj|].
      destruct (run_head cs (fst (step c a))) as [ss E].
      apply (IH (fst (step c a)) 0%nat k'); [lia| |exact Hb].
      rewrite E. reflexivity.
    + apply (IH (fst (step c s)) k k'); auto. lia.
Qed.

(** Item [i] enters the status in progress at call [k] of a run. *)
Definition enters (tr : list State) (i k : nat) : Prop :=
  exists (a b : State) (x y : QueueItem),
    tr !! k = Some a /\ tr !! S k = Some b /\
    _items (fst a) !! i = Some x /\ _items (fst b) !! i = Some y /\
    status x <> in_progress /\ status y = in_progress.

Lemma enters_order cs s i k1 k2 :
  enters (fst (run cs s)) i k1 -> enters (fst (run cs s)) i k2 ->
  (k1 < k2)%nat -> False.
Proof.
  intros (a1 & b1 & x1 & y1 & Ha1 & Hb1 & Hx1 & Hy1 & Hn1 & He1)
         (a2 & b2 & x2 & y2 & Ha2 & Hb2 & Hx2 & Hy2 & Hn2 & He2) Hlt.
  assert (S k1 <= k2)%nat as Hle by lia.
  destruct (run_mono cs s (S k1) k2 b1 a2 Hle Hb1 Ha2) as (_ & H12 & _).
  assert (k2 <= S k2)%nat as Hle2 by lia.
  destruct (run_mono cs s k2 (S k2) a2 b2 Hle2 Ha2 Hb2) as (_ & H22 & _).
  specialize (H12 _ _ _ Hy1 Hx2). specialize (H22 _ _ _ Hx2 Hy2).
  rewrite He1 in H12. rewrite He2 in H22.
  destruct (status x2); simpl in *; try lia. congruence.
Qed.

(** C4.  Along every run of [next_task] and [submit_answer] calls on a
    queue built by the constructor: one call leaves an item's status as it
    is or moves it from pending to in progress or from in progress to
    completed; between an earlier and a later state no status goes
    backward; an item enters in progress at one call at most; the
    completed counter never goes down, and it stays between zero and the
    number of items, which never changes. *)
Theorem status_only_moves_forward
    (specs : list TaskSpec) (dir : Path) (g : option Grader) (log : bool)
    (w : World) (cs : list call) :
  let tr := fst (run cs (init specs dir g log w)) in
  (forall (k i : nat) (a b : State) (x y : QueueItem),
      tr !! k = Some a -> tr !! S k = Some b ->
      _items (fst a) !! i = Some x -> _items (fst b) !! i = Some y ->
      allowed (status x) (status y)) /\
  (forall (k k' i : nat) (a b : State) (x y : QueueItem),
      (k <= k')%nat -> tr !! k = Some a -> tr !! k' = Some b ->
      _items (fst a) !! i = Some x -> _items (fst b) !! i = Some y ->
      (rank (status x) <= rank (status y))%nat) /\
  (forall i k1 k2 : nat, enters tr i k1 -> enters tr i k2 -> k1 = k2) /\
  (forall (k k' : nat) (a b : State),
      (k <= k')%nat -> tr !! k = Some a -> tr !! k' = Some b ->
      _completed (fst a) <= _completed (fst b)) /\
  (forall (k : nat) (a : State),
      tr !! k = Some a ->
      length (_items (fst a)) = length specs /\
      0 <= _completed (fst a) <= Z.of_nat (length specs)).
Proof.
  intros tr. subst tr. set (s0 := init specs dir g log w).
  repeat split.
  - intros k i a b x y Ha Hb Hx Hy.
    destruct (run_adjacent cs s0 k a b Ha Hb) as [c ->].
    destruct (step_adj c a) as (_ & H & _). eauto.
  - intros k k' i a b x y Hk Ha Hb Hx Hy.
    destruct (run_mono cs s0 k k' a b Hk Ha Hb) as (_ & H & _). eauto.
  - intros i k1 k2 H1 H2.
    destruct (Nat.lt_trichotomy k1 k2) as [Hlt|[Heq|Hgt]]; auto; exfalso.
    + eapply enters_order; [exact H1|exact H2|exact Hlt].
    + eapply enters_order; [exact H2|exact H1|exact Hgt].
  - intros k k' a b Hk Ha Hb.
    destruct (run_mono cs s0 k k' a b Hk Ha Hb) as (_ & _ & H). exact H.
  - destruct (run_head cs s0) as [ss E].
    assert (fst (run cs s0) !! 0%nat = Some s0) as H0 by (rewrite E; reflexivity).
    destruct (run_mono cs s0 0%nat k s0 a (Nat.le_0_l k) H0 H) as (Hl & _ & _).
    rewrite Hl. subst s0. simpl. apply length_imap.
  - pose proof (run_Inv cs s0 (init_Inv specs dir g log w)) as HI.
    rewrite Forall_lookup in HI. destruct (HI _ _ H) as [_ Hc].
    rewrite Hc. lia.
  - pose proof (run_Inv cs s0 (init_Inv specs dir g log w)) as HI.
    rewrite Forall_lookup in HI. destruct (HI _ _ H) as [_ Hc].
    rewrite Hc. pose proof (count_completed_le (_items (fst a))) as Hle.
    destruct (run_head cs s0) as [ss E].
    assert (fst (run cs s0) !! 0%nat = Some s0) as H0 by (rewrite E; reflexivity).
    destruct (run_mono cs s0 0%nat k s0 a (Nat.le_0_l k) H0 H) as (Hl & _ & _).
    rewrite Hl in Hle. subst s0. simpl in Hle. rewrite length_imap in Hle. lia.
Qed.

End QueueProgress.

Module QueueViews.

Import Tasks Queue QueueFacts QueueInv QueueSubmit QueueProgress.

(** Two task specs that differ in their answer path at most. *)
Definition same_but_answer (a b : TaskSpec) : Prop :=
  Tasks.id a = Tasks.id b /\ instruction a = instruction b /\
  input_path a = input_path b /\ meta a = meta b.

Definition agree (x y : QueueItem) : Prop :=
  id x = id y /\ status x = status y /\ same_but_answer (spec x) (spec y).

(** The replies of a run to its [next_task] calls. *)
Definition leases (rs : list reply) : list (option pydict) :=
  flat_map (fun r => match r with Leased v => [v] | Submitted _ => [] end) rs.

Lemma lease_view_agree x y : agree x y -> lease_view x = lease_view y.
Proof.
  intros (Hid & _ & Hi & Hins & Hin & Hm). unfold lease_view.
  rewrite Hid, Hi, Hins, Hin, Hm. reflexivity.
Qed.

Lemma lease_first_agree now l1 l2 :
  Forall2 agree l1 l2 ->
  match lease_first now l1, lease_first now l2 with
  | Some (l1', x1), Some (l2', x2) => Forall2 agree l1' l2' /\ agree x1 x2
  | None, None => True
  | _, _ => False
  end.
Proof.
  induction 1 as [|x y l1 l2 Hxy Hl IH]; simpl; auto.
  destruct Hxy as (Hid & Hst & Hsp).
  destruct (decide (status x = pending)) as [Hx|Hx];
    destruct (decide (status y = pending)) as [Hy|Hy]; try congruence.
  - assert (agree (mkQueueItem (id x) (spec x) in_progress (Some now) (finished_at x) (result x))
                  (mkQueueItem (id y) (spec y) in_progress (Some now) (finished_at y) (result y)))
      as Ha by (repeat split; simpl; auto; apply Hsp).
    split; [constructor|]; auto.
  - destruct (lease_first now l1) as [[l1' x1]|], (lease_first now l2) as [[l2' x2]|]; auto.
    destruct IH as [IH1 IH2]. split; auto. constructor; auto. repeat split; auto; apply Hsp.
Qed.

Lemma next_task_agree now s1 s2 :
  Forall2 agree (_items (fst s1)) (_items (fst s2)) ->
  snd (next_task now s1) = snd (next_task now s2) /\
  Forall2 agree (_items (fst (fst (next_task now s1))))
                (_items (fst (fst (next_task now s2)))).
Proof.
  intros H. destruct s1 as [q1 w1], s2 as [q2 w2]. cbn [fst] in H.
  pose proof (lease_first_agree now _ _ H) as X. unfold next_task.
  destruct (lease_first now (_items q1)) as [[l1' x1]|],
           (lease_first now (_items q2)) as [[l2' x2]|]; try contradiction.
  - destruct X as [X1 X2]. cbn [fst snd _items]. split; auto.
    f_equal. now apply lease_view_agree.
  - cbn [fst snd]. split; auto.
Qed.

Lemma submit_answer_agree tid out t1 t2 s1 s2 :
  Forall2 agree (_items (fst s1)) (_items (fst s2)) ->
  Forall2 agree (_items (fst (fst (submit_answer tid out t1 t2 s1))))
                (_items (fst (fst (submit_answer tid out t1 t2 s2)))).
Proof.
  intros H. destruct s1 as [q1 w1], s2 as [q2 w2]. cbn [fst] in H.
  assert (forall qa wa qb (wb : World) sa ack,
             Forall2 agree (_items qa) (_items qb) ->
             submit_answer tid out t1 t2 (qa, wa) = (sa, inl ack) ->
             exists ita itb,
               0 <= tid /\ _items qa !! Z.to_nat tid = Some ita /\
               _items qb !! Z.to_nat tid = Some itb /\
               status ita = in_progress /\ status itb = in_progress /\
               agree ita itb) as Hret.
  { intros qa wa qb wb sa ack Hab E.
    apply submit_answer_Return in E as (ita & rec & Hr & Hi & Hs & _).
    destruct (Forall2_lookup_l _ _ _ _ _ Hab Hi) as (itb & Hj & Hag).
    exists ita, itb. repeat split; auto; try lia; try apply Hag.
    destruct Hag as (_ & <- & _). exact Hs. }
  assert (forall x y, agree x y -> agree y x) as Hsym.
  { intros x y (A & B & C & D & E & F). repeat split; auto. }
  assert (Forall2 agree (_items q2) (_items q1)) as H'.
  { apply Forall2_flip. eapply Forall2_impl; [exact H|]. intros x y. apply Hsym. }
  destruct (submit_answer tid out t1 t2 (q1, w1)) as [s1' [a1|e1]] eqn:E1.
  - destruct (Hret _ _ q2 w2 _ _ H E1) as (ita & itb & H0 & Hi & Hj & Hsa & Hsb & Hag).
    rewrite (submit_answer_in_progress _ _ _ _ _ _ _ H0 Hi Hsa) in E1.
    rewrite (submit_answer_in_progress _ _ _ _ _ _ _ H0 Hj Hsb).
    cbv zeta in *. inversion E1; subst; clear E1. cbn [fst _items].
    apply Forall2_insert; auto. repeat split; simpl; try apply Hag.
  - pose proof E1 as E1'. apply submit_answer_Raise in E1 as ->.
    destruct (submit_answer tid out t1 t2 (q2, w2)) as [s2' [a2|e2]] eqn:E2.
    + destruct (Hret _ _ q1 w1 _ _ H' E2) as (itb & ita & H0 & Hj & Hi & Hsb & Hsa & _).
      rewrite (submit_answer_in_progress _ _ _ _ _ _ _ H0 Hi Hsa) in E1'.
      cbv zeta in E1'. inversion E1'.
    + apply submit_answer_Raise in E2 as ->. exact H.
Qed.

Lemma run_leases_agree cs :
  forall s1 s2 : State,
    Forall2 agree (_items (fst s1)) (_items (fst s2)) ->
    leases (snd (run cs s1)) = leases (snd (run cs s2)).
Proof.
  induction cs as [|c cs IH]; intros s1 s2 H; [reflexivity|].
  rewrite !run_cons. cbn [snd leases flat_map].
  destruct c as [now|tid out t1 t2]; cbn [step].
  - destruct (next_task_agree now s1 s2 H) as [Hv Hi].
    destruct (next_task now s1) as [s1' v1], (next_task now s2) as [s2' v2].
    cbn [fst snd] in *. subst v2. f_equal. now apply IH.
  - pose proof (submit_answer_agree tid out t1 t2 s1 s2 H) as Hi.
    destruct (submit_answer tid out t1 t2 s1) as [s1' r1],
             (submit_answer tid out t1 t2 s2) as [s2' r2].
    cbn [fst snd] in *. now apply IH.
Qed.

Lemma init_agree specs1 specs2 d1 d2 g1 g2 l1 l2 w1 w2 :
  Forall2 same_but_answer specs1 specs2 ->
  Forall2 agree (_items (fst (init specs1 d1 g1 l1 w1)))
                (_items (fst (init specs2 d2 g2 l2 w2))).
Proof.
  intros H. simpl. apply Forall2_same_length_lookup. split.
  - rewrite !length_imap. eapply Forall2_length; eauto.
  - intros i x y Hx Hy. rewrite list_lookup_imap in Hx, Hy.
    destruct (specs1 !! i) as [a|] eqn:Ea; [|discriminate].
    destruct (specs2 !! i) as [b|] eqn:Eb; [|discriminate].
    simpl in Hx, Hy. inversion Hx; inversion Hy; subst.
    repeat split; simpl; eapply Forall2_lookup_lr in H; eauto; apply H.
Qed.

(** The view of the task with index [i] and spec [sp]. *)
Definition view_of (i : nat) (sp : TaskSpec) : pydict :=
  [ ("task_id", PInt (Z.of_nat i));
    ("id", PStr (Tasks.id sp));
    ("instruction", instruction sp);
    ("input", match input_path sp with
              | Some p => PStr (to_string p)
              | None => PNone
              end);
    ("meta", PDict (meta sp)) ].

Lemma step_specs c s :
  map spec (_items (fst (fst (step c s)))) = map spec (_items (fst s)).
Proof.
  assert (forall (l : list QueueItem) i it it',
             l !! i = Some it -> spec it' = spec it ->
             map spec (<[ i := it' ]> l) = map spec l) as Hins.
  { intros l i it it' Hl He. rewrite list_fmap_insert, He.
    apply list_insert_id. rewrite list_lookup_fmap, Hl. reflexivity. }
  destruct c as [now|tid out t1 t2]; simpl.
  - destruct (next_task now s) as [s' [v|]] eqn:E; simpl.
    + destruct s as [q w].
      apply next_task_Some in E as (i & it & Hi & _ & _ & _ & Hit & _).
      rewrite Hit. eapply Hins; eauto.
    + apply next_task_None in E as [-> _]. reflexivity.
  - destruct (submit_answer tid out t1 t2 s) as [s' [ack|e]] eqn:E; simpl.
    + destruct s as [q w].
      apply submit_answer_Return in E as (it & rec & _ & Hi & _ & Hit & _).
      rewrite Hit. eapply Hins; eauto.
    + apply submit_answer_Raise in E as ->. reflexivity.
Qed.

Lemma run_views specs cs :
  forall s : State,
    Inv s -> map spec (_items (fst s)) = specs ->
    forall view, Some view ∈ leases (snd (run cs s)) ->
    exists (i : nat) (sp : TaskSpec), specs !! i = Some sp /\ view = view_of i sp.
Proof.
  induction cs as [|c cs IH]; intros s HI Hsp view Hin.
  - simpl in Hin. inversion Hin.
  - rewrite run_cons in Hin. cbn [snd leases flat_map] in Hin.
    pose proof (step_Inv c s HI) as HI'.
    pose proof (step_specs c s) as Hsp'. rewrite Hsp in Hsp'.
    apply elem_of_app in Hin as [Hin|Hin]; [|eapply IH; eauto].
    destruct c as [now|tid out t1 t2]; cbn [step] in Hin.
    + destruct (next_task now s) as [s' v] eqn:E. cbn [snd] in Hin.
      apply list_elem_of_singleton in Hin. subst v. destruct s as [q w].
      apply next_task_Some in E as (i & it & Hi & _ & _ & -> & _).
      exists i, (spec it). split.
      * rewrite <- Hsp. cbn [fst]. rewrite list_lookup_fmap, Hi. reflexivity.
      * destruct HI as [Hid _]. cbn [fst] in Hid.
        unfold lease_view, view_of. simpl. rewrite (Hid _ _ Hi). reflexivity.
    + destruct (submit_answer tid out t1 t2 s) as [s' r]. inversion Hin.
Qed.

(** C5.  Build two queues from task specs that are pairwise the same but
    for their answer paths (directories, graders, logging and worlds may
    differ too) and make the same calls on both: the replies to the
    [next_task] calls are the same, one by one.  Each view handed out has
    exactly the five entries task id, spec id, instruction, input and
    metadata, filled from the task's index and spec; the answer path is
    not among them. *)
Theorem lease_view_hides_answer
    (specs1 specs2 : list TaskSpec) (d1 d2 : Path) (g1 g2 : option Grader)
    (l1 l2 : bool) (w1 w2 : World) (cs : list call) :
  Forall2 same_but_answer specs1 specs2 ->
  leases (snd (run cs (init specs1 d1 g1 l1 w1))) =
  leases (snd (run cs (init specs2 d2 g2 l2 w2))) /\
  (forall view : pydict,
      Some view ∈ leases (snd (run cs (init specs1 d1 g1 l1 w1))) ->
      exists (i : nat) (sp : TaskSpec),
        specs1 !! i = Some sp /\
        view = [ ("task_id", PInt (Z.of_nat i));
                 ("id", PStr (Tasks.id sp));
                 ("instruction", instruction sp);
                 ("input", match input_path sp with
                           | Some p => PStr (to_string p)
                           | None => PNone
                           end);
                 ("meta", PDict (meta sp)) ]).
Proof.
  intros H. split.
  - apply run_leases_agree, init_agree, H.
  - intros view Hin.
    apply (run_views specs1 cs (init specs1 d1 g1 l1 w1)); auto.
    + apply init_Inv.
    + simpl. apply list_eq. intros i.
      rewrite list_lookup_fmap, list_lookup_imap.
      destruct (specs1 !! i); reflexivity.
Qed.

End QueueViews.

(** ** Properties of the manifest parser *)

Module TasksFacts.

Import Tasks.

(** An entry [_maybe_rel] accepts: missing, empty, or a string. *)
Definition path_ok (v : pyval) : Prop :=
  truthy v = false \/ exists s, v = PStr s.

(** A record the loop of [_parse_tasks] gets through: an object whose
    ["input"] and ["answer"] entries are acceptable. *)
Definition record_ok (t : pyval) : Prop :=
  exists d, t = PDict d /\ path_ok (dict_get d "input") /\ path_ok (dict_get d "answer").

(** The id the parser gives to record [d] at position [n], counted from 0. *)
Definition task_id_of (repr_other : pyval -> string) (n : nat) (d : pydict) : string :=
  if truthy (dict_get d "id") then py_str repr_other (dict_get d "id")
  else if truthy (dict_get d "name") then py_str repr_other (dict_get d "name")
  else "task-" +:+ str_of_nat (n + 1).

(** The records of a manifest: the manifest itself when it is a list, its
    ["tasks"] entry when it is an object that holds a list there. *)
Definition records_of (obj : pyval) (raw : list pyval) : Prop :=
  obj = PList raw \/ exists d, obj = PDict d /\ dict_get d "tasks" = PList raw.

Section ParseFacts.

Variable repr_other : pyval -> string.
Variable cwd : list string.

Lemma parse_tasks_records obj raw root :
  records_of obj raw ->
  _parse_tasks repr_other cwd obj root = parse_loop repr_other cwd root raw [].
Proof. intros [->|(d & -> & Hd)]; cbn [_parse_tasks]; [reflexivity|now rewrite Hd]. Qed.

Lemma dict_get_absent d k : dict_has d k = false -> dict_get d k = PNone.
Proof.
  induction d as [|[k' v] d IH]; simpl; auto.
  destruct (String.eqb k' k); [discriminate|auto].
Qed.

Lemma maybe_rel_ok root v :
  path_ok v -> exists o, _maybe_rel cwd root v = Return o /\ (truthy v = false -> o = None).
Proof.
  unfold _maybe_rel. intros [H|[s ->]].
  - rewrite H. simpl. eauto.
  - destruct (truthy (PStr s)) eqn:E; simpl; eexists; split; try reflexivity;
      discriminate.
Qed.

Lemma parse_record_ok root d out :
  path_ok (dict_get d "input") -> path_ok (dict_get d "answer") ->
  exists sp,
    parse_record repr_other cwd root (PDict d) out = Return sp /\
    Tasks.id sp = task_id_of repr_other (length out) d /\
    instruction sp =
      (if truthy (dict_get d "instruction") then dict_get d "instruction"
       else PStr ("Run benchmark task '" +:+ Tasks.id sp +:+ "'.")) /\
    (truthy (dict_get d "input") = false -> input_path sp = None) /\
    (truthy (dict_get d "answer") = false -> answer_path sp = None) /\
    meta sp = filter (fun kv => reserved_key (fst kv) = false) d.
Proof.
  intros Hi Ha. unfold parse_record.
  destruct (maybe_rel_ok root _ Hi) as (oi & -> & Hoi).
  destruct (maybe_rel_ok root _ Ha) as (oa & -> & Hoa).
  simpl. eexists. split; [reflexivity|]. simpl.
  repeat split; auto.
  unfold task_id_of, py_or.
  destruct (truthy (dict_get d "id")); [reflexivity|].
  destruct (truthy (dict_get d "name")); reflexivity.
Qed.

Lemma parse_loop_ok root raw :
  Forall record_ok raw ->
  forall out, exists new,
    parse_loop repr_other cwd root raw out = Return (out ++ new) /\
    length new = length raw /\
    forall (n : nat) (d : pydict) (sp : TaskSpec),
      raw !! n = Some (PDict d) -> new !! n = Some sp ->
      exists prev, length prev = (length out + n)%nat /\
                   parse_record repr_other cwd root (PDict d) prev = Return sp.
Proof.
  induction 1 as [|t raw (d & -> & Hi & Ha) Hraw IH]; intros out.
  - exists []. simpl. rewrite app_nil_r. repeat split; auto.
    intros n d sp H. destruct n; discriminate.
  - destruct (parse_record_ok root d out Hi Ha) as (sp & Hsp & _).
    destruct (IH (out ++ [sp])) as (new & Hnew & Hlen & Hrec).
    exists (sp :: new). cbn [parse_loop]. rewrite Hsp. unfold rbind at 1, Return at 1. cbv iota beta.
    rewrite Hnew, <- app_assoc. repeat split; simpl; auto.
    intros [|n] d' sp' Hr Hs; simpl in Hr, Hs.
    + inversion Hr; inversion Hs; subst. exists out. split; [lia|auto].
    + destruct (Hrec n d' sp' Hr Hs) as (prev & Hp & Hq).
      exists prev. split; auto. rewrite Hp, length_app. simpl. lia.
Qed.

Lemma parse_loop_app root (a b : list pyval) :
  forall out,
    parse_loop repr_other cwd root (a ++ b) out
    = let? out' := parse_loop repr_other cwd root a out in
      parse_loop repr_other cwd root b out'.
Proof.
  induction a as [|t a IH]; intros out; [reflexivity|].
  cbn [app parse_loop]. destruct (parse_record repr_other cwd root t out) as [sp|e];
    cbn [rbind]; [apply IH|reflexivity].
Qed.

Lemma maybe_rel_bad root v :
  ¬ path_ok v -> _maybe_rel cwd root v = Raise (TypeError "").
Proof.
  intros H. unfold _maybe_rel. destruct (truthy v) eqn:E.
  - cbn [negb]. destruct v; try reflexivity. exfalso. apply H. right. eauto.
  - exfalso. apply H. now left.
Qed.

Lemma path_ok_dec v : {path_ok v} + {¬ path_ok v}.
Proof.
  unfold path_ok. destruct (truthy v) eqn:E; [|left; now left].
  destruct v; try (right; intros [H|[s H]]; discriminate).
  left. right. eauto.
Qed.

Lemma parse_record_bad root t out :
  ¬ record_ok t ->
  parse_record repr_other cwd root t out
  = Raise (match t with
           | PDict _ => TypeError ""
           | _ => AttributeError ("'" +:+ type_name t +:+ "' object has no attribute 'get'")
           end).
Proof.
  intros H. destruct t as [|b|z|m e|x|l|d]; try reflexivity.
  cbn [parse_record]. cbv zeta.
  destruct (path_ok_dec (dict_get d "input")) as [Hi|Hi].
  - destruct (path_ok_dec (dict_get d "answer")) as [Ha|Ha].
    + exfalso. apply H. exists d. auto.
    + destruct (maybe_rel_ok root _ Hi) as (o & -> & _).
      rewrite (maybe_rel_bad root _ Ha). reflexivity.
  - rewrite (maybe_rel_bad root _ Hi). reflexivity.
Qed.

Lemma record_ok_dec t : {record_ok t} + {¬ record_ok t}.
Proof.
  destruct t as [|b|z|m e|x|l|d]; try (right; intros (d' & H & _); discriminate).
  destruct (path_ok_dec (dict_get d "input")) as [Hi|Hi];
    [destruct (path_ok_dec (dict_get d "answer")) as [Ha|Ha]|].
  - left. exists d. auto.
  - right. intros (d' & H & _ & Ha'). inversion H; subst. contradiction.
  - right. intros (d' & H & Hi' & _). inversion H; subst. contradiction.
Qed.

(** The loop gets through good records only. *)
Lemma parse_loop_returns root raw :
  forall out specs,
    parse_loop repr_other cwd root raw out = Return specs -> Forall record_ok raw.
Proof.
  induction raw as [|t raw IH]; intros out specs H; [constructor|].
  cbn [parse_loop] in H.
  destruct (record_ok_dec t) as [Hok|Hbad].
  - constructor; [exact Hok|].
    destruct (parse_record repr_other cwd root t out) as [sp|e]; [|discriminate H].
    exact (IH _ _ H).
  - rewrite (parse_record_bad root t out Hbad) in H. discriminate H.
Qed.

End ParseFacts.


End TasksFacts.

(** ** Where a library call changes the file system *)

Module FSFacts.

Import FS.

Lemma remove_under_lookup (a k : list string) (m : files_t) :
  ¬ a `prefix_of` k -> remove_under a m !! k = m !! k.
Proof.
  intros H. unfold remove_under. rewrite map_lookup_filter.
  destruct (m !! k) as [x|]; simpl; auto.
  rewrite option_guard_True; auto.
Qed.

Lemma graft_lookup (b k : list string) (entries : list (list string * node)) (m : files_t) :
  ¬ b `prefix_of` k -> graft b entries m !! k = m !! k.
Proof.
  intros H. induction entries as [|e es IH]; simpl; auto.
  rewrite lookup_insert_ne; auto.
  intros <-. apply H. now apply prefix_app_r.
Qed.

Lemma prefixes_prefix (k a : list string) : a ∈ prefixes k -> a `prefix_of` k.
Proof.
  unfold prefixes. intros H. apply list_elem_of_fmap in H as (n & -> & _).
  apply prefix_take.
Qed.

Lemma insert_dirs_lookup (l : list (list string)) (k : list string) (m : files_t) :
  k ∉ l -> foldr (fun a acc => <[ a := Dir ]> acc) m l !! k = m !! k.
Proof.
  induction l as [|a l IH]; simpl; auto. intros H.
  apply not_elem_of_cons in H as [H1 H2].
  rewrite lookup_insert_ne; auto.
Qed.

Lemma makedirs_lookup m a ok k :
  ¬ k `prefix_of` a -> snd (makedirs m a ok) !! k = m !! k.
Proof.
  intros H. unfold makedirs.
  destruct (node_at m a) as [[c|]|]; simpl; auto.
  destruct (blocked m a); simpl; auto.
  apply insert_dirs_lookup. intros Hin. apply H. now apply prefixes_prefix.
Qed.

Lemma unlink_lookup m a ok k :
  ¬ a `prefix_of` k -> snd (unlink m a ok) !! k = m !! k.
Proof.
  intros H. unfold unlink. destruct (node_at m a) as [[c|]|]; simpl; auto.
  apply lookup_delete_ne. intros ->. now apply H.
Qed.

Lemma rmdir_lookup m a k :
  ¬ a `prefix_of` k -> snd (rmdir m a) !! k = m !! k.
Proof.
  intros H. unfold rmdir. destruct a as [|x a]; simpl; auto.
  destruct (m !! (x :: a)) as [[c|]|]; simpl; auto.
  destruct (has_children (x :: a) m); simpl; auto.
  apply lookup_delete_ne. intros <-. now apply H.
Qed.

Lemma rmtree_lookup m a ok k :
  ¬ a `prefix_of` k -> snd (rmtree m a ok) !! k = m !! k.
Proof.
  intros H. unfold rmtree. destruct (node_at m a) as [[c|]|]; simpl; auto.
  now apply remove_under_lookup.
Qed.

Lemma rename_lookup m a b k :
  ¬ a `prefix_of` k -> ¬ b `prefix_of` k -> snd (rename m a b) !! k = m !! k.
Proof.
  intros Ha Hb. unfold rename.
  assert (graft b (subtree a m) (remove_under b (remove_under a m)) !! k = m !! k) as E.
  { rewrite graft_lookup, !remove_under_lookup; auto. }
  destruct (node_at m a) as [na|]; simpl; auto.
  destruct (decide (a = b)); simpl; auto.
  destruct (decide (a `prefix_of` b)); simpl; auto.
  destruct (negb (is_dir m (removelast b))); simpl; auto.
  destruct na as [c|], (node_at m b) as [[c'|]|]; simpl; auto.
  destruct (has_children b m); simpl; auto.
Qed.

Lemma copytree_lookup m a b ok k :
  ¬ b `prefix_of` k -> ¬ k `prefix_of` b -> snd (copytree m a b ok) !! k = m !! k.
Proof.
  intros Hb Hk. unfold copytree.
  destruct (node_at m a) as [[c|]|]; simpl; auto.
  pose proof (makedirs_lookup m b ok k Hk) as E.
  destruct (makedirs m b ok) as [[u|e] m1]; simpl in *; auto.
  destruct (clashes m1 b _); simpl; auto.
  rewrite graft_lookup; auto.
Qed.

Lemma copy2_lookup m a b k :
  ¬ b `prefix_of` k -> snd (copy2 m a b) !! k = m !! k.
Proof.
  intros Hb. unfold copy2.
  destruct (node_at m a) as [[c|]|]; simpl; auto.
  set (real := if is_dir m b then b ++ [List.last a ""] else b).
  assert (b `prefix_of` real) as Hr.
  { subst real. destruct (is_dir m b); [now apply prefix_app_r|reflexivity]. }
  destruct (negb (is_dir m (removelast real))); simpl; auto.
  destruct (is_dir m real); simpl; auto.
  apply lookup_insert_ne. intros <-. now apply Hb.
Qed.

Lemma move_lookup m a b k :
  ¬ a `prefix_of` k -> ¬ b `prefix_of` k -> ¬ k `prefix_of` b ->
  snd (move m a b) !! k = m !! k.
Proof.
  intros Ha Hb Hk. unfold move.
  destruct (is_dir m b && bool_decide (a = b)); simpl; auto.
  set (real := if is_dir m b then b ++ [List.last a ""] else b).
  assert (b `prefix_of` real) as Hr.
  { subst real. destruct (is_dir m b); [now apply prefix_app_r|reflexivity]. }
  assert (¬ real `prefix_of` k) as Hrk.
  { intros H. apply Hb. etransitivity; eauto. }
  assert (¬ k `prefix_of` real) as Hkr.
  { intros H. subst real. destruct (is_dir m b); [|exact (Hk H)].
    destruct (prefix_weak_total _ _ _ H (prefix_app_r b b [List.last a ""] (reflexivity b)))
      as [X|X]; [exact (Hk X)|exact (Hb X)]. }
  destruct (is_dir m b && exists_ m real); simpl; auto.
  pose proof (rename_lookup m a real k Ha Hrk) as E1.
  destruct (rename m a real) as [[u|e] m1]; simpl in *; auto.
  destruct (is_dir m a).
  - destruct (bool_decide (a `prefix_of` real)); simpl; auto.
    pose proof (copytree_lookup m a real false k Hrk Hkr) as E2.
    destruct (copytree m a real false) as [[u|e'] m2]; simpl in *; auto.
    rewrite rmtree_lookup; auto.
  - pose proof (copy2_lookup m a real k Hrk) as E2.
    destruct (copy2 m a real) as [[u|e'] m2]; simpl in *; auto.
    rewrite unlink_lookup; auto.
Qed.

Lemma extract_member_lookup m t d data k :
  ¬ t `prefix_of` k -> ¬ k `prefix_of` t ->
  snd (extract_member m t d data) !! k = m !! k.
Proof.
  intros Ht Hk. unfold extract_member. destruct d.
  - now apply makedirs_lookup.
  - assert (¬ k `prefix_of` removelast t) as Hk'.
    { intros H. apply Hk. etransitivity; [exact H|].
      destruct (decide (t = [])) as [->|Hne]; [reflexivity|].
      exists [List.last t ""]. now apply app_removelast_last. }
    pose proof (makedirs_lookup m (removelast t) true k Hk') as E.
    destruct (makedirs m (removelast t) true) as [[u|e] m1]; simpl in *; auto.
    destruct (is_dir m1 t); simpl; auto.
    rewrite lookup_insert_ne; auto. intros <-. now apply Ht.
Qed.

Lemma extract_members_lookup ts :
  forall m k,
    (forall t, t ∈ ts -> ¬ fst (fst t) `prefix_of` k /\ ¬ k `prefix_of` fst (fst t)) ->
    snd (extract_members m ts) !! k = m !! k.
Proof.
  induction ts as [|[[t d] data] ts IH]; intros m k H; simpl; auto.
  destruct (H (t, d, data)) as [H1 H2]; [left|]. simpl in *.
  pose proof (extract_member_lookup m t d data k H1 H2) as E.
  destruct (extract_member m t d data) as [[u|e] m1]; simpl in *; auto.
  rewrite IH; auto. intros t' Hin. apply H. now right.
Qed.

End FSFacts.

(** ** Runs of programs *)

Module SysFacts.

Import FS Sys FSFacts.

(** Some target of a call reaches the entry [k]. *)
Definition touched (ts : list target) (k : list string) : Prop :=
  exists t, t ∈ ts /\ touches t k.

Ltac untouched H :=
  let X := fresh "X" in
  intros X; apply H;
  match type of X with
  | ?a `prefix_of` ?k =>
      first [ exists (Below a); split; [set_solver|exact X]
            | exists (Above k); split; [set_solver|exact X] ]
  end.

Lemma below_app (d x k : list string) :
  ¬ d `prefix_of` k -> ¬ (d ++ x) `prefix_of` k.
Proof. intros H X. apply H. eapply prefix_app_l. exact X. Qed.

Lemma above_app (d x k : list string) :
  ¬ d `prefix_of` k -> ¬ k `prefix_of` d -> ¬ k `prefix_of` (d ++ x).
Proof.
  intros H1 H2 X.
  destruct (prefix_weak_total _ _ _ X (prefix_app_r d d x (reflexivity d))); auto.
Qed.

(** A call changes the file system at the places it is recorded with
    only. *)
Lemma sem_files (o : op) (w : World) (k : list string) :
  ¬ touched (targets w o) k -> files (snd (sem o w)) !! k = files w !! k.
Proof.
  intros H. destruct o; cbn [sem targets snd fst files lift with_files] in *;
    try reflexivity.
  - apply makedirs_lookup. untouched H.
  - apply unlink_lookup. untouched H.
  - apply rmdir_lookup. untouched H.
  - apply rmtree_lookup. untouched H.
  - apply rename_lookup; untouched H.
  - apply move_lookup; untouched H.
  - apply copytree_lookup; untouched H.
  - apply copy2_lookup. untouched H.
  - assert (¬ key w dest `prefix_of` k) as H1 by untouched H.
    assert (¬ k `prefix_of` key w dest) as H2 by untouched H.
    apply extract_members_lookup. intros t Hin.
    unfold zip_targets in Hin. apply list_elem_of_fmap in Hin as (nd & -> & _).
    cbn [fst]. split; [now apply below_app|now apply above_app].
  - apply extract_members_lookup. intros t Hin. split; intros X; apply H.
    + exists (Below (fst (fst t))). split; [|exact X].
      apply list_elem_of_In, in_flat_map. exists t.
      split; [now apply list_elem_of_In|right; left; reflexivity].
    + exists (Above (fst (fst t))). split; [|exact X].
      apply list_elem_of_In, in_flat_map. exists t.
      split; [now apply list_elem_of_In|left; reflexivity].
  - destruct (fresh_name _ _) as [x|]; cbn [snd files with_files]; auto.
    apply lookup_insert_ne. intros <-. apply H.
    exists (Below (tempdir w ++ [x])). split; [left|]. simpl. reflexivity.
  - destruct (clone_tree _ _ _) as [entries|]; cbn [snd]; auto.
    destruct (has_children _ _ || _); cbn [snd]; auto.
    assert (¬ k `prefix_of` key w dir) as H2 by untouched H.
    assert (¬ key w dir `prefix_of` k) as H1 by untouched H.
    pose proof (makedirs_lookup (files w) (key w dir) true k H2) as E.
    destruct (makedirs (files w) (key w dir) true) as [[u|e] m1]; cbn [snd files with_files] in *; auto.
    rewrite graft_lookup; auto.
  - destruct (checkout_tree _ _ _) as [entries|]; cbn [snd files with_files]; auto.
    assert (¬ key w dir `prefix_of` k) as H1 by untouched H.
    rewrite graft_lookup, remove_under_lookup; auto.
Qed.

(** What no call changes. *)
Definition same_env (w w' : World) : Prop :=
  cwd w' = cwd w /\ tempdir w' = tempdir w /\ glob_match w' = glob_match w /\
  py_repr w' = py_repr w /\ git w' = git w.

Lemma same_env_refl w : same_env w w.
Proof. repeat split. Qed.

Lemma same_env_trans a b c : same_env a b -> same_env b c -> same_env a c.
Proof.
  intros (A1 & A2 & A3 & A4 & A5) (B1 & B2 & B3 & B4 & B5).
  repeat split; congruence.
Qed.

Definition is_mark (o : op) : bool :=
  match o with EnterStage _ => true | _ => false end.

Lemma sem_env (o : op) (w : World) :
  same_env w (snd (sem o w)) /\ log (snd (sem o w)) = log w /\
  (is_mark o = false -> stage (snd (sem o w)) = stage w) /\
  (forall s, o = EnterStage s -> stage (snd (sem o w)) = s).
Proof.
  destruct o; cbn [sem snd lift with_files is_mark];
    repeat match goal with
           | |- context [match ?x with _ => _ end] => destruct x
           end;
    cbn [snd with_files]; repeat split; try reflexivity; try discriminate;
    intros s' E; inversion E; reflexivity.
Qed.

End SysFacts.

Module RunFacts.

Import FS Sys FSFacts SysFacts.

Lemma run_bind {A B} (p : prog A) (f : A -> prog B) :
  forall w, run (bind p f) w =
            match run p w with
            | (inl a, w1) => run (f a) w1
            | (inr e, w1) => (Raise e, w1)
            end.
Proof.
  induction p as [a|e|o k IH]; intros w; simpl; auto.
  destruct (sem o (record w o)) as [r w1]. apply IH.
Qed.

Lemma run_call (o : op) (w : World) : run (call o) w = sem o (record w o).
Proof.
  unfold call. simpl. destruct (sem o (record w o)) as [[a|e] w1]; reflexivity.
Qed.

Lemma run_finally {A} (p : prog A) (c : prog unit) :
  forall w, run (finally p c) w =
            match run c (snd (run p w)) with
            | (inl _, w2) => (fst (run p w), w2)
            | (inr e, w2) => (Raise e, w2)
            end.
Proof.
  induction p as [a|e|o k IH]; intros w; simpl.
  - rewrite run_bind. destruct (run c w) as [[u|e] w2]; reflexivity.
  - rewrite run_bind. destruct (run c w) as [[u|e'] w2]; reflexivity.
  - destruct (sem o (record w o)) as [r w1]. apply IH.
Qed.

(** Every call a program can make satisfies [P]. *)
Fixpoint all_calls {A} (P : op -> Prop) (p : prog A) : Prop :=
  match p with
  | Ret _ | Throw _ => True
  | Call o k => P o /\ forall r, all_calls P (k r)
  end.

Lemma all_calls_bind {A B} (P : op -> Prop) (p : prog A) (f : A -> prog B) :
  all_calls P p -> (forall a, all_calls P (f a)) -> all_calls P (bind p f).
Proof.
  induction p as [a|e|o k IH]; simpl; auto.
  intros [Ho Hk] Hf. split; auto.
Qed.

Lemma all_calls_call (P : op -> Prop) (o : op) : P o -> all_calls P (call o).
Proof. intros H. simpl. split; auto. intros [a|e]; exact I. Qed.

Lemma all_calls_ignoring (P : op -> Prop) (o : op) :
  P o -> all_calls P (call_ignoring_OSError o).
Proof.
  intros H. simpl. split; auto. intros [a|e]; [exact I|].
  destruct (is_OSError e); exact I.
Qed.

Lemma all_calls_for_each {A} (P : op -> Prop) (xs : list A) (body : A -> prog unit) :
  (forall x, all_calls P (body x)) -> all_calls P (for_each xs body).
Proof.
  intros H. induction xs as [|x xs IH]; simpl; auto.
  apply all_calls_bind; auto.
Qed.

Lemma all_calls_finally {A} (P : op -> Prop) (p : prog A) (c : prog unit) :
  all_calls P p -> all_calls P c -> all_calls P (finally p c).
Proof.
  induction p as [a|e|o k IH]; simpl; intros Hp Hc.
  - apply all_calls_bind; [assumption|intros; exact I].
  - apply all_calls_bind; [assumption|intros; exact I].
  - destruct Hp as [Ho Hk]. split; auto.
Qed.

Lemma all_calls_impl {A} (P Q : op -> Prop) (p : prog A) :
  (forall o, P o -> Q o) -> all_calls P p -> all_calls Q p.
Proof.
  intros H. induction p as [a|e|o k IH]; simpl; auto.
  intros [Ho Hk]. split; auto.
Qed.

(** An entry of the record of a run. *)
Definition entry : Type := (Stage * op * list target)%type.
Definition e_stage (e : entry) : Stage := fst (fst e).
Definition e_op (e : entry) : op := snd (fst e).
Definition e_targets (e : entry) : list target := snd e.

Lemma record_env (w : World) (o : op) :
  same_env w (record w o) /\ files (record w o) = files w /\
  stage (record w o) = stage w /\
  log (record w o) = log w ++ [(stage w, o, targets w o)] /\
  targets (record w o) o = targets w o.
Proof. repeat split. Qed.

(** One call of a run. *)
Lemma call_effect (o : op) (w : World) :
  let w1 := snd (sem o (record w o)) in
  same_env w w1 /\
  log w1 = log w ++ [(stage w, o, targets w o)] /\
  (is_mark o = false -> stage w1 = stage w) /\
  (forall s, o = EnterStage s -> stage w1 = s) /\
  (forall k, ¬ touched (targets w o) k -> files w1 !! k = files w !! k).
Proof.
  destruct (record_env w o) as (He & Hf & Hs & Hl & Ht).
  destruct (sem_env o (record w o)) as (He' & Hl' & Hs' & Hm').
  cbv zeta. split; [exact (same_env_trans _ _ _ He He')|].
  split; [rewrite Hl'; exact Hl|].
  split; [intros H; rewrite Hs'; auto|].
  split; [exact Hm'|].
  intros k H. rewrite sem_files; [now rewrite Hf|]. now rewrite Ht.
Qed.

(** What a run whose calls all satisfy [P] leaves: the record grows by
    entries made in worlds with the same surroundings, each for a call
    satisfying [P]; the file system changes where these entries say only. *)
Lemma run_effect {A} (P : op -> Prop) (p : prog A) :
  all_calls P p ->
  forall w, exists l : list entry,
    log (snd (run p w)) = log w ++ l /\
    same_env w (snd (run p w)) /\
    (forall k, (forall e, e ∈ l -> ¬ touched (e_targets e) k) ->
               files (snd (run p w)) !! k = files w !! k) /\
    Forall (fun e => P (e_op e) /\
                     exists w1, same_env w w1 /\ e_targets e = targets w1 (e_op e)) l /\
    ((forall o, P o -> is_mark o = false) ->
     stage (snd (run p w)) = stage w /\ Forall (fun e => e_stage e = stage w) l).
Proof.
  induction p as [a|e|o k IH]; intros Hp w.
  - exists []. simpl. rewrite app_nil_r. repeat split; auto using same_env_refl.
  - exists []. simpl. rewrite app_nil_r. repeat split; auto using same_env_refl.
  - destruct Hp as [Ho Hk]. simpl.
    pose proof (call_effect o w) as (He & Hl & Hs & _ & Hf). cbv zeta in *.
    destruct (sem o (record w o)) as [r w1]. cbn [snd] in *.
    destruct (IH r (Hk r) w1) as (l & Hl1 & He1 & Hf1 & Hall & Hq).
    exists ((stage w, o, targets w o) :: l).
    split; [rewrite Hl1, Hl, <- app_assoc; reflexivity|].
    split; [exact (same_env_trans _ _ _ He He1)|].
    split; [|split].
    + intros k' H. rewrite Hf1, Hf; auto.
      * apply (H (stage w, o, targets w o)). left.
      * intros e' Hin. apply H. now right.
    + constructor.
      * split; auto. exists w. split; [apply same_env_refl|reflexivity].
      * eapply Forall_impl; [exact Hall|].
        intros e' (HP & w2 & He2 & Ht). split; auto.
        exists w2. split; auto. exact (same_env_trans _ _ _ He He2).
    + intros Hm. destruct (Hq Hm) as [Hs1 Hall1].
      rewrite Hs1, (Hs (Hm _ Ho)). split; auto.
      constructor; auto. rewrite <- (Hs (Hm _ Ho)). exact Hall1.
Qed.

(** [Q] holds of what the run of [p] from [w] returns or raises and of
    the world it leaves. *)
Definition wp {A} (p : prog A) (w : World) (Q : outcome A -> World -> Prop) : Prop :=
  Q (fst (run p w)) (snd (run p w)).

Lemma wp_ret {A} (a : A) (w : World) (Q : outcome A -> World -> Prop) :
  Q (inl a) w -> wp (Ret a) w Q.
Proof. exact (fun H => H). Qed.

Lemma wp_throw {A} (e : exn) (w : World) (Q : outcome A -> World -> Prop) :
  Q (inr e) w -> wp (Throw e) w Q.
Proof. exact (fun H => H). Qed.

Lemma wp_bind {A B} (p : prog A) (f : A -> prog B) (w : World)
    (Q : outcome B -> World -> Prop) :
  wp p w (fun r w1 => match r with
                      | inl a => wp (f a) w1 Q
                      | inr e => Q (inr e) w1
                      end) ->
  wp (bind p f) w Q.
Proof.
  unfold wp. rewrite run_bind. destruct (run p w) as [[a|e] w1]; auto.
Qed.

Lemma wp_call (o : op) (w : World) (Q : outcome (ans o) -> World -> Prop) :
  Q (fst (sem o (record w o))) (snd (sem o (record w o))) -> wp (call o) w Q.
Proof. unfold wp. rewrite run_call. auto. Qed.

Lemma wp_finally {A} (p : prog A) (c : prog unit) (w : World)
    (Q : outcome A -> World -> Prop) :
  wp p w (fun r w1 => wp c w1 (fun rc w2 => match rc with
                                            | inl _ => Q r w2
                                            | inr e => Q (inr e) w2
                                            end)) ->
  wp (finally p c) w Q.
Proof.
  unfold wp. rewrite run_finally.
  destruct (run c (snd (run p w))) as [[u|e] w2]; auto.
Qed.

Lemma wp_impl {A} (p : prog A) (w : World) (Q Q' : outcome A -> World -> Prop) :
  (forall r w1, Q r w1 -> Q' r w1) -> wp p w Q -> wp p w Q'.
Proof. unfold wp. auto. Qed.

End RunFacts.

(** ** The archive guards *)

Module GuardFacts.

Import FS Sys Transforms.

(** A data directory [/w/data] holding a zip and a tar archive, each with
    one harmless member and one whose name leads to the sibling
    directory [/w/data_evil]. *)
Definition evil_members : list (string * string) :=
  [("ok.txt", "1"); ("../data_evil/x", "2")].

Definition evil_world : World :=
  mkWorld [] (list_to_map [ (["w"], Dir); (["w"; "data"], Dir);
                            (["w"; "data"; "a.zip"], File (Zip evil_members));
                            (["w"; "data"; "b.tgz"], File (TarGz evil_members)) ])
    ["tmp"] (mkGlob (fun _ => None) (fun _ _ _ => true) (fun _ _ _ _ => []))
    (fun _ => "")
    (mkGit (fun _ _ => None) (fun _ => None) (fun _ _ => None) (fun _ _ => false)
       (fun _ _ => None))
    [] Lookup [].

Definition data_dir : Path := of_string "/w/data".

(** C1 at its failing input.  The member [../data_evil/x] resolves to
    [/w/data_evil/x], which is not below [/w/data]; its string begins with
    the string [/w/data] all the same, so both guards let it pass: the
    extraction step returns without an exception and the archive is
    extracted.  [zipfile] drops the [..] itself and writes below the
    destination; [tarfile] follows the name and writes [/w/data_evil/x],
    outside the destination tree. *)
Theorem safe_extract_accepts_sibling_prefix :
  is_relative_to (resolve [] (joinpath data_dir (of_string "../data_evil/x")))
                 (resolve [] data_dir) = false /\
  to_string (resolve [] (joinpath data_dir (of_string "../data_evil/x")))
  = "/w/data_evil/x" /\
  fst (run (_safe_unzip (of_string "/w/data/a.zip") data_dir) evil_world) = Return tt /\
  files (snd (run (_safe_unzip (of_string "/w/data/a.zip") data_dir) evil_world))
    !! ["w"; "data"; "ok.txt"] = Some (File (Bytes "1")) /\
  files (snd (run (_safe_unzip (of_string "/w/data/a.zip") data_dir) evil_world))
    !! ["w"; "data"; "data_evil"; "x"] = Some (File (Bytes "2")) /\
  fst (run (_safe_untar (of_string "/w/data/b.tgz") data_dir) evil_world) = Return tt /\
  files (snd (run (_safe_untar (of_string "/w/data/b.tgz") data_dir) evil_world))
    !! ["w"; "data"; "ok.txt"] = Some (File (Bytes "1")) /\
  files (snd (run (_safe_untar (of_string "/w/data/b.tgz") data_dir) evil_world))
    !! ["w"; "data_evil"; "x"] = Some (File (Bytes "2")).
Proof. repeat split; vm_compute; reflexivity. Qed.

End GuardFacts.

(** ** Checking out a dataset *)

Module CheckoutFacts.

Import FS Sys FSFacts SysFacts RunFacts Transforms GitAdapter Checkout.

(** Two worlds with the same surroundings and the same file system. *)
Definition alike (w w' : World) : Prop := same_env w w' /\ files w' = files w.

Lemma alike_refl w : alike w w.
Proof. split; [apply same_env_refl|reflexivity]. Qed.

Lemma alike_record w w' o : alike w w' -> alike w (record w' o).
Proof. intros [He Hf]. split; auto. Qed.

(** What a call answers and does to the file system is the same in
    worlds that are alike. *)
Lemma sem_alike (o : op) (w w' : World) :
  alike w w' ->
  fst (sem o w') = fst (sem o w) /\
  files (snd (sem o w')) = files (snd (sem o w)) /\
  stdout (snd (sem o w')) = stdout w' ++ match o with Print l => [l] | _ => [] end.
Proof.
  intros [(H1 & H2 & H3 & H4 & H5) H6].
  destruct w as [c m t g r gi so st lg], w' as [c' m' t' g' r' gi' so' st' lg'].
  cbn in H1, H2, H3, H4, H5, H6. subst.
  destruct o; cbn [sem fst snd lift with_files files stdout];
    rewrite ?app_nil_r; try (repeat split; reflexivity).
  - unfold fresh_name. cbn [files tempdir].
    destruct (List.find _ _); cbn; rewrite ?app_nil_r; repeat split; reflexivity.
  - cbn [git key cwd files].
    destruct (clone_tree gi url ref); cbn; rewrite ?app_nil_r; [|repeat split; reflexivity].
    destruct (has_children _ _ || _); cbn; rewrite ?app_nil_r; [repeat split; reflexivity|].
    unfold key. cbn [cwd].
    destruct (makedirs m _ true) as [[u|e] m1]; cbn; rewrite ?app_nil_r;
      repeat split; reflexivity.
  - cbn [git key cwd files].
    destruct (checkout_tree gi _ ref); cbn; rewrite ?app_nil_r; repeat split; reflexivity.
Qed.

(** The calls a run added to the record. *)
Definition calls_since (w w' : World) : list op :=
  map e_op (drop (length (log w)) (log w')).

Lemma makedirs_there (m : files_t) (k : list string) :
  is_dir m k = true -> makedirs m k true = (Return tt, m).
Proof.
  unfold is_dir, makedirs. destruct (node_at m k) as [[c|]|]; try discriminate.
  reflexivity.
Qed.

(** [wi] is [w] after the calls [os], which printed [out] and changed no
    file. *)
Definition quiet_after (w : World) (os : list op) (out : list string) (wi : World)
  : Prop :=
  alike w wi /\ stdout wi = stdout w ++ out /\
  exists l : list entry, log wi = log w ++ l /\ map e_op l = os.

Lemma quiet_after_start w : quiet_after w [] [] w.
Proof.
  split; [apply alike_refl|]. split; [now rewrite app_nil_r|].
  exists []. split; [now rewrite app_nil_r|reflexivity].
Qed.

Lemma wp_call_quiet (o : op) (w wi : World) (os : list op) (out : list string)
    (Q : outcome (ans o) -> World -> Prop) :
  quiet_after w os out wi ->
  files (snd (sem o w)) = files w ->
  (forall wj : World,
      quiet_after w (os ++ [o]) (out ++ match o with Print l => [l] | _ => [] end) wj ->
      Q (fst (sem o w)) wj) ->
  wp (call o) wi Q.
Proof.
  intros (Ha & Hso & l & Hl & Hos) Hf HQ. apply wp_call.
  pose proof (alike_record w wi o Ha) as Ha'.
  destruct (sem_alike o w (record wi o) Ha') as (E1 & E2 & E3).
  destruct (sem_env o (record wi o)) as (He & Hlog & _).
  rewrite E1. apply HQ.
  split; [split|split].
  - destruct Ha' as [He0 _]. exact (same_env_trans _ _ _ He0 He).
  - rewrite E2. exact Hf.
  - rewrite E3. cbn [record stdout]. rewrite Hso, app_assoc. reflexivity.
  - exists (l ++ [(stage wi, o, targets wi o)]). split.
    + rewrite Hlog. cbn [record log]. rewrite Hl, app_assoc. reflexivity.
    + rewrite map_app, Hos. reflexivity.
Qed.

Tactic Notation "quiet_call" constr(Q) constr(o) "as" ident(wj) ident(Q') :=
  apply wp_bind; eapply (wp_call_quiet o);
  [ exact Q | | intros wj Q'; cbn [sem fst snd lift with_files]; cbv iota beta ].


End CheckoutFacts.

(** ** The calls the transform engine and the fetch make *)

Module CallFacts.

Import FS Sys FSFacts SysFacts RunFacts Transforms GitAdapter Checkout.

Section NoMark.

(** No call is the mark of a stage. *)
Let P (o : op) : Prop := is_mark o = false.

Lemma getitem_calls (Q : op -> Prop) obj k : all_calls Q (getitem obj k).
Proof. unfold getitem. destruct obj; try exact I. destruct (dict_has d k); exact I. Qed.

Lemma iterate_calls (Q : op -> Prop) v : all_calls Q (iterate v).
Proof. destruct v; exact I. Qed.

Lemma as_str_calls (Q : op -> Prop) v : all_calls Q (as_str v).
Proof. destruct v; exact I. Qed.

Lemma glob_loop_calls root pats : forall out, all_calls P (glob_loop root pats out).
Proof.
  induction pats as [|p pats IH]; intros out; cbn [glob_loop]; [exact I|].
  apply all_calls_bind; [apply as_str_calls|intros].
  apply all_calls_bind; [apply all_calls_call; reflexivity|intros]. apply IH.
Qed.

Lemma glob_paths_calls root patterns : all_calls P (_glob_paths root patterns).
Proof.
  unfold _glob_paths.
  apply all_calls_bind; [apply iterate_calls|intros].
  apply all_calls_bind; [apply glob_loop_calls|intros]. exact I.
Qed.

Lemma only_dirs_calls ps : all_calls P (only_dirs ps).
Proof.
  induction ps as [|d ps IH]; simpl; [exact I|].
  split; [reflexivity|]. intros [b|e]; [|exact I]. simpl.
  apply all_calls_bind; [exact IH|intros]. exact I.
Qed.

Lemma member_check_calls dest m : all_calls P (member_check dest m).
Proof.
  unfold member_check.
  apply all_calls_bind; [apply all_calls_call; reflexivity|intros].
  apply all_calls_bind; [apply all_calls_call; reflexivity|intros]. exact I.
Qed.

Lemma safe_untar_calls z dest : all_calls P (_safe_untar z dest).
Proof.
  unfold _safe_untar.
  apply all_calls_bind; [apply all_calls_call; reflexivity|intros].
  apply all_calls_bind; [|intros; apply all_calls_call; reflexivity].
  apply all_calls_for_each. intros m.
  apply all_calls_bind; [apply member_check_calls|intros b]. destruct b; exact I.
Qed.

Lemma safe_unzip_calls z dest : all_calls P (_safe_unzip z dest).
Proof.
  unfold _safe_unzip.
  apply all_calls_bind; [apply all_calls_call; reflexivity|intros].
  apply all_calls_bind; [|intros; apply all_calls_call; reflexivity].
  apply all_calls_for_each. intros m.
  apply all_calls_bind; [apply member_check_calls|intros b]. destruct b; exact I.
Qed.

Lemma t_untar_calls root step : all_calls P (_t_untar root step).
Proof.
  unfold _t_untar.
  apply all_calls_bind; [apply getitem_calls|intros].
  apply all_calls_bind; [apply glob_paths_calls|intros].
  apply all_calls_for_each. intros tgz.
  destruct (negb (has_suffixes tgz) || _); [exact I|].
  apply all_calls_bind; [apply safe_untar_calls|intros].
  destruct step; try exact I.
  destruct (truthy _); [apply all_calls_call; reflexivity|exact I].
Qed.

Lemma t_unzip_calls root step : all_calls P (_t_unzip root step).
Proof.
  unfold _t_unzip.
  apply all_calls_bind; [apply getitem_calls|intros].
  apply all_calls_bind; [apply glob_paths_calls|intros].
  apply all_calls_for_each. intros z.
  destruct (negb _); [exact I|].
  apply all_calls_bind; [apply safe_unzip_calls|intros].
  destruct step; try exact I.
  destruct (truthy _); [apply all_calls_call; reflexivity|exact I].
Qed.

Lemma t_keep_only_calls root step : all_calls P (_t_keep_only root step).
Proof.
  unfold _t_keep_only.
  apply all_calls_bind; [apply getitem_calls|intros].
  apply all_calls_bind; [apply glob_paths_calls|intros keep].
  apply all_calls_bind; [apply all_calls_call; reflexivity|intros all].
  apply all_calls_bind.
  - apply all_calls_for_each. intros p.
    destruct (bool_decide (p = root)); [exact I|].
    destruct (existsb _ _); [exact I|].
    apply all_calls_bind; [apply all_calls_call; reflexivity|intros d].
    destruct d; [exact I|].
    destruct (negb _); [apply all_calls_call; reflexivity|exact I].
  - intros _.
    apply all_calls_bind; [apply all_calls_call; reflexivity|intros again].
    apply all_calls_bind; [apply only_dirs_calls|intros ds].
    apply all_calls_for_each. intros d. apply all_calls_ignoring. reflexivity.
Qed.

Lemma t_strip_prefix_calls root step : all_calls P (_t_strip_prefix root step).
Proof.
  unfold _t_strip_prefix.
  apply all_calls_bind; [apply getitem_calls|intros raw].
  destruct raw; try exact I.
  apply all_calls_bind; [apply all_calls_call; reflexivity|intros there].
  destruct (negb there); [exact I|].
  apply all_calls_bind; [apply all_calls_call; reflexivity|intros items].
  apply all_calls_bind.
  { apply all_calls_for_each. intros item. apply all_calls_call. reflexivity. }
  intros _.
  apply all_calls_bind; [apply all_calls_call; reflexivity|intros below].
  apply all_calls_bind; [apply only_dirs_calls|intros ds].
  apply all_calls_bind; [|intros; apply all_calls_call; reflexivity].
  apply all_calls_for_each. intros d. apply all_calls_call. reflexivity.
Qed.

Lemma from_to_calls step (f : string -> string -> prog unit) :
  (forall a b, all_calls P (f a b)) ->
  all_calls P (do x <- getitem step "from"; do x <- as_str x;
               do t <- getitem step "to"; do t <- as_str t; f x t).
Proof.
  intros H.
  apply all_calls_bind; [apply getitem_calls|intros].
  apply all_calls_bind; [apply as_str_calls|intros].
  apply all_calls_bind; [apply getitem_calls|intros].
  apply all_calls_bind; [apply as_str_calls|intros]. apply H.
Qed.

Lemma t_rename_calls root step : all_calls P (_t_rename root step).
Proof.
  unfold _t_rename. apply (from_to_calls step (fun f t => call (Rename _ _))).
  intros. apply all_calls_call. reflexivity.
Qed.

Lemma t_delete_calls root step : all_calls P (_t_delete root step).
Proof.
  unfold _t_delete.
  apply all_calls_bind; [apply getitem_calls|intros].
  apply all_calls_bind; [apply glob_paths_calls|intros].
  apply all_calls_for_each. intros p.
  apply all_calls_bind; [apply all_calls_call; reflexivity|intros d].
  destruct d; apply all_calls_call; reflexivity.
Qed.

Lemma copy_any_calls src dst : all_calls P (_copy_any src dst).
Proof.
  unfold _copy_any.
  apply all_calls_bind; [apply all_calls_call; reflexivity|intros d].
  destruct d; apply all_calls_call; reflexivity.
Qed.

Lemma t_copy_calls root step : all_calls P (_t_copy root step).
Proof.
  unfold _t_copy.
  apply (from_to_calls step (fun f t =>
    do d <- call (IsDir (joinpath root (of_string f)));
    if d then _ else _)).
  intros a b.
  apply all_calls_bind; [apply all_calls_call; reflexivity|intros d].
  destruct d.
  - apply all_calls_bind; [apply all_calls_call; reflexivity|intros].
    apply all_calls_bind; [apply all_calls_call; reflexivity|intros items].
    apply all_calls_for_each. intros item. apply copy_any_calls.
  - apply all_calls_bind; [apply all_calls_call; reflexivity|intros].
    apply copy_any_calls.
Qed.

Lemma t_move_calls root step : all_calls P (_t_move root step).
Proof.
  unfold _t_move.
  apply (from_to_calls step (fun f t => ensure_dir _ ;;; call (Move _ _))).
  intros a b.
  apply all_calls_bind; [apply all_calls_call; reflexivity|intros].
  apply all_calls_call. reflexivity.
Qed.

Lemma apply_step_calls root step : all_calls P (apply_step root step).
Proof.
  unfold apply_step.
  apply all_calls_bind; [apply getitem_calls|intros t].
  destruct (eq_str t "unzip"); [apply t_unzip_calls|].
  destruct (eq_str t "keep_only"); [apply t_keep_only_calls|].
  destruct (eq_str t "strip_prefix"); [apply t_strip_prefix_calls|].
  destruct (eq_str t "rename"); [apply t_rename_calls|].
  destruct (eq_str t "delete"); [apply t_delete_calls|].
  destruct (eq_str t "copy"); [apply t_copy_calls|].
  destruct (eq_str t "move"); [apply t_move_calls|].
  destruct (eq_str t "untar"); [apply t_untar_calls|].
  apply all_calls_bind; [apply all_calls_call; reflexivity|intros]. exact I.
Qed.

(** The transform engine never marks a stage. *)
Lemma apply_transforms_calls root transforms :
  all_calls P (apply_transforms root transforms).
Proof.
  unfold apply_transforms.
  apply all_calls_bind; [apply iterate_calls|intros steps].
  apply all_calls_for_each. intros step. apply apply_step_calls.
Qed.

End NoMark.

End CallFacts.
(** ** A failed checkout and the destination *)

Module KeepFacts.

Import FS Sys FSFacts SysFacts RunFacts Transforms GitAdapter Checkout CallFacts.
Import CheckoutFacts.

Lemma normalize_clean (l seen : list string) :
  ".." ∉ l -> normalize seen l = seen ++ l.
Proof.
  revert seen. induction l as [|x l IH]; intros seen H; simpl.
  - now rewrite app_nil_r.
  - apply not_elem_of_cons in H as [Hx Hl].
    destruct (String.eqb_spec x ".."); [congruence|].
    rewrite IH by exact Hl. now rewrite <- app_assoc.
Qed.

Lemma fresh_name_shape (w : World) (prefix x : string) :
  fresh_name w prefix = Some x -> exists n, x = prefix +:+ str_of_nat n.
Proof.
  unfold fresh_name. intros H. apply find_some in H as [H _].
  apply in_map_iff in H as (n & <- & _). eauto.
Qed.

(** *** The steps of a config, and when they keep to the working directory *)

(** What [for x in v] goes through, for a value read from JSON. *)
Definition items_of (v : pyval) : list pyval :=
  match v with
  | PList l => l
  | PStr s => map (fun c => PStr (String c EmptyString)) (list_ascii_of_string s)
  | PDict d => map (fun kv => PStr (fst kv)) d
  | _ => []
  end.

(** A string that, read as a path or a glob pattern, is relative and has
    no [..] component. *)
Definition tame_str (x : string) : bool :=
  negb (is_absolute (of_string x)) && negb (bool_decide (".." ∈ parts (of_string x))).

(** A value that is such a string, or no string at all (the step then
    raises before it makes a call). *)
Definition tame_rel (v : pyval) : bool :=
  match v with PStr x => tame_str x | _ => true end.

(** A transform step whose text keeps it to the working directory: the
    patterns of an [unzip] or [delete] step, the [prefix] of a
    [strip_prefix] step, [from] and [to] of a [rename] or [move] step and
    [to] of a [copy] step are tame; the step is no [untar] step.  Nothing
    is asked of a [keep_only] step, of a step of an unknown type, or of a
    step that is no object. *)
Definition tame_step (step : pyval) : bool :=
  match step with
  | PDict d =>
      let t := dict_get d "type" in
      if eq_str t "unzip" || eq_str t "delete"
      then forallb tame_rel (items_of (dict_get d "patterns"))
      else if eq_str t "strip_prefix"
      then match dict_get d "prefix" with
           | PStr s => tame_str (rstrip_slashes s)
           | _ => true
           end
      else if eq_str t "rename" || eq_str t "move"
      then tame_rel (dict_get d "from") && tame_rel (dict_get d "to")
      else if eq_str t "copy" then tame_rel (dict_get d "to")
      else negb (eq_str t "untar")
  | _ => true
  end.

(** The config object [load_dataset_config] gets for a registry entry:
    the entry itself, or what the file it names holds. *)
Definition object_of (w : World) (ref : pyval) : option pydict :=
  match ref with
  | PDict d => Some d
  | PStr s =>
      match read_json w (of_string s) with
      | inl (PDict d) => Some d
      | _ => None
      end
  | _ => None
  end.

(** The config object of a dataset id, by the registry file. *)
Definition config_of (w : World) (dataset_id : string) : option pydict :=
  match read_json w REGISTRY_PATH with
  | inl (PDict reg) => object_of w (dict_get reg dataset_id)
  | _ => None
  end.

(** The transform steps [checkout_one] would run for a dataset id. *)
Definition steps_of (w : World) (dataset_id : string) : list pyval :=
  match config_of w dataset_id with
  | Some d => items_of (get_default d "transforms" (PList []))
  | None => []
  end.

(** *** Calls and what they can answer *)

(** What a call can answer: what it answers in some world. *)
Definition possible (o : op) (r : outcome (ans o)) : Prop :=
  exists w : World, r = fst (sem o w).

(** Every call [p] makes satisfies [P] and what [p] returns satisfies [Q],
    whatever the calls answer of what they can. *)
Fixpoint yields {A} (P : op -> Prop) (Q : A -> Prop) (p : prog A) : Prop :=
  match p with
  | Ret a => Q a
  | Throw _ => True
  | Call o k => P o /\ forall r, possible o r -> yields P Q (k r)
  end.

Lemma yields_bind {A B} (P : op -> Prop) (Q : A -> Prop) (Q' : B -> Prop)
    (p : prog A) (f : A -> prog B) :
  yields P Q p -> (forall a, Q a -> yields P Q' (f a)) -> yields P Q' (bind p f).
Proof.
  induction p as [a|e|o k IH]; simpl; auto.
  intros [Ho Hk] Hf. split; auto.
Qed.

Lemma yields_call (P : op -> Prop) (o : op) (Q : ans o -> Prop) :
  P o -> (forall a, possible o (inl a) -> Q a) -> yields P Q (call o).
Proof. intros HP HQ. simpl. split; auto. intros [a|e] Hr; simpl; auto. Qed.

Lemma yields_ignoring (P : op -> Prop) (o : op) :
  P o -> yields P (fun _ => True) (call_ignoring_OSError o).
Proof.
  intros H. simpl. split; auto. intros [a|e] _; [exact I|].
  destruct (is_OSError e); exact I.
Qed.

Lemma yields_for_each {A} (P : op -> Prop) (xs : list A) (body : A -> prog unit) :
  Forall (fun x => yields P (fun _ => True) (body x)) xs ->
  yields P (fun _ => True) (for_each xs body).
Proof.
  induction 1 as [|x xs Hx _ IH]; simpl; auto.
  apply (yields_bind P (fun _ => True)); auto.
Qed.


Lemma yields_then {A B} (P : op -> Prop) (Q' : B -> Prop) (p : prog A) (f : A -> prog B) :
  yields P (fun _ => True) p -> (forall a, yields P Q' (f a)) -> yields P Q' (bind p f).
Proof. intros Hp Hf. apply (yields_bind P (fun _ => True)); auto. Qed.

Lemma yields_call_any (P : op -> Prop) (o : op) :
  P o -> yields P (fun _ => True) (call o).
Proof. intros H. apply yields_call; auto. Qed.

Lemma getitem_yields (P : op -> Prop) (Q : pyval -> Prop) (obj : pyval) (k : string) :
  (forall d, obj = PDict d -> Q (dict_get d k)) -> yields P Q (getitem obj k).
Proof.
  intros H. unfold getitem. destruct obj; try exact I.
  destruct (dict_has d k); [|exact I]. simpl. auto.
Qed.

Lemma as_str_yields (P : op -> Prop) (Q : string -> Prop) (v : pyval) :
  (forall s, v = PStr s -> Q s) -> yields P Q (as_str v).
Proof. intros H. destruct v; try exact I. simpl. auto. Qed.

Lemma iterate_yields (P : op -> Prop) (Q : list pyval -> Prop) (v : pyval) :
  Q (items_of v) -> yields P Q (iterate v).
Proof. intros H. destruct v; try exact I; exact H. Qed.

Lemma eq_str_true (t : pyval) (s : string) : eq_str t s = true -> t = PStr s.
Proof.
  destruct t; try discriminate. simpl. intros H.
  apply String.eqb_eq in H. now subst.
Qed.

Lemma split_slash_plain (x : string) : has_slash x = false -> split_slash x = [x].
Proof.
  induction x as [|c x IH]; [reflexivity|]. simpl.
  intros H. apply orb_false_iff in H as [Hc Hx]. rewrite Hc, (IH Hx). reflexivity.
Qed.

Lemma splitroot_plain (x : string) : has_slash x = false -> splitroot x = "".
Proof.
  destruct x as [|c x]; [reflexivity|]. simpl. intros H.
  apply orb_false_iff in H as [Hc _].
  destruct c as [[] [] [] [] [] [] [] []]; try reflexivity; discriminate Hc.
Qed.

(** A file name, read as a path, is the path of that one component. *)
Lemma of_string_file_name (x : string) :
  file_name x = true -> of_string x = mkPath "" [x].
Proof.
  unfold file_name. rewrite !andb_true_iff, !negb_true_iff.
  intros [[[Hs He] Hd] _]. unfold of_string.
  rewrite (splitroot_plain x Hs), (split_slash_plain x Hs).
  rewrite filter_cons, filter_nil. unfold keep_part.
  destruct (decide _) as [_|Hk]; [reflexivity|].
  exfalso. apply Hk. now rewrite He, Hd.
Qed.

Lemma file_name_not_up (x : string) : file_name x = true -> x <> "..".
Proof.
  unfold file_name. rewrite !andb_true_iff, !negb_true_iff.
  intros [_ H] ->. discriminate H.
Qed.

Lemma file_names_clean (rel : list string) :
  forallb file_name rel = true -> ".." ∉ rel.
Proof.
  induction rel as [|x rel IH]; [intros _; apply not_elem_of_nil|].
  cbn [forallb]. rewrite andb_true_iff. intros [Hx Hr].
  apply not_elem_of_cons. split; [|auto].
  intros E. symmetry in E. revert E. now apply file_name_not_up.
Qed.

Lemma tame_str_spec (x : string) :
  tame_str x = true ->
  is_absolute (of_string x) = false /\ ".." ∉ parts (of_string x).
Proof.
  unfold tame_str. rewrite andb_true_iff, !negb_true_iff.
  intros [H1 H2]. split; [exact H1|]. now apply bool_decide_eq_false in H2.
Qed.

Lemma dedupe_Forall (P : Path -> Prop) (out : list Path) :
  forall seen, Forall P out -> Forall P (dedupe seen out).
Proof.
  induction out as [|x out IH]; intros seen H; cbn [dedupe]; [constructor|].
  inversion H; subst. destruct (bool_decide (x ∈ seen)); auto.
Qed.

Lemma sorted_reverse_Forall (P : Path -> Prop) (ps : list Path) :
  Forall P ps -> Forall P (sorted_reverse ps).
Proof.
  unfold sorted_reverse. induction 1 as [|x ps Hx _ IH]; cbn [foldr]; [constructor|].
  revert IH. generalize (foldr insert_desc [] ps). intros l.
  induction 1 as [|y l Hy Hl IH]; cbn [insert_desc]; [auto|].
  destruct (list_ltb (sort_key x) (sort_key y)); auto.
Qed.

(** *** Steps that keep to the working directory *)

Section Confine.

(** The directory of a checkout in the directory for temporary files;
    the working directory is its entry [work]. *)
Variable T : list string.
Hypothesis T_clean : ".." ∉ T.

Definition in_arena (p : Path) : Prop :=
  root p = "/" /\ (".." ∉ parts p) /\ T `prefix_of` parts p.

Definition in_work (p : Path) : Prop :=
  root p = "/" /\ (".." ∉ parts p) /\ (T ++ ["work"]) `prefix_of` parts p.

(** A call that reads only, or writes in that directory only. *)
Definition confined (o : op) : Prop :=
  match o with
  | Resolve _ | StrOf _ | Exists _ | IsDir _ | Iterdir _ | Rglob _ _ | ReadJson _
  | ZipNames _ => True
  | MkdirP p | Unlink p _ | Rmdir p | Rmtree p _ => in_arena p
  | Rename a b | Move a b => in_arena a /\ in_arena b
  | Copytree _ b _ | Copy2 _ b => in_arena b
  | ZipExtractall _ dest => in_arena dest
  | _ => False
  end.

Lemma in_work_arena (p : Path) : in_work p -> in_arena p.
Proof.
  intros (H1 & H2 & H3). repeat split; auto.
  etransitivity; [apply prefix_app_r; reflexivity|exact H3].
Qed.

Lemma in_arena_key (p : Path) (w : World) : in_arena p -> key w p = parts p.
Proof.
  intros (H1 & H2 & _). unfold key, resolve, is_absolute. rewrite H1.
  cbn [String.eqb negb parts]. now rewrite normalize_clean.
Qed.

Lemma in_work_start : in_work (abs_path (T ++ ["work"])).
Proof.
  repeat split; cbn [abs_path parts]; [|reflexivity].
  rewrite elem_of_app, list_elem_of_singleton. intros [H|H]; [auto|discriminate H].
Qed.

Lemma in_work_join (p q : Path) :
  in_work p -> is_absolute q = false -> ".." ∉ parts q -> in_work (joinpath p q).
Proof.
  intros (H1 & H2 & H3) Hq Hc. unfold joinpath. rewrite Hq.
  repeat split; cbn [root parts]; auto.
  - rewrite elem_of_app. intros [H|H]; auto.
  - etransitivity; [exact H3|]. now apply prefix_app_r.
Qed.

Lemma in_work_tame (p : Path) (x : string) :
  in_work p -> tame_str x = true -> in_work (joinpath p (of_string x)).
Proof.
  intros Hp Hx. apply tame_str_spec in Hx as [H1 H2]. now apply in_work_join.
Qed.

Lemma in_work_child (p : Path) (x : string) :
  in_work p -> file_name x = true -> in_work (joinpath p (mkPath "" [x])).
Proof.
  intros Hp Hx. apply in_work_join; auto.
  cbn [parts]. rewrite list_elem_of_singleton.
  intros E. symmetry in E. revert E. now apply file_name_not_up.
Qed.

Lemma removelast_clean (l : list string) : ".." ∉ l -> ".." ∉ removelast l.
Proof.
  intros H Hin. apply H. apply list_elem_of_In. apply list_elem_of_In in Hin.
  revert Hin. clear. induction l as [|a l IH]; [auto|].
  destruct l as [|b l]; [intros []|].
  change (removelast (a :: b :: l)) with (a :: removelast (b :: l)).
  intros [H|H]; [now left|right; auto].
Qed.

Lemma in_work_parent (p : Path) : in_work p -> in_arena (parent p).
Proof.
  intros (H1 & H2 & [rest H3]). unfold parent. repeat split; cbn [root parts]; auto.
  - now apply removelast_clean.
  - rewrite H3, <- app_assoc. rewrite removelast_app by discriminate.
    now apply prefix_app_r.
Qed.

Lemma confined_no_mark (o : op) : confined o -> is_mark o = false.
Proof. destruct o; simpl; auto; contradiction. Qed.

(** A confined call changes the file system in that directory only. *)
Lemma confined_targets (o : op) (w : World) :
  confined o ->
  forall t, t ∈ targets w o ->
            exists a, T `prefix_of` a /\ (t = Above a \/ t = Below a).
Proof.
  intros H t Hin.
  destruct o; cbn [confined targets] in *; try contradiction;
    try (apply elem_of_nil in Hin; contradiction);
    repeat match goal with H : _ /\ _ |- _ => destruct H end;
    repeat match goal with
           | H : in_arena ?p |- _ =>
               rewrite (in_arena_key p w H) in Hin;
               destruct H as (_ & _ & H)
           end;
    repeat match type of Hin with
           | _ ∈ _ :: _ => apply elem_of_cons in Hin as [->|Hin]
           | _ ∈ [] => apply elem_of_nil in Hin; contradiction
           end;
    eauto.
Qed.

(** What a search below the working directory finds is there. *)
Lemma rglob_in_work (w : World) (root : Path) (pat : string) (found : list Path) :
  in_work root -> tame_str pat = true ->
  rglob w root pat = Return found -> Forall in_work found.
Proof.
  intros Hroot Hpat. apply tame_str_spec in Hpat as [Ha Hc].
  unfold rglob. rewrite Ha.
  destruct (refuses (glob_match w) pat); [discriminate|].
  rewrite (bool_decide_eq_false_2 _ Hc).
  destruct (negb (is_dir (files w) (key w root))).
  { intros E. inversion E. constructor. }
  intros E. inversion E. subst found. clear E.
  apply Forall_forall. intros p Hp.
  apply list_elem_of_omap in Hp as ([rel nd] & _ & Hp). cbn [fst snd] in Hp.
  destruct (forallb file_name rel) eqn:Hn; [|discriminate Hp].
  destruct (selects _ _ _ _); inversion Hp. subst p.
  apply in_work_join; auto. now apply file_names_clean.
Qed.

Lemma possible_rglob (root : Path) (pat : string) (found : list Path) :
  in_work root -> tame_str pat = true ->
  possible (Rglob root pat) (inl found) -> Forall in_work found.
Proof.
  intros Hroot Hpat [w Hw]. cbn [sem fst] in Hw.
  eapply rglob_in_work; eauto.
Qed.

Lemma possible_iterdir (p : Path) (items : list Path) :
  possible (Iterdir p) (inl items) ->
  Forall (fun it => exists x, file_name x = true /\ it = joinpath p (mkPath "" [x])) items.
Proof.
  intros [w Hw]. cbn [sem fst] in Hw. unfold iterdir in Hw.
  destruct (node_at (files w) (key w p)) as [[c|]|]; try discriminate Hw.
  inversion Hw. subst items. apply Forall_forall. intros it Hit.
  apply list_elem_of_fmap in Hit as (x & -> & Hx).
  apply list_elem_of_filter in Hx as [Hx _]. eauto.
Qed.

Lemma name_child (p : Path) (x : string) : name (joinpath p (mkPath "" [x])) = x.
Proof. unfold name, joinpath. cbn. apply last_last. Qed.

Abbreviation fine := (yields confined (fun _ => True)).

Lemma glob_loop_yields (root : Path) (pats : list pyval) :
  in_work root -> forallb tame_rel pats = true ->
  forall out, Forall in_work out ->
              yields confined (Forall in_work) (glob_loop root pats out).
Proof.
  intros Hroot. induction pats as [|p pats IH]; intros Ht out Hout; cbn [glob_loop].
  - exact Hout.
  - cbn [forallb] in Ht. apply andb_true_iff in Ht as [Hp Hr].
    apply (yields_bind _ (fun s => p = PStr s)); [now apply as_str_yields|].
    intros pat ->. cbn [tame_rel] in Hp.
    apply (yields_bind _ (Forall in_work)).
    + apply yields_call; [exact I|]. intros found. now apply possible_rglob.
    + intros found Hf. apply IH; auto. apply Forall_app. auto.
Qed.

Lemma glob_paths_yields (root : Path) (patterns : pyval) :
  in_work root -> forallb tame_rel (items_of patterns) = true ->
  yields confined (Forall in_work) (_glob_paths root patterns).
Proof.
  intros Hroot Ht. unfold _glob_paths.
  apply (yields_bind _ (fun pats => pats = items_of patterns));
    [now apply iterate_yields|intros pats ->].
  apply (yields_bind _ (Forall in_work)); [now apply glob_loop_yields|].
  intros out Hout. simpl. now apply dedupe_Forall.
Qed.

(** Searching makes no call that writes, whatever the patterns. *)
Lemma glob_paths_fine (root : Path) (patterns : pyval) : fine (_glob_paths root patterns).
Proof.
  unfold _glob_paths. apply yields_then; [now apply iterate_yields|intros pats].
  apply yields_then; [|intros; exact I].
  generalize (@nil Path). induction pats as [|p pats IH]; intros out; cbn [glob_loop];
    [exact I|].
  apply yields_then; [now apply as_str_yields|intros pat].
  apply yields_then; [now apply yields_call_any|intros found]. apply IH.
Qed.

Lemma only_dirs_yields (ps : list Path) :
  Forall in_work ps -> yields confined (Forall in_work) (only_dirs ps).
Proof.
  induction 1 as [|d ps Hd _ IH]; cbn [only_dirs]; [constructor|].
  apply yields_then; [now apply yields_call_any|intros b].
  apply (yields_bind _ (Forall in_work)); [exact IH|].
  intros ds Hds. simpl. destruct b; auto.
Qed.

Lemma member_check_fine (dest : Path) (m : string) : fine (member_check dest m).
Proof.
  unfold member_check.
  apply yields_then; [now apply yields_call_any|intros].
  apply yields_then; [now apply yields_call_any|intros]. exact I.
Qed.

Lemma safe_unzip_fine (z dest : Path) : in_arena dest -> fine (_safe_unzip z dest).
Proof.
  intros Hd. unfold _safe_unzip.
  apply yields_then; [now apply yields_call_any|intros names].
  apply yields_then; [|intros; now apply yields_call_any].
  apply yields_for_each, Forall_forall. intros m _.
  apply yields_then; [apply member_check_fine|intros ok]. destruct ok; exact I.
Qed.

Lemma t_unzip_fine (root : Path) (d : pydict) :
  in_work root -> forallb tame_rel (items_of (dict_get d "patterns")) = true ->
  fine (_t_unzip root (PDict d)).
Proof.
  intros Hroot Ht. unfold _t_unzip.
  apply (yields_bind _ (fun v => v = dict_get d "patterns")).
  { apply getitem_yields. intros d' E. now inversion E. }
  intros patterns ->.
  apply (yields_bind _ (Forall in_work)); [now apply glob_paths_yields|].
  intros found Hf. apply yields_for_each. eapply Forall_impl; [exact Hf|].
  intros z Hz. cbv beta.
  destruct (negb (String.eqb (lower (suffix z)) ".zip")); [exact I|].
  apply yields_then; [apply safe_unzip_fine; now apply in_work_parent|intros _].
  destruct (truthy (dict_get d "delete_archives")); [|exact I].
  apply yields_call_any. now apply in_work_arena.
Qed.

Lemma prune_fine (ds : list Path) (body : Path -> prog unit) :
  (forall d, in_work d -> fine (body d)) ->
  Forall in_work ds -> fine (for_each (sorted_reverse ds) body).
Proof.
  intros Hb Hds. apply yields_for_each.
  eapply Forall_impl; [apply sorted_reverse_Forall; exact Hds|]. exact Hb.
Qed.

Lemma t_keep_only_fine (root : Path) (step : pyval) :
  in_work root -> fine (_t_keep_only root step).
Proof.
  intros Hroot. unfold _t_keep_only.
  apply yields_then; [now apply getitem_yields|intros patterns].
  apply yields_then; [apply glob_paths_fine|intros keep].
  apply (yields_bind _ (Forall in_work)).
  { apply yields_call; [exact I|]. intros all. apply possible_rglob; auto. }
  intros all Hall. apply yields_then.
  { apply yields_for_each. eapply Forall_impl; [exact Hall|].
    intros p Hp. cbv beta.
    destruct (bool_decide (p = root)); [exact I|].
    destruct (existsb _ _); [exact I|].
    apply yields_then; [now apply yields_call_any|intros isd].
    destruct isd; [exact I|].
    destruct (negb _); [|exact I].
    apply yields_call_any. now apply in_work_arena. }
  intros _.
  apply (yields_bind _ (Forall in_work)).
  { apply yields_call; [exact I|]. intros again. apply possible_rglob; auto. }
  intros again Hagain.
  apply (yields_bind _ (Forall in_work)); [now apply only_dirs_yields|].
  intros ds Hds. apply prune_fine; auto.
  intros d Hd. apply yields_ignoring. now apply in_work_arena.
Qed.

Lemma t_strip_prefix_fine (root : Path) (d : pydict) :
  in_work root ->
  match dict_get d "prefix" with PStr s => tame_str (rstrip_slashes s) | _ => true end = true ->
  fine (_t_strip_prefix root (PDict d)).
Proof.
  intros Hroot Ht. unfold _t_strip_prefix.
  apply (yields_bind _ (fun v => v = dict_get d "prefix")).
  { apply getitem_yields. intros d' E. now inversion E. }
  intros raw ->. destruct (dict_get d "prefix") as [|b|z|m e|s|l|d']; try exact I.
  cbv zeta.
  assert (in_work (joinpath root (of_string (rstrip_slashes s)))) as Hsrc
      by now apply in_work_tame.
  set (src := joinpath root (of_string (rstrip_slashes s))) in *. clearbody src.
  apply yields_then; [now apply yields_call_any|intros there].
  destruct (negb there); [exact I|].
  apply (yields_bind _ (Forall (fun it => exists x, file_name x = true /\
                                             it = joinpath src (mkPath "" [x])))).
  { apply yields_call; [exact I|]. intros items. apply possible_iterdir. }
  intros items Hitems.
  apply yields_then.
  { apply yields_for_each. eapply Forall_impl; [exact Hitems|].
    intros it (x & Hx & ->). cbv beta. rewrite name_child.
    rewrite (of_string_file_name x Hx).
    apply yields_call_any. split; apply in_work_arena; now apply in_work_child. }
  intros _.
  apply (yields_bind _ (Forall in_work)).
  { apply yields_call; [exact I|]. intros below. apply possible_rglob; auto. }
  intros below Hbelow.
  apply (yields_bind _ (Forall in_work)); [now apply only_dirs_yields|].
  intros ds Hds.
  apply yields_then.
  { apply prune_fine; auto. intros x Hx. apply yields_call_any. now apply in_work_arena. }
  intros _. apply yields_call_any. now apply in_work_arena.
Qed.

(** [from] and [to] of a step, read as strings. *)
Lemma from_to_yields (d : pydict) (f : string -> string -> prog unit) :
  (forall a b, dict_get d "from" = PStr a -> dict_get d "to" = PStr b -> fine (f a b)) ->
  fine (do x <- getitem (PDict d) "from"; do x <- as_str x;
        do t <- getitem (PDict d) "to"; do t <- as_str t; f x t).
Proof.
  intros H.
  apply (yields_bind _ (fun v => v = dict_get d "from")).
  { apply getitem_yields. intros d' E. now inversion E. }
  intros v ->.
  apply (yields_bind _ (fun a => dict_get d "from" = PStr a)); [now apply as_str_yields|].
  intros a Ha.
  apply (yields_bind _ (fun v => v = dict_get d "to")).
  { apply getitem_yields. intros d' E. now inversion E. }
  intros v ->.
  apply (yields_bind _ (fun b => dict_get d "to" = PStr b)); [now apply as_str_yields|].
  intros b Hb. now apply H.
Qed.

Lemma t_rename_fine (root : Path) (d : pydict) :
  in_work root -> tame_rel (dict_get d "from") && tame_rel (dict_get d "to") = true ->
  fine (_t_rename root (PDict d)).
Proof.
  intros Hroot Ht. apply andb_true_iff in Ht as [Hf Hto]. unfold _t_rename.
  apply (from_to_yields d (fun f t => call (Rename _ _))).
  intros a b Ea Eb. rewrite Ea in Hf. rewrite Eb in Hto. cbn [tame_rel] in Hf, Hto.
  apply yields_call_any. split; apply in_work_arena; now apply in_work_tame.
Qed.

Lemma t_move_fine (root : Path) (d : pydict) :
  in_work root -> tame_rel (dict_get d "from") && tame_rel (dict_get d "to") = true ->
  fine (_t_move root (PDict d)).
Proof.
  intros Hroot Ht. apply andb_true_iff in Ht as [Hf Hto]. unfold _t_move, ensure_dir.
  apply (from_to_yields d (fun f t => call (MkdirP _) ;;; call (Move _ _))).
  intros a b Ea Eb. rewrite Ea in Hf. rewrite Eb in Hto. cbn [tame_rel] in Hf, Hto.
  apply yields_then.
  - apply yields_call_any. apply in_work_parent. now apply in_work_tame.
  - intros _. apply yields_call_any. split; apply in_work_arena; now apply in_work_tame.
Qed.

Lemma t_delete_fine (root : Path) (d : pydict) :
  in_work root -> forallb tame_rel (items_of (dict_get d "patterns")) = true ->
  fine (_t_delete root (PDict d)).
Proof.
  intros Hroot Ht. unfold _t_delete.
  apply (yields_bind _ (fun v => v = dict_get d "patterns")).
  { apply getitem_yields. intros d' E. now inversion E. }
  intros patterns ->.
  apply (yields_bind _ (Forall in_work)); [now apply glob_paths_yields|].
  intros found Hf. apply yields_for_each. eapply Forall_impl; [exact Hf|].
  intros p Hp. cbv beta.
  apply yields_then; [now apply yields_call_any|intros isd].
  destruct isd; apply yields_call_any; now apply in_work_arena.
Qed.

Lemma copy_any_fine (src dst : Path) : in_work dst -> fine (_copy_any src dst).
Proof.
  intros Hd. unfold _copy_any.
  apply yields_then; [now apply yields_call_any|intros isd].
  destruct isd; apply yields_call_any; now apply in_work_arena.
Qed.

Lemma t_copy_fine (root : Path) (d : pydict) :
  in_work root -> tame_rel (dict_get d "to") = true ->
  fine (_t_copy root (PDict d)).
Proof.
  intros Hroot Hto. unfold _t_copy, ensure_dir.
  apply (from_to_yields d (fun f t =>
    do isd <- call (IsDir (joinpath root (of_string f)));
    if isd then _ else _)).
  intros a b _ Eb. rewrite Eb in Hto. cbn [tame_rel] in Hto.
  assert (in_work (joinpath root (of_string b))) as Hdst by now apply in_work_tame.
  set (dst := joinpath root (of_string b)) in *. clearbody dst.
  set (src := joinpath root (of_string a)). clearbody src.
  apply yields_then; [now apply yields_call_any|intros isd].
  destruct isd.
  - apply yields_then; [apply yields_call_any; now apply in_work_arena|intros _].
    apply (yields_bind _ (Forall (fun it => exists x, file_name x = true /\
                                               it = joinpath src (mkPath "" [x])))).
    { apply yields_call; [exact I|]. intros items. apply possible_iterdir. }
    intros items Hitems. apply yields_for_each. eapply Forall_impl; [exact Hitems|].
    intros it (x & Hx & ->). cbv beta. rewrite name_child.
    rewrite (of_string_file_name x Hx). apply copy_any_fine. now apply in_work_child.
  - apply yields_then; [apply yields_call_any; now apply in_work_parent|intros _].
    now apply copy_any_fine.
Qed.

(** A tame step makes confined calls only. *)
Lemma apply_step_fine (root : Path) (step : pyval) :
  in_work root -> tame_step step = true -> fine (apply_step root step).
Proof.
  intros Hroot Ht. unfold apply_step.
  destruct step as [|b|z|m e|s|l|d]; try exact I.
  apply (yields_bind _ (fun v => v = dict_get d "type")).
  { apply getitem_yields. intros d' E. now inversion E. }
  intros t ->. cbn [tame_step] in Ht. cbv zeta in Ht.
  destruct (eq_str (dict_get d "type") "unzip") eqn:E1.
  { apply t_unzip_fine; auto. }
  destruct (eq_str (dict_get d "type") "keep_only") eqn:E2.
  { now apply t_keep_only_fine. }
  destruct (eq_str (dict_get d "type") "strip_prefix") eqn:E3.
  { apply eq_str_true in E3. rewrite E3 in Ht. apply t_strip_prefix_fine; auto. }
  destruct (eq_str (dict_get d "type") "rename") eqn:E4.
  { apply eq_str_true in E4. rewrite E4 in Ht. apply t_rename_fine; auto. }
  destruct (eq_str (dict_get d "type") "delete") eqn:E5.
  { apply t_delete_fine; auto. }
  destruct (eq_str (dict_get d "type") "copy") eqn:E6.
  { apply eq_str_true in E6. rewrite E6 in Ht. apply t_copy_fine; auto. }
  destruct (eq_str (dict_get d "type") "move") eqn:E7.
  { apply eq_str_true in E7. rewrite E7 in Ht. apply t_move_fine; auto. }
  destruct (eq_str (dict_get d "type") "untar") eqn:E8; [discriminate Ht|].
  apply yields_then; [now apply yields_call_any|intros]. exact I.
Qed.

Lemma apply_transforms_fine (root : Path) (transforms : pyval) :
  in_work root -> forallb tame_step (items_of transforms) = true ->
  fine (apply_transforms root transforms).
Proof.
  intros Hroot Ht. unfold apply_transforms.
  apply (yields_bind _ (fun steps => steps = items_of transforms));
    [now apply iterate_yields|intros steps ->].
  apply yields_for_each. apply Forall_forall. intros step Hin.
  apply apply_step_fine; auto.
  rewrite forallb_forall in Ht. apply Ht. now apply list_elem_of_In.
Qed.

End Confine.


(** *** What a checkout leaves of an entry *)

(** The calls of a fetch into the checkout directory [repo]. *)
Definition fetch_call (repo : Path) (o : op) : Prop :=
  match o with
  | StrOf _ | Exists _ | GitAbbrevHead _ | GitRevParse _ _ => True
  | GitClone _ _ d | GitFetch d _ | GitCheckout d _ => d = repo
  | _ => False
  end.

Lemma same_commit_calls repo ref : all_calls (fetch_call repo) (same_commit repo ref).
Proof.
  unfold same_commit. simpl. split; [exact I|]. intros [cur|e]; [|exact I].
  simpl. split; [exact I|]. intros [o2|e]; exact I.
Qed.

Lemma is_checked_calls repo ref :
  all_calls (fetch_call repo) (_is_branch_or_tag_checked repo ref).
Proof.
  unfold _is_branch_or_tag_checked. simpl. split; [exact I|].
  intros [o1|e]; [|apply same_commit_calls].
  destruct (String.eqb o1 ref); [exact I|apply same_commit_calls].
Qed.

Lemma arg_str_calls (Q : op -> Prop) v : all_calls Q (arg_str v).
Proof. destruct v; exact I. Qed.

Lemma fetch_git_calls url ref subdir tmp :
  all_calls (fetch_call (joinpath tmp (of_string "repo"))) (fetch_git url ref subdir tmp).
Proof.
  unfold fetch_git. cbv zeta.
  apply all_calls_bind.
  { destruct (truthy ref); [|exact I].
    apply all_calls_bind; [apply arg_str_calls|intros; exact I]. }
  intros branch.
  apply all_calls_bind; [apply arg_str_calls|intros u].
  apply all_calls_bind; [apply all_calls_call; reflexivity|intros _].
  apply all_calls_bind.
  { destruct branch as [r|]; [|exact I].
    apply all_calls_bind; [apply is_checked_calls|intros checked].
    destruct (negb checked); [|exact I].
    apply all_calls_bind; [apply all_calls_call; reflexivity|intros _].
    apply all_calls_call. reflexivity. }
  intros _.
  apply all_calls_bind.
  { destruct (negb (truthy subdir)); [exact I|].
    apply all_calls_bind; [apply arg_str_calls|intros; exact I]. }
  intros root.
  apply all_calls_bind; [apply all_calls_call; exact I|intros there].
  destruct (negb there); [|exact I].
  apply all_calls_bind; [apply all_calls_call; exact I|intros; exact I].
Qed.

Lemma fetch_source_calls src tmp :
  all_calls (fetch_call (joinpath tmp (of_string "repo"))) (_fetch_source src tmp).
Proof.
  unfold _fetch_source.
  apply all_calls_bind; [apply getitem_calls|intros stype].
  destruct (eq_str stype "git").
  - apply all_calls_bind; [apply getitem_calls|intros url].
    destruct src; try exact I. apply fetch_git_calls.
  - apply all_calls_bind; [apply all_calls_call; exact I|intros; exact I].
Qed.


Section Keep.

(** The entry of the file system that is watched. *)
Variable k : list string.

(** No target reaches the entry. *)
Definition safe (ts : list target) : Prop := ¬ touched ts k.

(** From [w] to [w'] the surroundings stayed and the entry is as it
    was. *)
Definition kept (w w' : World) : Prop :=
  same_env w w' /\ files w' !! k = files w !! k.

Lemma kept_refl w : kept w w.
Proof. split; [apply same_env_refl|reflexivity]. Qed.

Lemma kept_trans a b c : kept a b -> kept b c -> kept a c.
Proof.
  intros (E1 & F1) (E2 & F2).
  split; [exact (same_env_trans _ _ _ E1 E2)|]. now rewrite F2.
Qed.

Lemma alike_kept w w' : alike w w' -> kept w w'.
Proof. intros [He Hf]. split; [exact He|now rewrite Hf]. Qed.

Lemma safe_nil : safe [].
Proof. intros (t & Hin & _). inversion Hin. Qed.

Lemma kept_sem (o : op) (wi : World) :
  safe (targets wi o) -> kept wi (snd (sem o (record wi o))).
Proof.
  intros H. pose proof (call_effect o wi) as (He & _ & _ & _ & Hf). cbv zeta in *.
  split; [exact He|]. apply Hf, H.
Qed.

Lemma kept_run {A} (P : op -> Prop) (p : prog A) (wi : World) :
  all_calls P p ->
  (forall o, P o -> is_mark o = false) ->
  (forall o w1, P o -> same_env wi w1 -> safe (targets w1 o)) ->
  kept wi (snd (run p wi)) /\ stage (snd (run p wi)) = stage wi.
Proof.
  intros Hp Hm H.
  destruct (run_effect P p Hp wi) as (l & Hl & He & Hf & Hall & Hq).
  destruct (Hq Hm) as [Hs Hst]. split; [|exact Hs].
  split; [exact He|]. apply Hf. intros en Hin.
  rewrite Forall_forall in Hall.
  destruct (Hall en Hin) as (HP & w1 & He1 & Ht).
  rewrite Ht. apply (H _ _ HP He1).
Qed.

(** The same for a program whose calls are as asked as long as the
    calls before answered what they can. *)
Lemma kept_yields {A} (P : op -> Prop) (Q : A -> Prop) (p : prog A) :
  yields P Q p ->
  (forall o, P o -> is_mark o = false) ->
  forall wi,
    (forall o w1, P o -> same_env wi w1 -> safe (targets w1 o)) ->
    kept wi (snd (run p wi)) /\ stage (snd (run p wi)) = stage wi.
Proof.
  intros Hp Hm. induction p as [a|e|o c IH]; intros wi H.
  - split; [apply kept_refl|reflexivity].
  - split; [apply kept_refl|reflexivity].
  - destruct Hp as [Ho Hc]. cbn [run].
    pose proof (kept_sem o wi (H o wi Ho (same_env_refl wi))) as K.
    pose proof (call_effect o wi) as (He & _ & Hs & _). cbv zeta in He, Hs.
    assert (possible o (fst (sem o (record wi o)))) as Hr by (eexists; reflexivity).
    destruct (sem o (record wi o)) as [r w1]. cbn [fst snd] in *.
    destruct (IH r (Hc r Hr) w1) as [K1 S1].
    { intros o' w2 Ho' He2. apply H; [exact Ho'|].
      exact (same_env_trans _ _ _ He He2). }
    split; [exact (kept_trans _ _ _ K K1)|].
    rewrite S1. apply Hs. now apply Hm.
Qed.

(** What is asked of the world a checkout leaves: it got to the stage of
    the install, or the entry is kept. *)
Definition goal (w w' : World) : Prop := stage w' = Install \/ kept w w'.

Lemma wp_kept_call (o : op) (w wi : World) (Q : outcome (ans o) -> World -> Prop) :
  kept w wi ->
  safe (targets wi o) ->
  (forall wj, kept w wj ->
              stage wj = match o with EnterStage s => s | _ => stage wi end ->
              Q (fst (sem o (record wi o))) wj) ->
  wp (call o) wi Q.
Proof.
  intros K H HQ. apply wp_call. apply HQ.
  - exact (kept_trans _ _ _ K (kept_sem o wi H)).
  - pose proof (call_effect o wi) as (_ & _ & Hs & Hm & _). cbv zeta in *.
    destruct o; try (apply Hs; reflexivity). apply Hm. reflexivity.
Qed.

Lemma wp_kept_run {A} (P : op -> Prop) (p : prog A) (w wi : World)
    (Q : outcome A -> World -> Prop) :
  kept w wi ->
  all_calls P p ->
  (forall o, P o -> is_mark o = false) ->
  (forall o w1, P o -> same_env wi w1 -> safe (targets w1 o)) ->
  (forall r wj, kept w wj -> stage wj = stage wi -> Q r wj) ->
  wp p wi Q.
Proof.
  intros K Hp Hm H HQ. unfold wp.
  destruct (kept_run P p wi Hp Hm H) as [K' S'].
  apply HQ; [exact (kept_trans _ _ _ K K')|exact S'].
Qed.

Lemma wp_kept_yields {A} (P : op -> Prop) (p : prog A) (w wi : World)
    (Q : outcome A -> World -> Prop) :
  kept w wi ->
  yields P (fun _ => True) p ->
  (forall o, P o -> is_mark o = false) ->
  (forall o w1, P o -> same_env wi w1 -> safe (targets w1 o)) ->
  (forall r wj, kept w wj -> stage wj = stage wi -> Q r wj) ->
  wp p wi Q.
Proof.
  intros K Hp Hm H HQ. unfold wp.
  destruct (kept_yields P _ p Hp Hm wi H) as [K' S'].
  apply HQ; [exact (kept_trans _ _ _ K K')|exact S'].
Qed.

Lemma wp_installing {A} (p : prog A) (wi : World) (Q : outcome A -> World -> Prop) :
  all_calls (fun o => is_mark o = false) p ->
  stage wi = Install ->
  (forall r wj, stage wj = Install -> Q r wj) ->
  wp p wi Q.
Proof.
  intros Hp Hs HQ. unfold wp. apply HQ.
  destruct (run_effect _ p Hp wi) as (l & _ & _ & _ & _ & Hq).
  destruct (Hq (fun o H => H)) as [E _]. now rewrite E.
Qed.

Variable w0 : World.
Variable output_dir : Path.
Hypothesis clean_tempdir : ".." ∉ tempdir w0.
Hypothesis off_output : ¬ k `prefix_of` key w0 output_dir.
Hypothesis off_temp : ¬ tempdir w0 `prefix_of` k.
Hypothesis off_temp' : ¬ k `prefix_of` tempdir w0.

Lemma safe_in_temp (ts : list target) :
  (forall t, t ∈ ts -> exists a, tempdir w0 `prefix_of` a /\ (t = Above a \/ t = Below a)) ->
  safe ts.
Proof.
  intros Hts (t & Hin & Ht). destruct (Hts t Hin) as (a & Ha & [->| ->]); simpl in Ht.
  - destruct (prefix_weak_total _ _ _ Ht Ha); auto.
  - apply off_temp. etransitivity; eauto.
Qed.

Lemma key_in_temp (w1 : World) (x name : string) :
  x <> ".." -> name <> ".." ->
  of_string name = mkPath "" [name] ->
  key w1 (joinpath (abs_path (tempdir w0 ++ [x])) (of_string name))
  = tempdir w0 ++ [x; name].
Proof.
  intros Hx Hn Hs. rewrite Hs. unfold key, resolve, joinpath, abs_path.
  cbn [is_absolute root parts String.eqb negb].
  rewrite normalize_clean.
  - simpl. rewrite <- app_assoc. reflexivity.
  - rewrite !elem_of_app, !list_elem_of_singleton. intros [[H|H]|H]; auto.
Qed.

Lemma key_of_temp (w1 : World) (x : string) :
  x <> ".." -> key w1 (abs_path (tempdir w0 ++ [x])) = tempdir w0 ++ [x].
Proof.
  intros Hx. unfold key, resolve, abs_path.
  cbn [is_absolute root parts String.eqb negb].
  rewrite normalize_clean; [reflexivity|].
  rewrite elem_of_app, list_elem_of_singleton. intros [H|H]; auto.
Qed.

Lemma arena_name (n : nat) : "arena_" +:+ str_of_nat n <> "..".
Proof. discriminate. Qed.

(** A call made while the file system is still what it was in [w0]
    answers what it answers in [w0]. *)
Lemma wp_alike_call (o : op) (wi : World) (Q : outcome (ans o) -> World -> Prop) :
  alike w0 wi ->
  files (snd (sem o w0)) = files w0 ->
  (forall wj, alike w0 wj ->
              stage wj = match o with EnterStage s => s | _ => stage wi end ->
              Q (fst (sem o w0)) wj) ->
  wp (call o) wi Q.
Proof.
  intros Ha Hf HQ. apply wp_call.
  pose proof (alike_record w0 wi o Ha) as Ha'.
  destruct (sem_alike o w0 (record wi o) Ha') as (E1 & E2 & _).
  rewrite E1. apply HQ.
  - split.
    + destruct Ha' as [He0 _]. destruct (sem_env o (record wi o)) as (He & _).
      exact (same_env_trans _ _ _ He0 He).
    + now rewrite E2.
  - pose proof (call_effect o wi) as (_ & _ & Hs & Hm & _). cbv zeta in *.
    destruct o; try (apply Hs; reflexivity). apply Hm. reflexivity.
Qed.

(** Loading the config while the file system is what it was in [w0]. *)
Lemma load_dataset_config_run (ref : pyval) (wi : World) :
  alike w0 wi ->
  wp (load_dataset_config ref) wi
     (fun r wj => alike w0 wj /\
                  match r with
                  | inl cfg => exists d, object_of w0 ref = Some d /\
                                         transforms cfg = get_default d "transforms" (PList [])
                  | inr _ => True
                  end).
Proof.
  intros Ha. unfold load_dataset_config.
  assert (forall (obj : pyval) (wj : World),
            alike w0 wj ->
            (forall d, obj = PDict d -> object_of w0 ref = Some d) ->
            wp (do i <- getitem obj "id";
                do src <- getitem obj "source";
                match obj with
                | PDict d =>
                    Ret (mkDatasetConfig i (get_default d "version" (PStr "0.0.0")) src
                           (get_default d "transforms" (PList [])) (dict_get d "manifest")
                           (dict_get d "tasks"))
                | _ => Throw (TypeError "")
                end) wj
               (fun r wj => alike w0 wj /\
                  match r with
                  | inl cfg => exists d, object_of w0 ref = Some d /\
                                         transforms cfg = get_default d "transforms" (PList [])
                  | inr _ => True
                  end)) as Hrest.
  { intros obj wj Hj Hobj. destruct obj as [|b|z|m e|s|l|d]; try (split; [exact Hj|exact I]).
    unfold getitem.
    destruct (dict_has d "id"); [|split; [exact Hj|exact I]].
    destruct (dict_has d "source"); [|split; [exact Hj|exact I]].
    split; [exact Hj|]. exists d. split; [now apply Hobj|reflexivity]. }
  apply wp_bind.
  destruct ref as [|b|z|m e|s|l|d]; try (apply wp_throw; split; [exact Ha|exact I]).
  - apply (wp_alike_call (ReadJson (of_string s))); [exact Ha|reflexivity|].
    intros wj Hj _. cbn [sem fst].
    destruct (read_json w0 (of_string s)) as [obj|e] eqn:E; [|split; [exact Hj|exact I]].
    apply Hrest; [exact Hj|]. intros d ->. cbn [object_of]. now rewrite E.
  - apply wp_ret. apply Hrest; [exact Ha|]. intros d' E. now inversion E.
Qed.

Tactic Notation "kcall" constr(K) constr(o) "as" ident(wj) ident(K') ident(S') :=
  apply wp_bind; apply (wp_kept_call o _ _ _ K);
  [ | intros wj K' S' ].

Ltac failed K := right; exact K.

Lemma wp_goal_call (o : op) (wi : World) (Q : outcome (ans o) -> World -> Prop) :
  goal w0 wi ->
  is_mark o = false ->
  safe (targets wi o) ->
  (forall r wj, goal w0 wj -> Q r wj) ->
  wp (call o) wi Q.
Proof.
  intros G Hm Hs HQ. apply wp_call. apply HQ. destruct G as [G|G].
  - left. pose proof (call_effect o wi) as (_ & _ & Hst & _). cbv zeta in Hst.
    rewrite Hst; auto.
  - right. exact (kept_trans _ _ _ G (kept_sem o wi Hs)).
Qed.

Lemma wp_finally_goal {A} (p : prog A) (c : prog unit) (wi : World) :
  wp p wi (fun _ w1 => goal w0 w1) ->
  (forall w1, goal w0 w1 -> wp c w1 (fun _ w2 => goal w0 w2)) ->
  wp (finally p c) wi (fun _ w2 => goal w0 w2).
Proof.
  unfold wp. rewrite run_finally. intros H1 H2. specialize (H2 _ H1).
  destruct (run c (snd (run p wi))) as [[u|e] w2]; exact H2.
Qed.

(** A checkout whose transform steps are tame gets to the stage of the
    install or keeps the entry. *)
Lemma checkout_one_goal (dataset_id : string) (update : bool) :
  forallb tame_step (steps_of w0 dataset_id) = true ->
  wp (checkout_one dataset_id output_dir update) w0 (fun _ w' => goal w0 w').
Proof.
  intros Htame.
  pose proof (alike_refl w0) as A.
  unfold checkout_one, load_registry, ensure_dir.
  apply wp_bind. apply (wp_alike_call (EnterStage Lookup)); [exact A|reflexivity|].
  intros w1 A1 _. cbn [sem fst]. unfold Return. cbv iota beta.
  apply wp_bind. apply (wp_alike_call (ReadJson REGISTRY_PATH)); [exact A1|reflexivity|].
  intros w2 A2 _. cbn [sem fst].
  unfold steps_of, config_of in Htame.
  destruct (read_json w0 REGISTRY_PATH) as [registry|e];
    [|right; now apply alike_kept].
  apply wp_bind.
  destruct registry as [|b|z|m e|s|l|reg];
    try (apply wp_throw; right; now apply alike_kept).
  apply wp_ret.
  destruct (negb (truthy (dict_get reg dataset_id)));
    [apply wp_throw; right; now apply alike_kept|].
  apply wp_bind.
  eapply wp_impl; [|exact (load_dataset_config_run (dict_get reg dataset_id) w2 A2)].
  intros [cfg|e] w3 [A3 Hcfg]; [|right; now apply alike_kept].
  destruct Hcfg as (cfg_obj & Hobj & Htr).
  rewrite Hobj in Htame. rewrite <- Htr in Htame.
  pose proof (alike_kept _ _ A3) as K3.
  kcall K3 (Resolve (joinpath output_dir (of_string dataset_id))) as w4 K4 S4;
    [apply safe_nil|].
  cbn [sem fst]. unfold Return. cbv iota beta.
  set (dst := resolve _ _). clearbody dst.
  kcall K4 (MkdirP output_dir) as w5 K5 S5.
  { intros (t & Hin & Ht). cbn [targets] in Hin.
    apply list_elem_of_singleton in Hin. subst t.
    simpl in Ht. apply off_output. destruct K4 as [(Hc & _) _].
    unfold key in *. rewrite <- Hc. exact Ht. }
  destruct (fst (sem (MkdirP output_dir) _)) as [u|e]; [|failed K5].
  kcall K5 (Exists dst) as w6 K6 S6; [apply safe_nil|].
  cbn [sem fst]. unfold Return. cbv iota beta.
  destruct (exists_ _ _ && negb update).
  { kcall K6 (Print ("✔ Already present: " +:+ dataset_id)) as w7 K7 S7;
      [apply safe_nil|].
    cbn [sem fst]. unfold Return. cbv iota beta. apply wp_ret. failed K7. }
  apply wp_bind. unfold with_temporary_directory.
  apply (wp_impl _ _ (fun _ w7 => goal w0 w7)).
  { intros [u'|e] w7 G; [|exact G].
    apply wp_bind. apply (wp_goal_call (Print _)); [exact G|reflexivity|apply safe_nil|].
    intros [u''|e] w8 G8; [apply wp_ret|]; exact G8. }
  assert (tempdir w6 = tempdir w0) as Ht6 by (destruct K6 as [(_ & H & _) _]; exact H).
  kcall K6 (Mkdtemp "arena_") as w7 K7 S7.
  { cbn [targets]. destruct (fresh_name w6 "arena_") as [x|]; [|apply safe_nil].
    rewrite Ht6. apply safe_in_temp.
    intros t Hin. apply list_elem_of_singleton in Hin. subst t.
    exists (tempdir w0 ++ [x]). split; [now apply prefix_app_r|now right]. }
  cbn [sem fst].
  change (fresh_name (record w6 (Mkdtemp "arena_")) "arena_") with (fresh_name w6 "arena_").
  destruct (fresh_name w6 "arena_") as [x|] eqn:Ex; cbn [fst]; unfold Return; cbv iota beta;
    [|failed K7].
  apply fresh_name_shape in Ex as [n ->].
  cbn [record tempdir]. rewrite Ht6.
  set (x := "arena_" +:+ str_of_nat n). assert (x <> "..") as Hx by apply arena_name.
  clearbody x.
  set (tmp := abs_path (tempdir w0 ++ [x])).
  assert (".." ∉ tempdir w0 ++ [x]) as Hclean.
  { rewrite elem_of_app, list_elem_of_singleton. intros [H|H]; auto. }
  assert (forall o w1, confined (tempdir w0 ++ [x]) o -> safe (targets w1 o)) as Hconf.
  { intros o wa Ho. apply safe_in_temp. intros t Hin.
    destruct (confined_targets _ o wa Ho t Hin) as (a & Ha & Hta).
    exists a. split; [|exact Hta].
    etransitivity; [apply prefix_app_r; reflexivity|exact Ha]. }
  apply wp_finally_goal.
  2:{ intros w8 G. apply (wp_goal_call (Rmtree tmp true)); [exact G|reflexivity| |].
      - apply Hconf. cbn [confined]. unfold tmp. repeat split; auto.
      - intros r w9 G9; exact G9. }
  assert (forall name wa, name <> ".." -> of_string name = mkPath "" [name] ->
            forall ts, (forall t, t ∈ ts ->
               t = Above (key wa (joinpath tmp (of_string name))) \/
               t = Below (key wa (joinpath tmp (of_string name)))) -> safe ts) as Hsub.
  { intros name wa Hn Hs ts Hts. unfold tmp in Hts.
    rewrite (key_in_temp wa x name Hx Hn Hs) in Hts.
    apply safe_in_temp. intros t Hin. exists (tempdir w0 ++ [x; name]).
    split; [now apply prefix_app_r|]. now apply Hts. }
  kcall K7 (EnterStage Fetch) as w8 K8 S8; [apply safe_nil|].
  cbn [sem fst]. unfold Return. cbv iota beta.
  apply wp_bind.
  apply (wp_kept_run (fetch_call (joinpath tmp (of_string "repo"))) _ _ _ _ K8
           (fetch_source_calls _ _)).
  { intros o; destruct o; simpl; intros H; try contradiction; reflexivity. }
  { intros o w' Ho _.
    destruct o; simpl in Ho; try contradiction; try apply safe_nil; subst;
      apply (Hsub "repo" w'); try discriminate; try reflexivity;
      cbn [targets]; intros t Hin;
      rewrite ?elem_of_cons, elem_of_nil in Hin; tauto. }
  intros [src_root|e] w9 K9 S9; [|failed K9].
  kcall K9 (EnterStage Copy) as w10 K10 S10; [apply safe_nil|].
  cbn [sem fst]. unfold Return. cbv iota beta.
  kcall K10 (Copytree src_root (joinpath tmp (of_string "work")) false) as w11 K11 S11.
  { apply (Hsub "work" w10); try discriminate; try reflexivity.
    cbn [targets]. intros t Hin. rewrite ?elem_of_cons, elem_of_nil in Hin. tauto. }
  destruct (fst (sem (Copytree _ _ _) _)) as [u1|e]; [|failed K11].
  kcall K11 (EnterStage Transform) as w12 K12 S12; [apply safe_nil|].
  cbn [sem fst]. unfold Return. cbv iota beta.
  apply wp_bind.
  change (joinpath tmp (of_string "work")) with (abs_path ((tempdir w0 ++ [x]) ++ ["work"])).
  apply (wp_kept_yields (confined (tempdir w0 ++ [x])) _ _ _ _ K12).
  { apply apply_transforms_fine; [apply in_work_start; exact Hclean|exact Htame]. }
  { apply confined_no_mark. }
  { intros o w' Ho _. now apply Hconf. }
  intros [u2|e] w13 K13 S13; [|failed K13].
  kcall K13 (EnterStage Install) as w14 K14 S14; [apply safe_nil|].
  cbn [sem fst]. unfold Return. cbv iota beta.
  apply wp_installing; [|exact S14|intros r wj Hs; left; exact Hs].
  apply all_calls_bind; [apply all_calls_call; reflexivity|intros there].
  apply all_calls_bind; [|intros _; apply all_calls_call; reflexivity].
  destruct there; [|exact I]. unfold safe_rmtree.
  apply all_calls_bind; [apply all_calls_call; reflexivity|intros there].
  destruct there; [apply all_calls_call; reflexivity|exact I].
Qed.

End Keep.

(** The entry [k] is neither the output directory nor above it, and is
    neither inside nor above the directory for temporary files. *)
Definition outside (w : World) (output_dir : Path) (k : list string) : Prop :=
  ¬ k `prefix_of` key w output_dir /\
  ¬ tempdir w `prefix_of` k /\ ¬ k `prefix_of` tempdir w.

(** The destination of a checkout, as an entry of the file system. *)
Definition destination (w : World) (output_dir : Path) (dataset_id : string)
  : list string :=
  key w (joinpath output_dir (of_string dataset_id)).

Lemma below_destination_outside (w : World) (output_dir : Path) (d k : list string) :
  ¬ d `prefix_of` key w output_dir ->
  ¬ tempdir w `prefix_of` d -> ¬ d `prefix_of` tempdir w ->
  d `prefix_of` k -> outside w output_dir k.
Proof.
  intros Ho Ht Ht' Hk. repeat split.
  - intros H. apply Ho. etransitivity; eauto.
  - intros H. destruct (prefix_weak_total _ _ _ Hk H); auto.
  - intros H. apply Ht'. etransitivity; eauto.
Qed.


End KeepFacts.

(** ** Worked examples *)

Module Demo.

Import Tasks Queue QueueFacts QueueInv QueueSubmit QueueProgress QueueViews TasksFacts.

Definition spec_a : TaskSpec :=
  mkTaskSpec "t1" (PStr "do X") (Some (of_string "/data/in1.xlsx"))
    (Some (of_string "/data/ans1.xlsx")) [("level", PInt 1)].

Definition spec_a' : TaskSpec :=
  mkTaskSpec "t1" (PStr "do X") (Some (of_string "/data/in1.xlsx")) None
    [("level", PInt 1)].

Definition spec_b : TaskSpec :=
  mkTaskSpec "t2" (PStr "do Y") None (Some (of_string "/data/ans2.xlsx")) [].

Definition world0 : World := mkWorld ∅ ∅ [] [].

Definition failing_grader : Grader := fun _ _ => inr "boom".
Definition empty_grader : Grader := fun _ _ => inl (PDict []).

(** A queue of two tasks, the first of them leased. *)
Definition fresh (g : option Grader) : State :=
  init [spec_a; spec_b] (of_string "results") g false world0.

Definition leased (g : option Grader) : State :=
  fst (next_task (1, 0) (fresh g)).

Definition item_a_leased : QueueItem :=
  mkQueueItem 0 spec_a in_progress (Some (1, 0)) None None.

Lemma submit_answer_rejects_witness :
  (exists it, _items (fst (leased None)) !! Z.to_nat 1 = Some it /\
              status it <> in_progress) /\
  exists e : exn,
    submit_answer 1 (Some "out.csv") (2, 0) (3, 0) (leased None)
    = (leased None, Raise e) /\
    match e with ValueError _ | RuntimeError _ => True | _ => False end.
Proof.
  assert (exists it, _items (fst (leased None)) !! Z.to_nat 1 = Some it /\
                     status it <> in_progress) as H.
  { eexists. split; [reflexivity|discriminate]. }
  split; [exact H|].
  apply submit_answer_rejects_not_in_progress. right; right. exact H.
Defined.

Lemma submit_answer_grading_error_witness :
  exists (s' : State) (ack rec : pydict) (it' : QueueItem),
    submit_answer 0 (Some "out.csv") (2, 0) (3, 0)
      (fst (leased (Some failing_grader)), snd (leased (Some failing_grader)))
    = (s', Return ack) /\
    dict_get ack "ok" = PBool true /\
    dict_get ack "grade" = PDict [("status", PStr "grading_error"); ("error", PStr "boom")] /\
    dict_get ack "completed" = PInt (0 + 1) /\
    dict_get ack "total" = PInt (Z.of_nat 2) /\
    files (snd s') !! "results/task_00000.json" = Some rec /\
    dict_get rec "grade" = PDict [("status", PStr "grading_error"); ("error", PStr "boom")] /\
    _items (fst s') !! Z.to_nat 0 = Some it' /\
    status it' = completed /\ result it' = Some rec /\
    finished_at it' = Some (3, 0) /\
    _completed (fst s') = 0 + 1.
Proof.
  apply (submit_answer_absorbs_grading_error 0 "out.csv" (2, 0) (3, 0)
           (fst (leased (Some failing_grader))) (snd (leased (Some failing_grader)))
           item_a_leased failing_grader "boom");
    try reflexivity; try lia; discriminate.
Defined.

Lemma submit_answer_null_grade_witness :
  exists (s' : State) (ack rec : pydict) (it' : QueueItem),
    submit_answer 0 (Some "out.csv") (2, 0) (3, 0)
      (fst (leased (Some empty_grader)), snd (leased (Some empty_grader)))
    = (s', Return ack) /\
    dict_has ack "grade" = true /\ dict_get ack "grade" = PNone /\
    files (snd s') !! "results/task_00000.json" = Some rec /\
    dict_has rec "grade" = true /\ dict_get rec "grade" = PNone /\
    _items (fst s') !! Z.to_nat 0 = Some it' /\
    status it' = completed /\ result it' = Some rec /\
    (path_or_none (Some "out.csv") = None ->
     grader_calls (snd s') = grader_calls (snd (leased (Some empty_grader)))).
Proof.
  apply (submit_answer_null_grade 0 (Some "out.csv") (2, 0) (3, 0)
           (fst (leased (Some empty_grader))) (snd (leased (Some empty_grader)))
           item_a_leased);
    try reflexivity; try lia.
  right; right. exists empty_grader, (of_string "out.csv").
  repeat split; reflexivity.
Defined.

Definition demo_calls : list call :=
  [NextTask (1, 0); SubmitAnswer 0 (Some "out.csv") (2, 0) (3, 0); NextTask (4, 0);
   NextTask (5, 0)].

Lemma lease_view_hides_answer_witness :
  Forall2 same_but_answer [spec_a; spec_b] [spec_a'; spec_b] /\
  leases (snd (run demo_calls
                 (init [spec_a; spec_b] (of_string "results") (Some failing_grader) false world0)))
  = leases (snd (run demo_calls
                   (init [spec_a'; spec_b] (of_string "out") None true world0))).
Proof.
  assert (Forall2 same_but_answer [spec_a; spec_b] [spec_a'; spec_b]) as H.
  { repeat constructor. }
  split; [exact H|].
  exact (proj1 (lease_view_hides_answer _ _ (of_string "results") (of_string "out")
                  (Some failing_grader) None false true world0 world0 demo_calls H)).
Defined.

Definition demo_manifest : list pyval :=
  [ PDict [("id", PStr "t1"); ("instruction", PStr "do X")];
    PDict [("name", PStr "second"); ("input", PStr "in/b.xlsx"); ("level", PInt 2)];
    PDict [("answer", PStr "/abs/ans.xlsx")] ].

(** The same records in an object, under [tasks]. *)
Definition demo_manifest_object : pyval :=
  PDict [("version", PInt 1); ("tasks", PList demo_manifest)].



End Demo.

(** ** Worked examples of a checkout *)

Module CheckoutDemo.

Import FS Sys RunFacts Transforms GitAdapter Checkout CheckoutFacts KeepFacts.

Definition demo_match (pat : string) (rel : list string) : bool :=
  String.eqb pat "*" ||
  match pat with
  | String "*" ext => endswith (List.last rel "") ext
  | _ => String.eqb (List.last rel "") pat
  end.

(** A pattern with a [..] component and no wildcard finds the entry it
    leads to from the directory searched, when that is there. *)
Definition demo_climb (cwd : list string) (m : files_t) (root : Path) (pat : string)
  : list Path :=
  let p := joinpath root (of_string pat) in
  if exists_ m (parts (resolve cwd p)) then [p] else [].

(** No pattern is refused; the patterns used here select entries below
    the directory searched, never that directory itself. *)
Definition demo_glob : Glob :=
  mkGlob (fun _ => None)
         (fun pat rel _ => match rel with [] => false | _ => demo_match pat rel end)
         demo_climb.

(** The tree of the repository at [https://example.org/ds.git]. *)
Definition demo_repo : list (list string * node) :=
  [ (["pkg"], Dir); (["pkg"; "file.txt"], File (Bytes "hello"));
    (["tasks.json"],
     File (Json (PList [PDict [("id", PStr "t1"); ("instruction", PStr "do X")]]))) ].

Definition demo_git : Git :=
  mkGit (fun url ref =>
           if String.eqb url "https://example.org/ds.git" then Some demo_repo else None)
        (fun _ => Some "main") (fun _ _ => Some "abc") (fun _ _ => true) (fun _ _ => None).

Definition demo_id : string := "benchmark-tasks/basic".

Definition demo_cfg (steps : list pyval) : pydict :=
  [("id", PStr demo_id);
   ("source", PDict [("type", PStr "git"); ("url", PStr "https://example.org/ds.git")]);
   ("transforms", PList steps); ("manifest", PStr "tasks.json")].

Definition demo_registry (steps : list pyval) : pydict :=
  [(demo_id, PDict (demo_cfg steps))].

(** A project directory with a registry and nothing checked out. *)
Definition demo_files (steps : list pyval) : files_t :=
  list_to_map [ (["proj"], Dir); (["proj"; "configs"], Dir);
                (["proj"; "configs"; "registry.json"],
                 File (Json (PDict (demo_registry steps))));
                (["tmp"], Dir) ].

(** The same with an earlier checkout of the data set in place. *)
Definition installed_files (steps : list pyval) : files_t :=
  list_to_map [ (["proj"; "datasets"], Dir);
                (["proj"; "datasets"; "benchmark-tasks"], Dir);
                (["proj"; "datasets"; "benchmark-tasks"; "basic"], Dir);
                (["proj"; "datasets"; "benchmark-tasks"; "basic"; "old.txt"],
                 File (Bytes "old")) ]
  ∪ demo_files steps.

Definition world_of (m : files_t) : World :=
  mkWorld ["proj"] m ["tmp"] demo_glob (fun _ => "") demo_git [] Lookup [].

Definition demo_world (steps : list pyval) : World := world_of (demo_files steps).
Definition installed_world (steps : list pyval) : World := world_of (installed_files steps).

Definition demo_out : Path := of_string "datasets".
Definition demo_dst : list string := ["proj"; "datasets"; "benchmark-tasks"; "basic"].

Definition strip_step : pyval := PDict [("type", PStr "strip_prefix"); ("prefix", PStr "pkg/")].
Definition bogus_step : pyval := PDict [("type", PStr "bogus")].
Definition escaping_step : pyval :=
  PDict [("type", PStr "move"); ("from", PStr "pkg/file.txt");
         ("to", PStr "/proj/datasets/benchmark-tasks/basic/file.txt")].

(** A checkout with [update] set over an earlier one; the second transform
    step is of no known type. *)
Definition failing_run : outcome Path * World :=
  run (checkout_one demo_id demo_out true) (installed_world [strip_step; bogus_step]).

(** A checkout whose first transform step moves a file to an absolute path
    in the destination, and whose second step is of no known type. *)
Definition escaping_run : outcome Path * World :=
  run (checkout_one demo_id demo_out false) (demo_world [escaping_step; bogus_step]).

(** The same with a relative path that climbs out of the working
    directory. *)
Definition climbing_step : pyval :=
  PDict [("type", PStr "move"); ("from", PStr "pkg/file.txt");
         ("to", PStr "../../../proj/datasets/benchmark-tasks/basic/file.txt")].

Definition climbing_run : outcome Path * World :=
  run (checkout_one demo_id demo_out false) (demo_world [climbing_step; bogus_step]).

(** A checkout with [update] set over an earlier one, whose first step
    deletes what a pattern with [..] components finds, and whose second
    step is of no known type. *)
Definition reaching_step : pyval :=
  PDict [("type", PStr "delete");
         ("patterns", PList [PStr "../../../proj/datasets/benchmark-tasks/basic/old.txt"])].

Definition reaching_run : outcome Path * World :=
  run (checkout_one demo_id demo_out true) (installed_world [reaching_step; bogus_step]).

Ltac apart :=
  match goal with
  | H : _ `prefix_of` _ |- _ => destruct H as [? H]; simpl in H; discriminate H
  end.




End CheckoutDemo.

(** ** More on the task queue: counters, order, submissions *)

Module QueueMore.

Import Tasks Queue QueueFacts QueueInv QueueLease QueueViews.

(** The number of items with status [st]. *)
Definition count_status (st : Status) (items : list QueueItem) : nat :=
  length (filter (fun it => status it = st) items).

(** The state a run ends in. *)
Definition final (cs : list call) (s : State) : State :=
  List.last (fst (run cs s)) s.

(** The task ids of the submissions a run accepted, in the order of the
    calls. *)
Fixpoint accepted_ids (cs : list call) (rs : list reply) : list Z :=
  match cs, rs with
  | SubmitAnswer tid _ _ _ :: cs', Submitted (inl _) :: rs' => tid :: accepted_ids cs' rs'
  | _ :: cs', _ :: rs' => accepted_ids cs' rs'
  | _, _ => []
  end.

(** The acknowledgements of the submissions a run accepted. *)
Definition acks (rs : list reply) : list pydict :=
  flat_map (fun r => match r with Submitted (inl ack) => [ack] | _ => [] end) rs.

(** The lines a run prints when the queue logs its progress. *)
Fixpoint progress_lines (cs : list call) (rs : list reply) : list string :=
  match cs, rs with
  | NextTask _ :: cs', Leased (Some view) :: rs' =>
      match dict_get view "task_id", dict_get view "id" with
      | PInt i, PStr sid =>
          ("[queue] leasing task " +:+ str_of_Z i +:+ ": " +:+ sid)
          :: progress_lines cs' rs'
      | _, _ => progress_lines cs' rs'
      end
  | SubmitAnswer tid _ _ _ :: cs', Submitted (inl _) :: rs' =>
      ("[queue] completed task " +:+ str_of_Z tid) :: progress_lines cs' rs'
  | _ :: cs', _ :: rs' => progress_lines cs' rs'
  | _, _ => []
  end.

(** *** One call, in full *)

Lemma next_task_full now q w s' view :
  next_task now (q, w) = (s', Some view) ->
  exists (i : nat) (it : QueueItem),
    _items q !! i = Some it /\ status it = pending /\
    (forall (j : nat) (it0 : QueueItem),
        (j < i)%nat -> _items q !! j = Some it0 -> status it0 <> pending) /\
    view = lease_view (leased_item now it) /\
    s' = ({| _items := <[ i := leased_item now it ]> (_items q);
             _in_progress := {[ id it ]} ∪ _in_progress q;
             _completed := _completed q;
             _results_dir := _results_dir q;
             _grader := _grader q;
             log_progress := log_progress q |},
          if log_progress q
          then print ("[queue] leasing task " +:+ str_of_Z (id it) +:+ ": "
                      +:+ Tasks.id (spec it)) w
          else w).
Proof.
  unfold next_task. intros H.
  destruct (lease_first now (_items q)) as [[items' it']|] eqn:E; [|discriminate].
  destruct (lease_first_Some _ _ _ _ E) as (i & it & Hi & Hs & Hlt & -> & ->).
  inversion H; subst; clear H. exists i, it. simpl. repeat split; auto.
Qed.

Lemma submit_answer_full tid out t1 t2 q w s' ack :
  submit_answer tid out t1 t2 (q, w) = (s', inl ack) ->
  exists (it : QueueItem),
    0 <= tid < Z.of_nat (length (_items q)) /\
    _items q !! Z.to_nat tid = Some it /\ status it = in_progress /\
    let p_out := path_or_none out in
    let grade := fst (run_grader q it p_out) in
    let rec := result_record it p_out grade t1 in
    s' = ({| _items := <[ Z.to_nat tid := completed_item it t2 rec ]> (_items q);
             _in_progress := _in_progress q ∖ {[ id it ]};
             _completed := _completed q + 1;
             _results_dir := _results_dir q;
             _grader := _grader q;
             log_progress := log_progress q |},
          let w1 := {| dirs := dirs w;
                       files := <[ result_file q it := rec ]> (files w);
                       stdout := stdout w;
                       grader_calls := grader_calls w ++ snd (run_grader q it p_out) |} in
          if log_progress q
          then print ("[queue] completed task " +:+ str_of_Z (id it)) w1
          else w1) /\
    ack = [ ("ok", PBool true); ("grade", or_none grade);
            ("completed", PInt (_completed q + 1));
            ("total", PInt (Z.of_nat (length (_items q)))) ].
Proof.
  unfold submit_answer.
  destruct ((tid <? 0) || (Z.of_nat (length (_items q)) <=? tid)) eqn:Er; [inv_pair|].
  destruct (_items q !! Z.to_nat tid) as [it|] eqn:El; [|inv_pair].
  destruct (negb (bool_decide (status it = in_progress))) eqn:Es; [inv_pair|].
  destruct (run_grader q it _) as [g c] eqn:Eg. intros H. inversion H; subst; clear H.
  exists it. cbn [fst snd]. rewrite length_insert.
  apply orb_false_iff in Er as [E1 E2].
  apply negb_false_iff, bool_decide_eq_true in Es.
  split; [lia|]. split; [reflexivity|]. split; [exact Es|].
  cbv zeta. rewrite Eg. cbn [fst snd]. split; reflexivity.
Qed.

(** *** What the states of a run share *)

(** The items carry their index and their spec; the items before position
    [m] have been leased, the items from [m] on are pending; the set of ids
    in progress and the counter of completed items say what the items
    say. *)
Record Shape (specs : list TaskSpec) (m : nat) (s : State) : Prop := {
  sh_len : length (_items (fst s)) = length specs;
  sh_item : forall (i : nat) (it : QueueItem),
      _items (fst s) !! i = Some it ->
      id it = Z.of_nat i /\ specs !! i = Some (spec it) /\
      (status it = pending <-> (m <= i)%nat);
  sh_set : forall z : Z,
      z ∈ _in_progress (fst s) <->
      exists (i : nat) (it : QueueItem),
        _items (fst s) !! i = Some it /\ status it = in_progress /\ z = Z.of_nat i;
  sh_completed : _completed (fst s) = Z.of_nat (count_status completed (_items (fst s)))
}.

Lemma count_status_insert st items (i : nat) (it x : QueueItem) :
  items !! i = Some it ->
  (count_status st (<[ i := x ]> items) + (if decide (status it = st) then 1 else 0)
   = count_status st items + (if decide (status x = st) then 1 else 0))%nat.
Proof.
  unfold count_status.
  revert i. induction items as [|a r IH]; intros [|i] H; simpl in *; try discriminate.
  - inversion H; subst. rewrite !filter_cons.
    destruct (decide (status it = st)), (decide (status x = st)); simpl; lia.
  - specialize (IH i H). rewrite !filter_cons.
    destruct (decide (status a = st)); simpl; lia.
Qed.

Lemma count_status_total items :
  (count_status pending items + count_status in_progress items
   + count_status completed items = length items)%nat.
Proof.
  unfold count_status. induction items as [|a r IH]; simpl; [reflexivity|].
  rewrite !filter_cons.
  destruct (status a) eqn:E;
    repeat match goal with
           | |- context [decide (?x = ?y)] => destruct (decide (x = y)); try discriminate;
                                              try congruence
           end; simpl; lia.
Qed.

Lemma count_status_none st items :
  Forall (fun it => status it <> st) items -> count_status st items = 0%nat.
Proof.
  unfold count_status. induction 1 as [|a r Ha _ IH]; [reflexivity|].
  rewrite filter_cons. destruct (decide (status a = st)); [contradiction|exact IH].
Qed.

Lemma init_Shape specs dir g log w : Shape specs 0 (init specs dir g log w).
Proof.
  assert (forall i it,
             imap (fun i s => mkQueueItem (Z.of_nat i) s pending None None None) specs !! i
             = Some it ->
             exists sp, specs !! i = Some sp /\
                        it = mkQueueItem (Z.of_nat i) sp pending None None None) as Hlook.
  { intros i it H. rewrite list_lookup_imap in H.
    destruct (specs !! i) as [sp|]; simpl in H; inversion H. eauto. }
  split; cbn [init fst _items _in_progress _completed].
  - apply length_imap.
  - intros i it H. destruct (Hlook i it H) as (sp & Hsp & ->). simpl.
    repeat split; auto. intros _. lia.
  - intros z. split; [intros Hz; set_solver|].
    intros (i & it & H & Hs & _). destruct (Hlook i it H) as (sp & _ & ->). discriminate Hs.
  - rewrite count_status_none; [reflexivity|].
    apply Forall_lookup. intros i it H.
    destruct (Hlook i it H) as (sp & _ & ->). simpl. discriminate.
Qed.

Lemma Shape_first_pending specs m s (i : nat) (it : QueueItem) :
  Shape specs m s ->
  _items (fst s) !! i = Some it -> status it = pending ->
  (forall (j : nat) (it0 : QueueItem),
      (j < i)%nat -> _items (fst s) !! j = Some it0 -> status it0 <> pending) ->
  i = m.
Proof.
  intros [Hlen Hitem _ _] Hi Hs Hlt.
  destruct (Hitem i it Hi) as (_ & _ & Hp). apply Hp in Hs.
  destruct (decide (i = m)) as [|Hne]; [assumption|exfalso].
  assert (m < length (_items (fst s)))%nat as Hm.
  { apply lookup_lt_Some in Hi. lia. }
  apply lookup_lt_is_Some in Hm as [x Hx].
  apply (Hlt m x); [lia|exact Hx|].
  destruct (Hitem m x Hx) as (_ & _ & Hpx). apply Hpx. lia.
Qed.

Lemma lease_Shape specs m now s :
  Shape specs m s ->
  match next_task now s with
  | (s', Some view) =>
      exists sp, specs !! m = Some sp /\ view = view_of m sp /\
                 Shape specs (S m) s' /\
                 _in_progress (fst s') = {[ Z.of_nat m ]} ∪ _in_progress (fst s) /\
                 (Z.of_nat m ∉ _in_progress (fst s)) /\
                 _completed (fst s') = _completed (fst s)
  | (s', None) => s' = s /\ (length specs <= m)%nat
  end.
Proof.
  intros HS. destruct (next_task now s) as [s' [view|]] eqn:E.
  - destruct s as [q w].
    apply next_task_full in E as (i & it & Hi & Hs & Hlt & -> & ->).
    assert (i = m) as -> by (eapply Shape_first_pending; eauto).
    destruct HS as [Hlen Hitem Hset Hc]. cbn [fst] in *.
    destruct (Hitem m it Hi) as (Hid & Hsp & Hp).
    exists (spec it). split; [exact Hsp|]. split.
    { unfold lease_view, view_of, leased_item. cbn [id spec]. rewrite Hid. reflexivity. }
    assert (Z.of_nat m ∉ _in_progress q) as Hfresh.
    { intros Hin. apply Hset in Hin as (j & x & Hj & Hsx & Hz).
      apply Nat2Z.inj in Hz. subst j. rewrite Hi in Hj. inversion Hj; subst x.
      rewrite Hs in Hsx. discriminate. }
    split; [|cbn [fst _in_progress _completed]; rewrite Hid; auto].
    split; cbn [fst _items _in_progress _completed].
    + rewrite length_insert. exact Hlen.
    + intros j x Hj. destruct (decide (m = j)) as [<-|Hne].
      * rewrite list_lookup_insert_eq in Hj by (eapply lookup_lt_Some; eauto).
        inversion Hj; subst x. cbn [leased_item id spec status].
        repeat split; auto; [discriminate|lia].
      * rewrite list_lookup_insert_ne in Hj by auto.
        destruct (Hitem j x Hj) as (H1 & H2 & H3). repeat split; auto.
        -- intros Hpx. apply H3 in Hpx. lia.
        -- intros Hle. apply H3. lia.
    + intros z. rewrite elem_of_union, elem_of_singleton, Hset, Hid. split.
      * intros [->|(j & x & Hj & Hsx & ->)].
        -- exists m, (leased_item now it).
           rewrite list_lookup_insert_eq by (eapply lookup_lt_Some; eauto). auto.
        -- exists j, x. split; [|auto].
           rewrite list_lookup_insert_ne; auto.
           intros <-. rewrite Hi in Hj. inversion Hj; subst x. rewrite Hs in Hsx. discriminate.
      * intros (j & x & Hj & Hsx & ->). destruct (decide (m = j)) as [<-|Hne]; [left; reflexivity|].
        right. rewrite list_lookup_insert_ne in Hj by auto. eauto.
    + rewrite Hc. f_equal.
      pose proof (count_status_insert completed _ _ _ (leased_item now it) Hi) as X.
      cbn [leased_item status] in X. rewrite Hs in X.
      destruct (decide (pending = completed)); [discriminate|].
      destruct (decide (in_progress = completed)); [discriminate|]. lia.
  - apply next_task_None in E as [-> Hnone]. split; [reflexivity|].
    destruct HS as [Hlen Hitem _ _].
    destruct (decide (length specs <= m)%nat) as [|Hgt]; [assumption|exfalso].
    assert (m < length (_items (fst s)))%nat as Hm by lia.
    apply lookup_lt_is_Some in Hm as [x Hx].
    apply (Hnone x); [eapply list_elem_of_lookup_2; eauto|].
    destruct (Hitem m x Hx) as (_ & _ & Hp). apply Hp. lia.
Qed.

Lemma submit_Shape specs m tid out t1 t2 s :
  Shape specs m s ->
  match submit_answer tid out t1 t2 s with
  | (s', inl ack) =>
      tid ∈ _in_progress (fst s) /\
      Shape specs m s' /\
      _in_progress (fst s') = _in_progress (fst s) ∖ {[ tid ]} /\
      _completed (fst s') = _completed (fst s) + 1 /\
      dict_get ack "ok" = PBool true /\
      dict_get ack "completed" = PInt (_completed (fst s) + 1) /\
      dict_get ack "total" = PInt (Z.of_nat (length specs))
  | (s', inr e) => s' = s
  end.
Proof.
  intros HS. destruct (submit_answer tid out t1 t2 s) as [s' [ack|e]] eqn:E;
    [|eapply submit_answer_Raise; eauto].
  destruct s as [q w].
  apply submit_answer_full in E as (it & Hr & Hi & Hs & E). cbv zeta in E.
  destruct E as [-> ->].
  destruct HS as [Hlen Hitem Hset Hc]. cbn [fst] in *.
  destruct (Hitem _ it Hi) as (Hid & Hsp & Hp).
  assert (id it = tid) as Htid by (rewrite Hid; lia).
  split; [apply Hset; exists (Z.to_nat tid), it; repeat split; auto; lia|].
  split; [|cbn [fst _in_progress _completed dict_get String.eqb Ascii.eqb Bool.eqb];
           rewrite Htid, Hlen; auto].
  split; cbn [fst _items _in_progress _completed].
  - rewrite length_insert. exact Hlen.
  - intros j x Hj. destruct (decide (Z.to_nat tid = j)) as [<-|Hne].
    + rewrite list_lookup_insert_eq in Hj by (eapply lookup_lt_Some; eauto).
      inversion Hj; subst x. cbn [completed_item id spec status].
      repeat split; auto; [discriminate|].
      intros Hle. apply Hp in Hle. rewrite Hs in Hle. discriminate.
    + rewrite list_lookup_insert_ne in Hj by auto. auto.
  - intros z. rewrite elem_of_difference, elem_of_singleton, Hset, Htid. split.
    + intros [(j & x & Hj & Hsx & ->) Hne]. exists j, x. split; [|auto].
      rewrite list_lookup_insert_ne; auto. intros <-. apply Hne. lia.
    + intros (j & x & Hj & Hsx & ->). destruct (decide (Z.to_nat tid = j)) as [<-|Hne].
      * rewrite list_lookup_insert_eq in Hj by (eapply lookup_lt_Some; eauto).
        inversion Hj; subst x. discriminate Hsx.
      * rewrite list_lookup_insert_ne in Hj by auto. split; [eauto|]. lia.
  - rewrite Hc.
    pose proof (count_status_insert completed _ _ _
                  (completed_item it t2
                     (result_record it (path_or_none out)
                        (fst (run_grader q it (path_or_none out))) t1)) Hi) as X.
    cbn [completed_item status] in X. rewrite Hs in X.
    destruct (decide (completed = completed)); [|congruence].
    destruct (decide (in_progress = completed)); [discriminate|]. lia.
Qed.

Lemma step_Shape specs m c s :
  Shape specs m s -> exists m', (m <= m')%nat /\ Shape specs m' (fst (step c s)).
Proof.
  intros HS. destruct c as [now|tid out t1 t2]; cbn [step].
  - pose proof (lease_Shape specs m now s HS) as H.
    destruct (next_task now s) as [s' [view|]]; cbn [fst].
    + destruct H as (sp & _ & _ & H & _). exists (S m). split; [lia|exact H].
    + destruct H as [-> _]. exists m. split; [lia|exact HS].
  - pose proof (submit_Shape specs m tid out t1 t2 s HS) as H.
    destruct (submit_answer tid out t1 t2 s) as [s' [ack|e]]; cbn [fst].
    + destruct H as (_ & H & _). exists m. split; [lia|exact H].
    + subst s'. exists m. split; [lia|exact HS].
Qed.

Lemma run_Shape specs cs :
  forall m s, Shape specs m s ->
              Forall (fun s' => exists m', Shape specs m' s') (fst (run cs s)).
Proof.
  induction cs as [|c cs IH]; intros m s HS.
  - simpl. constructor; [eauto|constructor].
  - rewrite run_cons. cbn [fst]. constructor; [eauto|].
    destruct (step_Shape specs m c s HS) as (m' & _ & HS'). eapply IH; eauto.
Qed.

Lemma Shape_ids specs m s :
  Shape specs m s ->
  map id (_items (fst s)) = map Z.of_nat (seq 0 (length specs)).
Proof.
  intros [Hlen Hitem _ _]. apply list_eq. intros i.
  rewrite !list_lookup_fmap.
  destruct (_items (fst s) !! i) as [it|] eqn:E; simpl.
  - destruct (Hitem i it E) as (-> & _ & _).
    rewrite lookup_seq_lt; [reflexivity|]. apply lookup_lt_Some in E. lia.
  - rewrite lookup_seq_ge; [reflexivity|]. apply lookup_ge_None in E. lia.
Qed.

Lemma Shape_size specs m s :
  Shape specs m s ->
  size (_in_progress (fst s)) = count_status in_progress (_items (fst s)).
Proof.
  intros HS. pose proof (Shape_ids specs m s HS) as Hids.
  destruct HS as [Hlen Hitem Hset _].
  set (l := filter (fun it => status it = in_progress) (_items (fst s))).
  assert (_in_progress (fst s) = list_to_set (map id l)) as ->.
  { apply set_eq. intros z. rewrite Hset, elem_of_list_to_set, list_elem_of_fmap. split.
    - intros (i & it & Hi & Hs & ->). exists it.
      destruct (Hitem i it Hi) as (Hid & _). split; [auto|].
      apply list_elem_of_filter. split; [exact Hs|]. eapply list_elem_of_lookup_2; eauto.
    - intros (it & -> & Hin). apply list_elem_of_filter in Hin as [Hs Hin].
      apply list_elem_of_lookup_1 in Hin as [i Hi]. exists i, it.
      destruct (Hitem i it Hi) as (Hid & _). auto. }
  rewrite size_list_to_set; [unfold count_status, l; apply length_map|].
  apply (sublist_NoDup _ (map id (_items (fst s)))).
  - rewrite Hids. apply NoDup_fmap_2; [intros a b; apply Nat2Z.inj|apply NoDup_seq].
  - apply fmap_sublist, sublist_filter.
Qed.

(** X1.  In every state a run of [next_task] and [submit_answer] calls
    reaches from a queue the constructor built, the books balance: the
    number of pending items ([pending_count]), the size of the set of ids
    in progress and the counter of completed items ([completed_count]) add
    up to the number of task specs; the set holds exactly the ids of the
    items whose status is in progress; and the counter is the number of
    items whose status is completed. *)
Theorem queue_counts_add_up
    (specs : list TaskSpec) (dir : Path) (g : option Grader) (log : bool) (w : World)
    (cs : list call) :
  Forall (fun s : State =>
            let q := fst s in
            length (_items q) = length specs /\
            pending_count q + Z.of_nat (size (_in_progress q)) + completed_count q
            = Z.of_nat (length specs) /\
            (forall z : Z,
                z ∈ _in_progress q <->
                exists it, it ∈ _items q /\ id it = z /\ status it = in_progress) /\
            completed_count q = Z.of_nat (count_status completed (_items q)))
         (fst (run cs (init specs dir g log w))).
Proof.
  eapply Forall_impl; [apply (run_Shape specs cs 0), init_Shape|].
  intros s (m & HS). cbv zeta.
  pose proof (Shape_size specs m s HS) as Hsize.
  destruct HS as [Hlen Hitem Hset Hc].
  split; [exact Hlen|]. split; [|split; [|exact Hc]].
  - unfold pending_count, completed_count. rewrite Hsize, Hc, <- Hlen.
    rewrite <- (count_status_total (_items (fst s))). unfold count_status. lia.
  - intros z. rewrite Hset. split.
    + intros (i & it & Hi & Hs & ->). exists it.
      destruct (Hitem i it Hi) as (Hid & _).
      split; [eapply list_elem_of_lookup_2; eauto|auto].
    + intros (it & Hin & <- & Hs). apply list_elem_of_lookup_1 in Hin as [i Hi].
      exists i, it. destruct (Hitem i it Hi) as (Hid & _). auto.
Qed.

Lemma run_leases_order specs cs :
  forall m s,
    Shape specs m s ->
    exists k n : nat,
      (k <= length specs - m)%nat /\
      leases (snd (run cs s))
      = map Some (take k (drop m (imap view_of specs))) ++ replicate n None /\
      (0 < n -> length specs <= m + k)%nat.
Proof.
  induction cs as [|c cs IH]; intros m s HS.
  - exists 0%nat, 0%nat. repeat split; simpl; lia.
  - rewrite run_cons. cbn [snd leases flat_map].
    destruct c as [now|tid out t1 t2]; cbn [step].
    + pose proof (lease_Shape specs m now s HS) as H.
      destruct (next_task now s) as [s' [view|]]; cbn [fst snd].
      * destruct H as (sp & Hsp & -> & HS' & _).
        destruct (IH (S m) s' HS') as (k & n & Hk & Hl & Hn).
        apply lookup_lt_Some in Hsp as Hlt.
        exists (S k), n. split; [lia|]. split; [|lia].
        change (leases (snd (run cs s'))) with
          (flat_map (fun r => match r with Leased v => [v] | Submitted _ => [] end)
             (snd (run cs s'))) in Hl.
        rewrite Hl.
        rewrite (drop_S (imap view_of specs) (view_of m sp) m)
          by (rewrite list_lookup_imap, Hsp; reflexivity).
        reflexivity.
      * destruct H as [-> Hge]. destruct (IH m s HS) as (k & n & Hk & Hl & Hn).
        exists 0%nat, (S n). split; [lia|]. split; [|lia].
        change (leases (snd (run cs s))) with
          (flat_map (fun r => match r with Leased v => [v] | Submitted _ => [] end)
             (snd (run cs s))) in Hl.
        rewrite Hl.
        rewrite (drop_ge (imap view_of specs) m) by (rewrite length_imap; lia).
        rewrite take_nil. reflexivity.
    + pose proof (submit_Shape specs m tid out t1 t2 s HS) as H.
      destruct (submit_answer tid out t1 t2 s) as [s' [ack|e]]; cbn [fst snd app].
      * destruct H as (_ & HS' & _). exact (IH m s' HS').
      * subst s'. exact (IH m s HS).
Qed.


Lemma Shape_in_progress_lt specs m s (z : Z) :
  Shape specs m s -> z ∈ _in_progress (fst s) -> z < Z.of_nat m.
Proof.
  intros [_ Hitem Hset _] Hz. apply Hset in Hz as (i & it & Hi & Hs & ->).
  destruct (Hitem i it Hi) as (_ & _ & Hp).
  destruct (decide (m <= i)%nat) as [Hle|]; [|lia].
  apply Hp in Hle. rewrite Hs in Hle. discriminate.
Qed.

Lemma leased_ids_ge specs cs :
  forall m s, Shape specs m s ->
              forall z, z ∈ leased_ids (snd (run cs s)) -> Z.of_nat m <= z.
Proof.
  induction cs as [|c cs IH]; intros m s HS z Hz.
  - simpl in Hz. inversion Hz.
  - rewrite run_cons in Hz. cbn [snd leased_ids flat_map] in Hz.
    destruct c as [now|tid out t1 t2]; cbn [step] in Hz.
    + pose proof (lease_Shape specs m now s HS) as H.
      destruct (next_task now s) as [s' [view|]]; cbn [fst snd] in Hz.
      * destruct H as (sp & _ & -> & HS' & _). cbn in Hz.
        apply elem_of_cons in Hz as [->|Hz]; [lia|].
        pose proof (IH (S m) s' HS' z Hz). lia.
      * destruct H as [-> _]. exact (IH m s HS z Hz).
    + pose proof (submit_Shape specs m tid out t1 t2 s HS) as H.
      destruct (submit_answer tid out t1 t2 s) as [s' [ack|e]]; cbn [fst snd app] in Hz.
      * destruct H as (_ & HS' & _). exact (IH m s' HS' z Hz).
      * subst s'. exact (IH m s HS z Hz).
Qed.

Lemma leased_ids_take (n : nat) (rs : list reply) (z : Z) :
  z ∈ leased_ids (take n rs) -> z ∈ leased_ids rs.
Proof.
  intros H. rewrite <- (take_drop n rs). unfold leased_ids in *.
  rewrite flat_map_app. apply elem_of_app. now left.
Qed.

Lemma accepted_leased specs cs :
  forall m s,
    Shape specs m s ->
    forall (n : nat) tid out t1 t2 ack,
      cs !! n = Some (SubmitAnswer tid out t1 t2) ->
      snd (run cs s) !! n = Some (Submitted (inl ack)) ->
      (tid ∈ _in_progress (fst s) \/ tid ∈ leased_ids (take n (snd (run cs s)))) /\
      (tid ∉ accepted_ids (take n cs) (take n (snd (run cs s)))).
Proof.
  induction cs as [|c cs IH]; intros m s HS n tid out t1 t2 ack Hc Hr; [discriminate|].
  rewrite run_cons in *. cbn [snd] in *.
  destruct n as [|n].
  - cbn in Hc, Hr. inversion Hc; subst c; clear Hc. cbn [step] in Hr.
    pose proof (submit_Shape specs m tid out t1 t2 s HS) as H.
    destruct (submit_answer tid out t1 t2 s) as [s' [a|e]]; cbn [snd] in Hr; [|discriminate].
    destruct H as (Hin & _). split; [left; exact Hin|]. cbn. apply not_elem_of_nil.
  - cbn [lookup list_lookup] in Hc, Hr. cbn [take].
    destruct c as [now|tid0 out0 u1 u2]; cbn [step] in *.
    + pose proof (lease_Shape specs m now s HS) as H.
      destruct (next_task now s) as [s' [view|]]; cbn [fst snd] in *.
      * destruct H as (sp & _ & -> & HS' & Hset & _).
        destruct (IH (S m) s' HS' n tid out t1 t2 ack Hc Hr) as [[Hin|Hin] Hacc].
        -- rewrite Hset in Hin. apply elem_of_union in Hin as [Hin|Hin].
           ++ apply elem_of_singleton in Hin. subst tid.
              split; [right; cbn; left|exact Hacc].
           ++ split; [left; exact Hin|exact Hacc].
        -- split; [right; cbn; right; exact Hin|exact Hacc].
      * destruct H as [-> _].
        destruct (IH m s HS n tid out t1 t2 ack Hc Hr) as [Hin Hacc].
        split; [exact Hin|exact Hacc].
    + pose proof (submit_Shape specs m tid0 out0 u1 u2 s HS) as H.
      destruct (submit_answer tid0 out0 u1 u2 s) as [s' [a|e]]; cbn [fst snd] in *.
      * destruct H as (Hin0 & HS' & Hset & _).
        destruct (IH m s' HS' n tid out t1 t2 ack Hc Hr) as [Hin Hacc].
        assert (tid <> tid0) as Hne.
        { destruct Hin as [Hin|Hin].
          - rewrite Hset in Hin. apply elem_of_difference in Hin as [_ Hn].
            intros ->. apply Hn. now apply elem_of_singleton.
          - apply leased_ids_take in Hin.
            pose proof (leased_ids_ge specs cs m s' HS' tid Hin).
            pose proof (Shape_in_progress_lt specs m s tid0 HS Hin0). lia. }
        split.
        -- destruct Hin as [Hin|Hin]; [left|right; exact Hin].
           rewrite Hset in Hin. now apply elem_of_difference in Hin as [Hin _].
        -- cbn. apply not_elem_of_cons. split; [exact Hne|exact Hacc].
      * subst s'. destruct (IH m s HS n tid out t1 t2 ack Hc Hr) as [Hin Hacc].
        split; [exact Hin|exact Hacc].
Qed.


Lemma final_nil s : final [] s = s.
Proof. reflexivity. Qed.

Lemma last_default (l : list State) (x d d' : State) :
  List.last (x :: l) d = List.last (x :: l) d'.
Proof. revert x. induction l as [|y l IH]; intros x; [reflexivity|]. exact (IH y). Qed.

Lemma final_cons c cs s : final (c :: cs) s = final cs (fst (step c s)).
Proof.
  unfold final. rewrite run_cons. cbn [fst].
  destruct (run_head cs (fst (step c s))) as [ss ->].
  change (List.last (s :: fst (step c s) :: ss) s)
    with (List.last (fst (step c s) :: ss) s).
  apply last_default.
Qed.

Lemma final_Shape specs cs :
  forall m s, Shape specs m s -> exists m', Shape specs m' (final cs s).
Proof.
  induction cs as [|c cs IH]; intros m s HS; [rewrite final_nil; eauto|].
  rewrite final_cons. destruct (step_Shape specs m c s HS) as (m' & _ & HS'). eauto.
Qed.

(** What the acknowledgement of an accepted submission says. *)
Definition ack_summary (ack : pydict) : pyval * pyval * pyval :=
  (dict_get ack "ok", dict_get ack "completed", dict_get ack "total").

Lemma run_acks specs cs :
  forall m s,
    Shape specs m s ->
    map ack_summary (acks (snd (run cs s)))
    = map (fun k : nat => (PBool true, PInt (_completed (fst s) + Z.of_nat k + 1),
                           PInt (Z.of_nat (length specs))))
          (seq 0 (length (acks (snd (run cs s))))) /\
    _completed (fst (final cs s))
    = _completed (fst s) + Z.of_nat (length (acks (snd (run cs s)))).
Proof.
  induction cs as [|c cs IH]; intros m s HS.
  - simpl. split; [reflexivity|]. rewrite final_nil. lia.
  - rewrite run_cons, final_cons. cbn [snd acks flat_map].
    destruct c as [now|tid out t1 t2]; cbn [step].
    + pose proof (lease_Shape specs m now s HS) as H.
      destruct (next_task now s) as [s' [view|]]; cbn [fst snd app].
      * destruct H as (sp & _ & _ & HS' & _ & _ & Hc). rewrite <- Hc.
        exact (IH (S m) s' HS').
      * destruct H as [-> _]. exact (IH m s HS).
    + pose proof (submit_Shape specs m tid out t1 t2 s HS) as H.
      destruct (submit_answer tid out t1 t2 s) as [s' [ack|e]]; cbn [fst snd app].
      * destruct H as (_ & HS' & _ & Hc & Hok & Hco & Hto).
        destruct (IH m s' HS') as [IH1 IH2].
        change (flat_map _ (snd (run cs s'))) with (acks (snd (run cs s'))).
        cbn [map length seq]. split.
        -- f_equal.
           ++ unfold ack_summary. rewrite Hok, Hco, Hto. repeat f_equal. lia.
           ++ rewrite IH1, <- seq_shift, map_map. apply map_ext. intros k.
              rewrite Hc. do 3 f_equal. lia.
        -- rewrite IH2, Hc. lia.
      * subst s'. exact (IH m s HS).
Qed.

(** X4.  The acknowledgements count up.  Along every run of calls on a
    queue the constructor built, the [k]-th accepted submission (counted
    from one) is acknowledged with [ok] true, [completed] equal to [k] and
    [total] equal to the number of task specs; [completed_count] at the end
    of the run is the number of submissions accepted, and that is at most
    the number of task specs. *)
Theorem submit_answer_acknowledgements
    (specs : list TaskSpec) (dir : Path) (g : option Grader) (log : bool) (w : World)
    (cs : list call) :
  map ack_summary (acks (snd (run cs (init specs dir g log w))))
  = map (fun k : nat => (PBool true, PInt (Z.of_nat k + 1), PInt (Z.of_nat (length specs))))
        (seq 0 (length (acks (snd (run cs (init specs dir g log w)))))) /\
  completed_count (fst (final cs (init specs dir g log w)))
  = Z.of_nat (length (acks (snd (run cs (init specs dir g log w))))) /\
  (length (acks (snd (run cs (init specs dir g log w)))) <= length specs)%nat.
Proof.
  destruct (run_acks specs cs 0 _ (init_Shape specs dir g log w)) as [H1 H2].
  cbn [init fst _completed] in H1, H2.
  split; [exact H1|]. split; [exact H2|].
  destruct (final_Shape specs cs 0 _ (init_Shape specs dir g log w)) as (m' & HS).
  pose proof (sh_completed _ _ _ HS) as Hc. pose proof (sh_len _ _ _ HS) as Hl.
  pose proof (count_status_total (_items (fst (final cs (init specs dir g log w))))).
  unfold completed_count in H2. lia.
Qed.

Lemma progress_lines_cons c cs r rs :
  progress_lines (c :: cs) (r :: rs) = progress_lines [c] [r] ++ progress_lines cs rs.
Proof.
  destruct c as [now|tid out t1 t2], r as [[view|]|[ack|e]]; cbn [progress_lines]; auto.
  destruct (dict_get view "task_id"); auto. destruct (dict_get view "id"); auto.
Qed.

Lemma step_stdout specs m c s :
  Shape specs m s ->
  stdout (snd (fst (step c s)))
  = stdout (snd s) ++ (if log_progress (fst s)
                       then progress_lines [c] [snd (step c s)] else []) /\
  log_progress (fst (fst (step c s))) = log_progress (fst s).
Proof.
  intros HS. destruct c as [now|tid out t1 t2]; cbn [step].
  - destruct (next_task now s) as [s' [view|]] eqn:E; cbn [fst snd progress_lines].
    + destruct s as [q w].
      apply next_task_full in E as (i & it & Hi & Hs & Hlt & -> & ->).
      cbn [fst snd log_progress lease_view leased_item dict_get String.eqb Ascii.eqb
             Bool.eqb id spec].
      destruct (log_progress q); cbn [print stdout]; rewrite ?app_nil_r; auto.
    + apply next_task_None in E as [-> _]. destruct (log_progress (fst s));
        rewrite app_nil_r; auto.
  - destruct (submit_answer tid out t1 t2 s) as [s' [ack|e]] eqn:E;
      cbn [fst snd progress_lines].
    + destruct s as [q w].
      apply submit_answer_full in E as (it & Hr & Hi & Hs & E). cbv zeta in E.
      destruct E as [-> _].
      destruct (sh_item _ _ _ HS _ it Hi) as (Hid & _).
      assert (id it = tid) as -> by (rewrite Hid; lia).
      cbn [fst snd log_progress].
      destruct (log_progress q); cbn [print stdout]; rewrite ?app_nil_r; auto.
    + apply submit_answer_Raise in E as ->. destruct (log_progress (fst s));
        rewrite app_nil_r; auto.
Qed.

Lemma run_stdout specs cs :
  forall m s,
    Shape specs m s ->
    stdout (snd (final cs s))
    = stdout (snd s) ++ (if log_progress (fst s)
                         then progress_lines cs (snd (run cs s)) else []).
Proof.
  induction cs as [|c cs IH]; intros m s HS.
  - rewrite final_nil. simpl. destruct (log_progress (fst s)); now rewrite app_nil_r.
  - rewrite final_cons, run_cons. cbn [snd].
    destruct (step_Shape specs m c s HS) as (m' & _ & HS').
    destruct (step_stdout specs m c s HS) as [Ho Hl].
    rewrite progress_lines_cons, (IH m' _ HS'), Ho, Hl.
    destruct (log_progress (fst s)); rewrite <- app_assoc; reflexivity.
Qed.

(** X5.  What the queue prints.  A queue built with [log_progress] off
    prints nothing, whatever calls are made.  A queue built with it on
    prints exactly one line for every [next_task] call that hands out a
    task ([[queue] leasing task <task id>: <spec id>]) and one for every
    accepted submission ([[queue] completed task <task id>]), in the order
    of the calls; a [next_task] that finds nothing and a rejected
    submission print nothing. *)
Theorem queue_progress_lines
    (specs : list TaskSpec) (dir : Path) (g : option Grader) (log : bool) (w : World)
    (cs : list call) :
  stdout (snd (final cs (init specs dir g log w)))
  = stdout w ++ (if log
                 then progress_lines cs (snd (run cs (init specs dir g log w)))
                 else []).
Proof. exact (run_stdout specs cs 0 _ (init_Shape specs dir g log w)). Qed.

End QueueMore.

(** ** Leases are exclusive *)

Module QueueExclusive.

Import Tasks Queue QueueFacts QueueInv QueueLease QueueViews QueueMore.

(** The views a run handed out, in the order of the calls. *)
Definition leased_views (rs : list reply) : list pydict :=
  flat_map (fun r => match r with Leased (Some view) => [view] | _ => [] end) rs.

Lemma leased_views_leases (rs : list reply) :
  leased_views rs = omap (fun v : option pydict => v) (leases rs).
Proof.
  induction rs as [|r rs IH]; [reflexivity|].
  unfold leased_views, leases in *. cbn [flat_map].
  destruct r as [[v|]|ack]; cbn [app omap list_omap]; rewrite ?IH; reflexivity.
Qed.

Lemma omap_some_none {A} (l : list A) (n : nat) :
  omap (fun v : option A => v) (map Some l ++ replicate n None) = l.
Proof.
  induction l as [|x l IH]; cbn [map app omap list_omap].
  - induction n as [|n IHn]; [reflexivity|exact IHn].
  - now rewrite IH.
Qed.

Lemma task_ids_of_views (specs : list TaskSpec) :
  map (fun v => dict_get v "task_id") (imap view_of specs)
  = map (fun i => PInt (Z.of_nat i)) (seq 0 (length specs)).
Proof.
  assert (forall (m : nat) (l : list TaskSpec),
             map (fun v => dict_get v "task_id") (imap (fun i => view_of (m + i)) l)
             = map (fun i => PInt (Z.of_nat i)) (seq m (length l))) as H.
  { intros m l. revert m. induction l as [|sp l IH]; intros m; [reflexivity|].
    cbn [imap map length seq]. f_equal.
    - cbn. now rewrite Nat.add_0_r.
    - rewrite <- (IH (S m)). f_equal. apply imap_ext. intros i x _. cbn.
      now rewrite Nat.add_succ_r. }
  exact (H 0%nat specs).
Qed.


End QueueExclusive.

(** ** More on manifests and dataset ids ([datasets/tasks.py], [datasets/registry.py]) *)

Module TasksMore.

Import Tasks TasksFacts.

(** ["/" in s] *)
Fixpoint contains_slash (s : string) : bool :=
  match s with
  | EmptyString => false
  | String c s' => Ascii.eqb c "/"%char || contains_slash s'
  end.

(** [_normalize_dataset_id] of [tasks.py] *)
Definition _normalize_dataset_id (dataset_id : string) : string :=
  if contains_slash dataset_id then dataset_id else "benchmark-tasks/" +:+ dataset_id.

(** [normalize_id] of [registry.py] *)
Definition normalize_id (i : string) : string :=
  if contains_slash i then i else "benchmark-tasks/" +:+ i.

Lemma contains_slash_app (a b : string) :
  contains_slash (a +:+ b) = contains_slash a || contains_slash b.
Proof.
  induction a as [|c a IH]; simpl; [reflexivity|].
  rewrite IH. now rewrite orb_assoc.
Qed.

(** X6.  Dataset ids are qualified once.  [_normalize_dataset_id] leaves
    an id with a slash alone and puts [benchmark-tasks/] before any other;
    what it returns always has a slash, so normalising twice is the same as
    normalising once; and [normalize_id] of [registry.py] is the same
    function. *)
Theorem normalize_dataset_id_idempotent (dataset_id : string) :
  contains_slash (_normalize_dataset_id dataset_id) = true /\
  _normalize_dataset_id (_normalize_dataset_id dataset_id)
  = _normalize_dataset_id dataset_id /\
  normalize_id dataset_id = _normalize_dataset_id dataset_id /\
  _normalize_dataset_id dataset_id
  = (if contains_slash dataset_id then dataset_id
     else "benchmark-tasks/" +:+ dataset_id).
Proof.
  assert (contains_slash (_normalize_dataset_id dataset_id) = true) as H.
  { unfold _normalize_dataset_id. destruct (contains_slash dataset_id) eqn:E; [exact E|].
    rewrite contains_slash_app. reflexivity. }
  split; [exact H|]. split; [|split; reflexivity].
  unfold _normalize_dataset_id at 1. rewrite H. reflexivity.
Qed.

Lemma normalize_app (seen a b : list string) :
  normalize seen (a ++ b) = normalize (normalize seen a) b.
Proof.
  revert seen. induction a as [|x a IH]; intros seen; simpl; [reflexivity|].
  destruct (String.eqb x ".."); apply IH.
Qed.

Lemma resolve_joinpath_clean (cwd : list string) (base p : Path) :
  is_absolute p = false -> ".." ∉ parts p ->
  resolve cwd (joinpath base p) = mkPath "/" (parts (resolve cwd base) ++ parts p).
Proof.
  intros Hrel Hclean. unfold resolve, joinpath. rewrite Hrel.
  unfold is_absolute. cbn [parts root]. f_equal.
  destruct (negb (String.eqb (root base) ""));
    rewrite normalize_app, (KeepFacts.normalize_clean (parts p)); auto.
Qed.


Lemma dict_has_filter (P : string -> bool) (d : pydict) (k : string) :
  dict_has (filter (fun kv => P (fst kv) = true) d) k = P k && dict_has d k.
Proof.
  unfold pydict in *.
  induction d as [|[k' v] d IH]; [cbn; now rewrite andb_false_r|].
  rewrite filter_cons. cbn [fst].
  destruct (decide (P k' = true)) as [Hp|Hp]; cbn [dict_has];
    destruct (String.eqb_spec k' k) as [->|Hne]; auto.
  - now rewrite Hp.
  - apply not_true_is_false in Hp. rewrite IH, Hp. reflexivity.
Qed.

Lemma dict_get_filter (P : string -> bool) (d : pydict) (k : string) :
  P k = true ->
  dict_get (filter (fun kv => P (fst kv) = true) d) k = dict_get d k.
Proof.
  intros Hk. unfold pydict in *. induction d as [|[k' v] d IH]; [reflexivity|].
  rewrite filter_cons. cbn [fst].
  destruct (decide (P k' = true)) as [Hp|Hp]; cbn [dict_get];
    destruct (String.eqb_spec k' k) as [->|Hne]; auto.
  congruence.
Qed.

Lemma meta_filter (d : pydict) :
  filter (fun kv : string * pyval => reserved_key (fst kv) = false) d
  = filter (fun kv => negb (reserved_key (fst kv)) = true) d.
Proof.
  apply list_filter_iff. intros [k v]. cbn [fst]. destruct (reserved_key k); split; auto;
    discriminate.
Qed.

(** X8.  What goes into a task's metadata.  For a manifest [_parse_tasks]
    gets through, be it a list of records or an object with the list under
    [tasks], the metadata of each task are the entries of its record other
    than [id], [name], [instruction], [input] and [answer]: none of these
    five keys is in the metadata, every other key of the record is, with
    the value the record gives it, and the keys keep the order they have in
    the record. *)
Theorem parse_tasks_meta
    (repr_other : pyval -> string) (cwd : list string) (obj : pyval) (raw : list pyval)
    (dataset_root : Path) (specs : list TaskSpec) :
  records_of obj raw ->
  _parse_tasks repr_other cwd obj dataset_root = Return specs ->
  length specs = length raw /\
  forall (n : nat) (d : pydict) (sp : TaskSpec),
    raw !! n = Some (PDict d) -> specs !! n = Some sp ->
    (forall k, reserved_key k = true -> dict_has (meta sp) k = false) /\
    (forall k, reserved_key k = false ->
               dict_has (meta sp) k = dict_has d k /\
               dict_get (meta sp) k = dict_get d k) /\
    dict_keys (meta sp) = filter (fun k => reserved_key k = false) (dict_keys d).
Proof.
  intros Hobj Hspecs.
  rewrite (parse_tasks_records repr_other cwd obj raw dataset_root Hobj) in Hspecs.
  pose proof (parse_loop_returns repr_other cwd dataset_root raw [] specs Hspecs) as Hraw.
  destruct (parse_loop_ok repr_other cwd dataset_root raw Hraw [])
    as (new & Hnew & Hlen & Hrec).
  rewrite Hnew in Hspecs. inversion Hspecs; subst specs; clear Hspecs. cbn [app].
  split; [exact Hlen|]. intros n d sp Hr Hs.
  destruct (Hrec n d sp Hr Hs) as (prev & _ & Hq).
  rewrite Forall_lookup in Hraw. destruct (Hraw _ _ Hr) as (d' & Hd & Hi & Ha).
  inversion Hd; subst d'; clear Hd.
  destruct (parse_record_ok repr_other cwd dataset_root d prev Hi Ha)
    as (sp' & Hsp' & _ & _ & _ & _ & Hm).
  rewrite Hq in Hsp'. inversion Hsp'; subst sp'; clear Hsp'.
  rewrite Hm, meta_filter.
  pose proof (dict_has_filter (fun k => negb (reserved_key k)) d) as Hhas.
  pose proof (dict_get_filter (fun k => negb (reserved_key k)) d) as Hget.
  cbv beta in Hhas, Hget. repeat split.
  - intros k Hk. rewrite Hhas, Hk. reflexivity.
  - rewrite Hhas, H. reflexivity.
  - apply Hget. rewrite H. reflexivity.
  - unfold dict_keys, pydict. clear. induction d as [|[k v] d IH]; [reflexivity|].
    rewrite filter_cons. cbn [map fst]. rewrite filter_cons.
    destruct (reserved_key k); cbn [negb].
    + destruct (decide (false = true)); [discriminate|].
      destruct (decide (true = false)); [discriminate|]. exact IH.
    + destruct (decide (true = true)); [|congruence].
      destruct (decide (false = false)); [|congruence]. cbn [map fst]. now f_equal.
Qed.

Section BadRecord.

Variable repr_other : pyval -> string.
Variable cwd : list string.


End BadRecord.

End TasksMore.

(** ** More on the transform engine *)

Module TransformsMore.

Import FS Sys FSFacts SysFacts RunFacts Transforms CallFacts.

(** The step types [apply_transforms] knows. *)
Definition known_type (t : pyval) : bool :=
  eq_str t "unzip" || eq_str t "keep_only" || eq_str t "strip_prefix"
  || eq_str t "rename" || eq_str t "delete" || eq_str t "copy"
  || eq_str t "move" || eq_str t "untar".

(** The test the guards make on a member name, with the working directory
    [cwd]. *)
Definition passes (cwd : list string) (dest : Path) (member : string) : bool :=
  String.prefix (to_string (resolve cwd dest))
    (to_string (resolve cwd (joinpath dest (of_string member)))).

Lemma run_for_each_app {A} (body : A -> prog unit) (a b : list A) :
  forall w,
    run (for_each (a ++ b) body) w
    = match run (for_each a body) w with
      | (inl _, w1) => run (for_each b body) w1
      | (inr e, w1) => (Raise e, w1)
      end.
Proof.
  induction a as [|x a IH]; intros w; [reflexivity|].
  cbn [app for_each]. rewrite !run_bind.
  destruct (run (body x) w) as [[u|e] w1]; [apply IH|reflexivity].
Qed.

(** X10.  Steps run one after the other.  Applying the steps [a ++ b] is
    applying [a] and then, when that raised nothing, applying [b] to what
    [a] left; when a step of [a] raises, that is the outcome, what the
    steps before it did stays done, and no step of [b] is run. *)
Theorem apply_transforms_app (root : Path) (a b : list pyval) (w : World) :
  run (apply_transforms root (PList (a ++ b))) w
  = match run (apply_transforms root (PList a)) w with
    | (inl _, w1) => run (apply_transforms root (PList b)) w1
    | (inr e, w1) => (Raise e, w1)
    end.
Proof. exact (run_for_each_app (apply_step root) a b w). Qed.

Lemma all_calls_any {A} (p : prog A) : all_calls (fun _ => True) p.
Proof. induction p as [a|e|o k IH]; simpl; auto. Qed.

Lemma run_env {A} (p : prog A) (w : World) : same_env w (snd (run p w)).
Proof.
  destruct (run_effect _ p (all_calls_any p) w) as (l & _ & He & _). exact He.
Qed.

Lemma apply_step_unknown (root : Path) (d : pydict) (w : World) :
  dict_has d "type" = true ->
  known_type (dict_get d "type") = false ->
  run (apply_step root (PDict d)) w
  = (Raise (ValueError ("Unknown transform type: "
                        +:+ Tasks.py_str (py_repr w) (dict_get d "type"))),
     record w (StrOf (dict_get d "type"))).
Proof.
  intros Hh Hk. unfold apply_step, getitem. rewrite Hh. cbn [bind].
  unfold known_type in Hk. repeat (apply orb_false_iff in Hk as [Hk ?]).
  repeat match goal with H : eq_str _ _ = false |- _ => rewrite H; clear H end.
  reflexivity.
Qed.

(** X11.  A step of an unknown type stops the engine where it stands.
    When the steps [a] have been applied without an exception and the next
    step has a [type] that is none of the eight known ones,
    [apply_transforms] raises [ValueError] naming that type; the files are
    as the steps [a] left them (nothing is rolled back), and the steps after
    the unknown one are not run. *)
Theorem apply_transforms_unknown_type
    (root : Path) (a rest : list pyval) (d : pydict) (w w1 : World) :
  run (apply_transforms root (PList a)) w = (Return tt, w1) ->
  dict_has d "type" = true ->
  known_type (dict_get d "type") = false ->
  exists w2 : World,
    run (apply_transforms root (PList (a ++ PDict d :: rest))) w
    = (Raise (ValueError ("Unknown transform type: "
                          +:+ Tasks.py_str (py_repr w) (dict_get d "type"))), w2) /\
    files w2 = files w1 /\ stdout w2 = stdout w1.
Proof.
  intros Ha Hh Hk. exists (record w1 (StrOf (dict_get d "type"))).
  split; [|split; reflexivity].
  change (apply_transforms root (PList (a ++ PDict d :: rest)))
    with (for_each (a ++ PDict d :: rest) (apply_step root)).
  rewrite run_for_each_app.
  change (for_each a (apply_step root)) with (apply_transforms root (PList a)).
  rewrite Ha. cbn [for_each]. rewrite run_bind, (apply_step_unknown root d w1 Hh Hk).
  pose proof (run_env (apply_transforms root (PList a)) w) as He.
  rewrite Ha in He. destruct He as (_ & _ & _ & Hr & _). cbn [snd] in Hr.
  rewrite Hr. reflexivity.
Qed.

Lemma dedupe_spec (out : list Path) :
  forall seen,
    NoDup (dedupe seen out) /\
    forall p, p ∈ dedupe seen out <-> p ∈ out /\ p ∉ seen.
Proof.
  induction out as [|x out IH]; intros seen; cbn [dedupe].
  - split; [constructor|]. intros p. split; [intros H; inversion H|intros [H _]; inversion H].
  - destruct (bool_decide (x ∈ seen)) eqn:E.
    + apply bool_decide_eq_true in E. destruct (IH seen) as [Hnd Hin].
      split; [exact Hnd|]. intros p. rewrite Hin, elem_of_cons. split.
      * intros [H1 H2]. auto.
      * intros [[->|H1] H2]; [contradiction|auto].
    + apply bool_decide_eq_false in E. destruct (IH (x :: seen)) as [Hnd Hin].
      split.
      * constructor; [|exact Hnd]. rewrite Hin, elem_of_cons. intros [_ H]. apply H. now left.
      * intros p. rewrite !elem_of_cons, Hin, elem_of_cons. split.
        -- intros [->|[H1 H2]]; [auto|]. split; [auto|]. intros H. apply H2. now right.
        -- intros [[->|H1] H2]; [now left|].
           destruct (decide (p = x)) as [->|Hne]; [now left|].
           right. split; [exact H1|]. intros [H|H]; auto.
Qed.

Lemma elem_of_concat {A} (x : A) (ls : list (list A)) :
  x ∈ concat ls <-> exists l, l ∈ ls /\ x ∈ l.
Proof.
  induction ls as [|l ls IH]; cbn [concat].
  - split; [intros H; inversion H|intros (l & H & _); inversion H].
  - rewrite elem_of_app, IH. split.
    + intros [H|(l' & H1 & H2)]; [exists l; split; [left|exact H]|].
      exists l'. split; [now right|exact H2].
    + intros (l' & H1 & H2). apply elem_of_cons in H1 as [->|H1]; [now left|].
      right. eauto.
Qed.

Lemma rglob_ext (w w' : World) (root : Path) (pat : string) :
  cwd w' = cwd w -> files w' = files w -> glob_match w' = glob_match w ->
  rglob w' root pat = rglob w root pat.
Proof. intros Hc Hf Hg. unfold rglob, key. rewrite Hc, Hf, Hg. reflexivity. Qed.

(** What a run of globs found: one list per pattern. *)
Definition found_by (w : World) (root : Path) (pats : list pyval)
    (founds : list (list Path)) : Prop :=
  Forall2 (fun p f => exists pat, p = PStr pat /\ rglob w root pat = Return f) pats founds.

Lemma glob_loop_run (root : Path) (w0 : World) (pats : list pyval) :
  forall out w,
    cwd w = cwd w0 -> files w = files w0 -> glob_match w = glob_match w0 ->
    let r := run (glob_loop root pats out) w in
    cwd (snd r) = cwd w0 /\ files (snd r) = files w0 /\ glob_match (snd r) = glob_match w0 /\
    stdout (snd r) = stdout w /\
    match fst r with
    | inl l => exists founds, l = out ++ concat founds /\ found_by w0 root pats founds
    | inr _ => True
    end.
Proof.
  induction pats as [|p pats IH]; intros out w Hc Hf Hg; cbv zeta.
  - cbn. repeat split; auto. exists []. split; [now rewrite app_nil_r|constructor].
  - cbn [glob_loop]. rewrite run_bind.
    destruct p as [|b|z|m e|pat|l|d]; try solve [cbn; repeat split; auto].
    cbn [as_str run]. unfold Return at 1 2 3 4 5. cbv iota beta.
    rewrite run_bind, run_call. cbn [sem].
    rewrite (rglob_ext w0 (record w (Rglob root pat))) by auto.
    destruct (rglob w0 root pat) as [found|e] eqn:E; [|solve [cbn; repeat split; auto]].
    specialize (IH (out ++ found) (record w (Rglob root pat)) Hc Hf Hg). cbv zeta in IH.
    destruct IH as (H1 & H2 & H3 & H4 & H5). repeat split; auto.
    destruct (fst (run (glob_loop root pats (out ++ found)) _)) as [l|e]; [|exact I].
    destruct H5 as (founds & -> & Hfb). exists (found :: founds).
    split; [cbn; now rewrite app_assoc|]. constructor; [eauto|exact Hfb].
Qed.

Lemma glob_paths_run (root : Path) (patterns : pyval) (w : World) :
  cwd (snd (run (_glob_paths root patterns) w)) = cwd w /\
  files (snd (run (_glob_paths root patterns) w)) = files w /\
  stdout (snd (run (_glob_paths root patterns) w)) = stdout w /\
  match fst (run (_glob_paths root patterns) w) with
  | inl l =>
      NoDup l /\
      exists (pats : list pyval) (founds : list (list Path)),
        iterate patterns = Ret pats /\
        found_by w root pats founds /\
        forall p, p ∈ l <-> exists found, found ∈ founds /\ p ∈ found
  | inr _ => True
  end.
Proof.
  unfold _glob_paths.
  assert (forall pats, iterate patterns = Ret pats ->
            let r := run (do out <- glob_loop root pats []; Ret (dedupe [] out)) w in
            cwd (snd r) = cwd w /\ files (snd r) = files w /\ stdout (snd r) = stdout w /\
            match fst r with
            | inl l =>
                NoDup l /\
                exists founds, found_by w root pats founds /\
                               forall p, p ∈ l <-> exists found, found ∈ founds /\ p ∈ found
            | inr _ => True
            end) as H.
  { intros pats _. cbv zeta. rewrite run_bind.
    pose proof (glob_loop_run root w pats [] w eq_refl eq_refl eq_refl) as G.
    cbv zeta in G. destruct G as (Hc & Hf & _ & Ho & Hl).
    destruct (run (glob_loop root pats []) w) as [[out|e] w1]; cbn [fst snd] in *;
      [|auto].
    split; [exact Hc|]. split; [exact Hf|]. split; [exact Ho|].
    destruct Hl as (founds & -> & Hfb). cbn [app].
    destruct (dedupe_spec (concat founds) []) as [Hnd Hin].
    split; [exact Hnd|]. exists founds. split; [exact Hfb|].
    intros p. rewrite Hin, elem_of_concat. split.
    - intros [(found & H1 & H2) _]. eauto.
    - intros (found & H1 & H2). split; [eauto|]. apply not_elem_of_nil. }
  destruct (iterate patterns) as [pats|e|o k] eqn:E.
  - specialize (H pats eq_refl). cbv zeta in H. cbn [bind].
    destruct H as (H0 & H1 & H2 & H3). split; [exact H0|]. split; [exact H1|].
    split; [exact H2|].
    destruct (fst (run _ w)) as [l|e]; [|exact I].
    destruct H3 as (Hnd & founds & Hfb & Hin). split; [exact Hnd|]. eauto.
  - cbn. auto.
  - destruct patterns; discriminate E.
Qed.

(** X12.  [_glob_paths] only looks, and lists each path once.  The call
    changes no file and prints nothing; when it returns, the list has no
    path twice, and a path is in it exactly when one of the patterns
    matched it. *)
Theorem glob_paths_distinct (root : Path) (patterns : pyval) (w : World) :
  files (snd (run (_glob_paths root patterns) w)) = files w /\
  stdout (snd (run (_glob_paths root patterns) w)) = stdout w /\
  match fst (run (_glob_paths root patterns) w) with
  | inl l =>
      NoDup l /\
      exists (pats : list pyval) (founds : list (list Path)),
        iterate patterns = Ret pats /\
        found_by w root pats founds /\
        forall p, p ∈ l <-> exists found, found ∈ founds /\ p ∈ found
  | inr _ => True
  end.
Proof. exact (proj2 (glob_paths_run root patterns w)). Qed.

Lemma member_check_run (dest : Path) (m : string) (w : World) :
  run (member_check dest m) w
  = (Return (passes (cwd w) dest m),
     record (record w (Resolve (joinpath dest (of_string m)))) (Resolve dest)).
Proof. reflexivity. Qed.

(** The loop of the guards over the member names. *)
Definition guard_loop (kind : string) (dest : Path) (names : list string) : prog unit :=
  for_each names (fun m =>
    do ok <- member_check dest m;
    if negb ok then Throw (RuntimeError ("Unsafe " +:+ kind +:+ " member path: " +:+ m))
    else Ret tt).

Lemma guard_loop_pass (kind : string) (dest : Path) (names : list string) :
  forall w,
    forallb (passes (cwd w) dest) names = true ->
    exists w1, run (guard_loop kind dest names) w = (Return tt, w1) /\
               cwd w1 = cwd w /\ files w1 = files w.
Proof.
  induction names as [|m names IH]; intros w H; [exists w; auto|].
  cbn [forallb] in H. apply andb_true_iff in H as [Hm Hrest].
  unfold guard_loop. cbn [for_each]. rewrite !run_bind, member_check_run, Hm. cbn [negb run].
  unfold Return at 1. cbv iota beta.
  destruct (IH (record (record w (Resolve (joinpath dest (of_string m)))) (Resolve dest)) Hrest)
    as (w1 & Hr & Hc & Hf).
  exists w1. split; [exact Hr|]. split; [exact Hc|exact Hf].
Qed.

Lemma guard_loop_reject (kind : string) (dest : Path) (pre post : list string) (m : string)
    (w : World) :
  forallb (passes (cwd w) dest) pre = true ->
  passes (cwd w) dest m = false ->
  exists w1,
    run (guard_loop kind dest (pre ++ m :: post)) w
    = (Raise (RuntimeError ("Unsafe " +:+ kind +:+ " member path: " +:+ m)), w1) /\
    files w1 = files w.
Proof.
  intros Hpre Hm. unfold guard_loop. rewrite run_for_each_app.
  destruct (guard_loop_pass kind dest pre w Hpre) as (w1 & Hr & Hc & Hf).
  unfold guard_loop in Hr. rewrite Hr. cbn [for_each].
  rewrite !run_bind, member_check_run, Hc, Hm. cbn [negb run].
  eexists. split; [reflexivity|]. exact Hf.
Qed.

(** X13.  What the archive guards do reject.  When the names of the
    members before [m] all pass the test of the guard and [m] does not (the
    text of its resolved path does not begin with the text of the resolved
    destination), [_safe_unzip] and [_safe_untar] raise [RuntimeError]
    naming [m], and no member of the archive has been written, those before
    [m] included: the file system is as it was. *)
Theorem safe_extract_rejects
    (archive dest : Path) (pre post : list string) (m : string) (w : World) :
  forallb (passes (cwd w) dest) pre = true ->
  passes (cwd w) dest m = false ->
  (archive_names w archive true = Return (pre ++ m :: post) ->
   exists w1,
     run (_safe_unzip archive dest) w
     = (Raise (RuntimeError ("Unsafe zip member path: " +:+ m)), w1) /\
     files w1 = files w) /\
  (archive_names w archive false = Return (pre ++ m :: post) ->
   exists w1,
     run (_safe_untar archive dest) w
     = (Raise (RuntimeError ("Unsafe tar member path: " +:+ m)), w1) /\
     files w1 = files w).
Proof.
  intros Hpre Hm. split; intros Hn.
  - unfold _safe_unzip. rewrite run_bind, run_call. cbn [sem].
    change (archive_names (record w (ZipNames archive)) archive true)
      with (archive_names w archive true). rewrite Hn. unfold Return at 1. cbv iota beta.
    rewrite run_bind.
    destruct (guard_loop_reject "zip" dest pre post m (record w (ZipNames archive)) Hpre Hm)
      as (w1 & Hr & Hf).
    match goal with
    | |- context [run ?p (record w (ZipNames archive))] =>
        change p with (guard_loop "zip" dest (pre ++ m :: post))
    end.
    rewrite Hr. exists w1. split; [reflexivity|exact Hf].
  - unfold _safe_untar. rewrite run_bind, run_call. cbn [sem].
    change (archive_names (record w (TarNames archive)) archive false)
      with (archive_names w archive false). rewrite Hn. unfold Return at 1. cbv iota beta.
    rewrite run_bind.
    destruct (guard_loop_reject "tar" dest pre post m (record w (TarNames archive)) Hpre Hm)
      as (w1 & Hr & Hf).
    match goal with
    | |- context [run ?p (record w (TarNames archive))] =>
        change p with (guard_loop "tar" dest (pre ++ m :: post))
    end.
    rewrite Hr. exists w1. split; [reflexivity|exact Hf].
Qed.

(** X14.  Nothing to strip.  A [strip_prefix] step whose prefix directory
    (the prefix without its trailing slashes, below the root) does not
    exist returns at once: no file is changed and nothing is printed. *)
Theorem strip_prefix_missing (root : Path) (d : pydict) (s : string) (w : World) :
  dict_has d "prefix" = true ->
  dict_get d "prefix" = PStr s ->
  exists_ (files w) (key w (joinpath root (of_string (rstrip_slashes s)))) = false ->
  exists w' : World,
    run (_t_strip_prefix root (PDict d)) w = (Return tt, w') /\
    files w' = files w /\ stdout w' = stdout w.
Proof.
  intros Hh Hg He. unfold _t_strip_prefix, getitem. rewrite Hh, Hg. cbn [bind].
  rewrite run_bind, run_call. cbn [sem].
  change (exists_ (files (record w ?o)) (key (record w ?o) ?p))
    with (exists_ (files w) (key w p)).
  rewrite He. unfold Return at 1. cbv iota beta. cbn [negb run].
  eexists. split; [reflexivity|]. split; reflexivity.
Qed.

Lemma unlink_other (m : files_t) (k k' : list string) (ok : bool) :
  k <> k' -> snd (unlink m k ok) !! k' = m !! k'.
Proof.
  intros H. unfold unlink. destruct (node_at m k) as [[c|]|]; cbn [snd]; auto.
  now apply lookup_delete_ne.
Qed.

End TransformsMore.

(** ** More on checkouts: the callers and the helpers *)

Module CheckoutMore.

Import FS Sys FSFacts SysFacts RunFacts Transforms GitAdapter Checkout CheckoutFacts
  CallFacts.

(** [checkout_many] *)
Definition checkout_many (ids : list string) (output_dir : string) (update : bool)
  : prog unit :=
  do base <- call (Resolve (of_string output_dir));
  ensure_dir base ;;;
  for_each ids (fun i =>
    checkout_one (if TasksMore.contains_slash i then i else "benchmark-tasks/" +:+ i)
      base update ;;;
    Ret tt).

(** The line [list_available] prints for a dataset id. *)
Definition availability_line (there : bool) (did : string) : string :=
  "  " +:+ (if there then "✔" else "—") +:+ " " +:+ did.

(** [list_available] *)
Definition list_available (output_dir : string) : prog unit :=
  do base <- call (Resolve (of_string output_dir));
  do registry <- load_registry;
  call (Print "Available benchmarks:") ;;;
  match registry with
  | PDict d =>
      for_each d (fun kv =>
        do there <- call (Exists (joinpath base (of_string (fst kv))));
        call (Print (availability_line there (fst kv))))
  | _ => Throw (AttributeError ("'" +:+ type_name registry
                                +:+ "' object has no attribute 'items'"))
  end.

(** The arguments of [arena checkout]. *)
Record CheckoutArgs : Type := mkCheckoutArgs {
  list_flag : bool;
  datasets : list string;
  update_flag : bool;
  output_dir : string
}.

(** [_cmd_checkout] of [cli.py] *)
Definition _cmd_checkout (args : CheckoutArgs) : prog Z :=
  if list_flag args then
    list_available (output_dir args) ;;; Ret 0
  else
    match datasets args with
    | [] => call (Print "No datasets provided. Try: arena checkout --list") ;;; Ret 1
    | _ => checkout_many (datasets args) (output_dir args) (update_flag args) ;;; Ret 0
    end.

(** The part of [build_tasks_from_dataset] that works on the file system:
    the lookup of the config, the test of its manifest entry, the checkout
    and the read of the manifest. *)
Definition load_manifest (dsid datasets_dir : string) (update : bool)
  : prog (Path * pyval) :=
  do registry <- load_registry;
  do cfg_ref <- match registry with
                | PDict d => Ret (dict_get d dsid)
                | _ => Throw (AttributeError ("'" +:+ type_name registry
                                              +:+ "' object has no attribute 'get'"))
                end;
  if negb (truthy cfg_ref)
  then Throw (ValueError ("Dataset '" +:+ dsid +:+ "' not found in registry"))
  else
    do cfg <- load_dataset_config cfg_ref;
    let manifest_rel := manifest cfg in
    do bad <- (if negb (truthy manifest_rel) then Ret true
               else do s <- as_str manifest_rel; Ret (is_absolute (of_string s)));
    if bad
    then Throw (ValueError ("Dataset config for '" +:+ dsid
                            +:+ "' must include a relative 'manifest' path (e.g., 'tasks.json')."))
    else
      do root <- checkout_one dsid (of_string datasets_dir) update;
      do s <- as_str manifest_rel;
      do manifest_path <- (call (Resolve (joinpath root (of_string s))) : prog Path);
      do there <- (call (Exists manifest_path) : prog bool);
      if negb there
      then Throw (FileNotFoundError ("Manifest not found: " +:+ to_string manifest_path))
      else
        do obj <- (call (ReadJson manifest_path) : prog pyval);
        (Ret (root, obj) : prog (Path * pyval)).

(** [tasks[: max(0, int(limit))]] *)
Definition limit_tasks {A} (limit : option Z) (tasks : list A) : list A :=
  match limit with
  | Some n => take (Z.to_nat (Z.max 0 n)) tasks
  | None => tasks
  end.

(** [build_tasks_from_dataset]; [shuffled] is what [random.shuffle] makes
    of a list. *)
Definition build_tasks_from_dataset
    (shuffled : list Tasks.TaskSpec -> list Tasks.TaskSpec)
    (dataset_id datasets_dir : string) (update : bool) (limit : option Z) (shuffle : bool)
    (w : World) : outcome (list Tasks.TaskSpec) * World :=
  let dsid := TasksMore._normalize_dataset_id dataset_id in
  match run (load_manifest dsid datasets_dir update) w with
  | (inr e, w') => (Raise e, w')
  | (inl (root, obj), w') =>
      match Tasks._parse_tasks (py_repr w') (cwd w') obj root with
      | inr e => (Raise e, w')
      | inl tasks =>
          (Return (limit_tasks limit (if shuffle then shuffled tasks else tasks)), w')
      end
  end.

Lemma remove_under_spec (a k : list string) (m : files_t) :
  remove_under a m !! k = if decide (a `prefix_of` k) then None else m !! k.
Proof.
  destruct (decide (a `prefix_of` k)) as [H|H]; [|now apply remove_under_lookup].
  unfold remove_under. apply map_lookup_filter_None. right. intros x _ Hn. now apply Hn.
Qed.


Lemma wp_then {A B} (p : prog A) (f : A -> prog B) (w : World)
    (Q : outcome B -> World -> Prop) :
  (forall a w1, wp (f a) w1 Q) -> (forall e w1, Q (inr e) w1) -> wp (bind p f) w Q.
Proof.
  intros Hf He. apply wp_bind. unfold wp at 1.
  destruct (fst (run p w)); auto.
Qed.

(** X19.  [fetch_git] works in its own corner.  Whatever [git] does, the
    call changes nothing in the file system outside the directory [repo]
    of the temporary directory it is given (the directories [repo] lies in
    may be made): every entry that is neither in [repo] nor above it is
    after the call what it was before.  When the call returns, the path it
    returns is there. *)
Theorem fetch_git_confined
    (url ref subdir : pyval) (tmp_dir : Path) (w : World) (k : list string) :
  ¬ key w (joinpath tmp_dir (of_string "repo")) `prefix_of` k ->
  ¬ k `prefix_of` key w (joinpath tmp_dir (of_string "repo")) ->
  files (snd (run (fetch_git url ref subdir tmp_dir) w)) !! k = files w !! k /\
  match fst (run (fetch_git url ref subdir tmp_dir) w) with
  | inl root =>
      exists_ (files (snd (run (fetch_git url ref subdir tmp_dir) w)))
        (key (snd (run (fetch_git url ref subdir tmp_dir) w)) root) = true
  | inr _ => True
  end.
Proof.
  intros Hb Ha. split.
  - destruct (run_effect _ _ (KeepFacts.fetch_git_calls url ref subdir tmp_dir) w)
      as (l & _ & _ & Hk & Hall & _).
    apply Hk. intros e Hin. rewrite Forall_forall in Hall.
    destruct (Hall e Hin) as (HP & w1 & (Hc & _) & He).
    rewrite He. intros (t & Ht & Htouch).
    assert (forall q, key w1 q = key w q) as Hkey by (intros q; unfold key; now rewrite Hc).
    destruct (e_op e); cbn [KeepFacts.fetch_call targets] in HP, Ht; try contradiction;
      try (inversion Ht; fail); subst;
      rewrite !elem_of_cons, elem_of_nil, Hkey in Ht;
      destruct Ht as [->|Ht]; try (destruct Ht as [->|[]]); try destruct Ht;
      cbn [touches] in Htouch; auto.
  - change (wp (fetch_git url ref subdir tmp_dir) w
              (fun r w' => match r with
                           | inl root => exists_ (files w') (key w' root) = true
                           | inr _ => True
                           end)).
    unfold fetch_git. cbv zeta.
    apply wp_then; [intros branch w1|auto].
    apply wp_then; [intros u w2|auto].
    apply wp_then; [intros _ w3|auto].
    apply wp_then; [intros _ w4|auto].
    apply wp_then; [intros root w5|auto].
    apply wp_bind, (wp_call (Exists root)). cbn [sem fst snd]. unfold Return. cbv iota beta.
    destruct (exists_ (files (record w5 (Exists root))) (key (record w5 (Exists root)) root))
      eqn:E; cbn [negb].
    + apply wp_ret. exact E.
    + apply wp_then; [intros a w6; exact I|auto].
Qed.

(** Whether [git rev-parse] gives the same commit for [HEAD] and for [ref]
    in the checkout at [dir]; a failing command counts as no. *)
Definition same_commit_value (g : Git) (dir : list string) (ref : string) : bool :=
  match rev_parse g dir "HEAD", rev_parse g dir ref with
  | Some cur, Some other => String.eqb cur other
  | _, _ => false
  end.

(** X20.  [_is_branch_or_tag_checked] always answers.  Whatever the [git]
    commands do, the function raises nothing and changes nothing: it
    returns true when the name of the checked-out branch is [ref], and
    otherwise (also when that command fails) whether [HEAD] and [ref] name
    the same commit, a failing [rev-parse] counting as no. *)
Theorem is_branch_or_tag_checked_answers (repo_dir : Path) (ref : string) (w : World) :
  fst (run (_is_branch_or_tag_checked repo_dir ref) w)
  = Return (match abbrev_head (git w) (key w repo_dir) with
            | Some out => if String.eqb out ref then true
                          else same_commit_value (git w) (key w repo_dir) ref
            | None => same_commit_value (git w) (key w repo_dir) ref
            end) /\
  files (snd (run (_is_branch_or_tag_checked repo_dir ref) w)) = files w /\
  stdout (snd (run (_is_branch_or_tag_checked repo_dir ref) w)) = stdout w.
Proof.
  assert (forall w1,
            fst (run (same_commit repo_dir ref) w1)
            = Return (same_commit_value (git w1) (key w1 repo_dir) ref) /\
            files (snd (run (same_commit repo_dir ref) w1)) = files w1 /\
            stdout (snd (run (same_commit repo_dir ref) w1)) = stdout w1) as Hsame.
  { intros w1. unfold same_commit, same_commit_value. cbn.
    destruct (rev_parse (git w1) _ "HEAD") as [cur|]; cbn; [|auto].
    destruct (rev_parse (git w1) _ ref) as [other|]; cbn; auto. }
  unfold _is_branch_or_tag_checked. cbn [run sem].
  change (git (record w (GitAbbrevHead repo_dir))) with (git w).
  change (key (record w (GitAbbrevHead repo_dir)) repo_dir) with (key w repo_dir).
  destruct (abbrev_head (git w) (key w repo_dir)) as [out|].
  - cbv beta iota delta [Return].
    destruct (String.eqb out ref); [cbn; auto|].
    exact (Hsame (record w (GitAbbrevHead repo_dir))).
  - exact (Hsame (record w (GitAbbrevHead repo_dir))).
Qed.

Lemma wp_then_env {A B} (p : prog A) (f : A -> prog B) (w0 w : World)
    (Q : outcome B -> World -> Prop) :
  same_env w0 w ->
  (forall a w1, same_env w0 w1 -> wp (f a) w1 Q) ->
  (forall e w1, Q (inr e) w1) ->
  wp (bind p f) w Q.
Proof.
  intros H0 Hf He. apply wp_bind. unfold wp at 1.
  pose proof (TransformsMore.run_env p w) as H1.
  destruct (fst (run p w)); [|auto].
  apply Hf. exact (same_env_trans _ _ _ H0 H1).
Qed.

(** X21.  What [checkout_one] returns.  Whenever the call returns, by a
    cache hit or after an install, what it returns is the destination: the
    output directory joined with the dataset id, resolved against the
    working directory of the call, hence an absolute path. *)
Theorem checkout_one_returns_destination
    (dataset_id : string) (output_dir : Path) (update : bool) (w : World) :
  match fst (run (checkout_one dataset_id output_dir update) w) with
  | inl p =>
      p = resolve (cwd w) (joinpath output_dir (of_string dataset_id)) /\
      is_absolute p = true
  | inr _ => True
  end.
Proof.
  change (wp (checkout_one dataset_id output_dir update) w
            (fun r _ => match r with
                        | inl p =>
                            p = resolve (cwd w) (joinpath output_dir (of_string dataset_id))
                            /\ is_absolute p = true
                        | inr _ => True
                        end)).
  pose proof (same_env_refl w) as E.
  unfold checkout_one.
  apply (wp_then_env _ _ w); [exact E|intros _ w1 E1|auto].
  apply (wp_then_env _ _ w); [exact E1|intros registry w2 E2|auto].
  apply (wp_then_env _ _ w); [exact E2|intros ref w3 E3|auto].
  destruct (negb (truthy ref)); [exact I|].
  apply (wp_then_env _ _ w); [exact E3|intros cfg w4 E4|auto].
  apply wp_bind, (wp_call (Resolve (joinpath output_dir (of_string dataset_id)))).
  cbn [sem fst snd]. unfold Return. cbv iota beta.
  destruct E4 as (Hc & _). cbn [cwd record]. rewrite Hc.
  set (dst := resolve (cwd w) (joinpath output_dir (of_string dataset_id))).
  apply wp_then; [intros _ w5|auto].
  apply wp_then; [intros there w6|auto].
  destruct (there && negb update).
  - apply wp_then; [intros _ w7|auto]. apply wp_ret. split; reflexivity.
  - apply wp_then; [intros _ w7|auto].
    apply wp_then; [intros _ w8|auto]. apply wp_ret. split; reflexivity.
Qed.

(** From [w] to [wi] nothing changed but the record of the calls and the
    lines printed, which are [out]. *)
Definition still (w : World) (out : list string) (wi : World) : Prop :=
  exists os, quiet_after w os out wi.

Lemma still_start w : still w [] w.
Proof. exists []. apply quiet_after_start. Qed.

Lemma wp_call_still (o : op) (w wi : World) (out : list string)
    (Q : outcome (ans o) -> World -> Prop) :
  still w out wi ->
  files (snd (sem o w)) = files w ->
  (forall wj, still w (out ++ match o with Print l => [l] | _ => [] end) wj ->
              Q (fst (sem o w)) wj) ->
  wp (call o) wi Q.
Proof.
  intros [os Hq] Hf HQ. eapply (wp_call_quiet o); [exact Hq|exact Hf|].
  intros wj Hj. apply HQ. eexists. exact Hj.
Qed.

Lemma still_files w out wi : still w out wi -> files wi = files w /\ stdout wi = stdout w ++ out.
Proof. intros (os & (_ & Hf) & Ho & _). auto. Qed.

Lemma readonly_files {A} (p : prog A) (w : World) :
  all_calls (fun o => forall w1, targets w1 o = []) p ->
  files (snd (run p w)) = files w.
Proof.
  intros Hp. destruct (run_effect _ p Hp w) as (l & _ & _ & Hk & Hall & _).
  apply map_eq. intros k. apply Hk. intros e Hin. rewrite Forall_forall in Hall.
  destruct (Hall e Hin) as (Ht & w1 & _ & He). rewrite He, Ht.
  intros (t & Hin' & _). inversion Hin'.
Qed.

Lemma list_available_readonly (output_dir : string) :
  all_calls (fun o => forall w1, targets w1 o = []) (list_available output_dir).
Proof.
  unfold list_available, load_registry.
  apply all_calls_bind; [apply all_calls_call; reflexivity|intros base].
  apply all_calls_bind; [apply all_calls_call; reflexivity|intros registry].
  apply all_calls_bind; [apply all_calls_call; reflexivity|intros _].
  destruct registry; try exact I.
  apply all_calls_for_each. intros kv.
  apply all_calls_bind; [apply all_calls_call; reflexivity|intros there].
  apply all_calls_call. reflexivity.
Qed.

(** The lines [list_available] prints for the entries of the registry. *)
Definition availability_lines (w : World) (output_dir : string) (reg : pydict)
  : list string :=
  map (fun kv : string * pyval =>
         availability_line
           (exists_ (files w)
              (key w (joinpath (resolve (cwd w) (of_string output_dir))
                        (of_string (fst kv)))))
           (fst kv))
      reg.

Lemma list_loop (w : World) (output_dir : string) (reg : pydict) :
  forall (out : list string) (wi : World),
    still w out wi ->
    wp (for_each reg (fun kv : string * pyval =>
          do there <- call (Exists (joinpath (resolve (cwd w) (of_string output_dir))
                                     (of_string (fst kv))));
          call (Print (availability_line there (fst kv))))) wi
      (fun r w' => r = Return tt /\
                   still w (out ++ availability_lines w output_dir reg) w').
Proof.
  induction reg as [|[did v] reg IH]; intros out wi S.
  - apply wp_ret. cbn. rewrite app_nil_r. split; [reflexivity|exact S].
  - cbn [for_each fst]. apply wp_bind, wp_bind.
    eapply (wp_call_still (Exists _)); [exact S|reflexivity|].
    intros w4 S4. cbn [sem fst]. unfold Return at 1. cbv iota beta. rewrite app_nil_r in S4.
    eapply (wp_call_still (Print _)); [exact S4|reflexivity|].
    intros w5 S5. cbn [sem fst]. unfold Return at 1. cbv iota beta.
    eapply wp_impl; [|exact (IH _ w5 S5)].
    intros r w6 [Hr Hs]. split; [exact Hr|].
    unfold availability_lines in *. cbn [map fst]. rewrite <- app_assoc in Hs. exact Hs.
Qed.


(** The registry entry [ref] leads to the config object [cfg_obj], which
    has an id and a source. *)
Definition loadable (w : World) (ref : pyval) (cfg_obj : pydict) : Prop :=
  truthy ref = true /\
  (ref = PDict cfg_obj \/
   exists s, ref = PStr s /\ read_json w (of_string s) = Return (PDict cfg_obj)) /\
  dict_has cfg_obj "id" = true /\ dict_has cfg_obj "source" = true.

(** The config [load_dataset_config] builds from a config object. *)
Definition config_of (d : pydict) : DatasetConfig :=
  mkDatasetConfig (dict_get d "id") (get_default d "version" (PStr "0.0.0"))
    (dict_get d "source") (get_default d "transforms" (PList []))
    (dict_get d "manifest") (dict_get d "tasks").

Lemma wp_load_config (w : World) (ref : pyval) (cfg_obj : pydict) (wi : World)
    (out : list string) (Q : outcome DatasetConfig -> World -> Prop) :
  loadable w ref cfg_obj ->
  still w out wi ->
  (forall wj, still w out wj -> Q (inl (config_of cfg_obj)) wj) ->
  wp (load_dataset_config ref) wi Q.
Proof.
  intros (_ & Href & Hid & Hsrc) S HQ. unfold load_dataset_config.
  destruct Href as [->|(s & -> & Hread)].
  - cbn [bind getitem]. rewrite Hid. cbn [bind]. rewrite Hsrc. cbn [bind].
    apply wp_ret. apply HQ. exact S.
  - apply wp_bind. eapply (wp_call_still (ReadJson (of_string s))); [exact S|reflexivity|].
    intros wj Sj. cbn [sem fst]. rewrite Hread. unfold Return at 1. cbv iota beta.
    cbn [bind getitem]. rewrite Hid. cbn [bind]. rewrite Hsrc. cbn [bind].
    apply wp_ret. apply HQ. rewrite app_nil_r in Sj. exact Sj.
Qed.

Lemma wp_checkout_hit (w : World) (dataset_id : string) (output_dir : Path)
    (reg cfg_obj : pydict) (wi : World) (out : list string)
    (Q : outcome Path -> World -> Prop) :
  read_json w REGISTRY_PATH = Return (PDict reg) ->
  loadable w (dict_get reg dataset_id) cfg_obj ->
  is_dir (files w) (key w output_dir) = true ->
  exists_ (files w)
    (key w (resolve (cwd w) (joinpath output_dir (of_string dataset_id)))) = true ->
  still w out wi ->
  (forall wj, still w (out ++ ["✔ Already present: " +:+ dataset_id]) wj ->
              Q (inl (resolve (cwd w) (joinpath output_dir (of_string dataset_id)))) wj) ->
  wp (checkout_one dataset_id output_dir false) wi Q.
Proof.
  intros Hreg Hload Hout Hdst S HQ.
  unfold checkout_one, load_registry, ensure_dir.
  apply wp_bind. eapply (wp_call_still (EnterStage Lookup)); [exact S|reflexivity|].
  intros w1 S1. cbn [sem fst]. unfold Return at 1. cbv iota beta. rewrite app_nil_r in S1.
  apply wp_bind. eapply (wp_call_still (ReadJson REGISTRY_PATH)); [exact S1|reflexivity|].
  intros w2 S2. cbn [sem fst]. rewrite Hreg. unfold Return at 1. cbv iota beta.
  rewrite app_nil_r in S2. cbn [bind].
  destruct Hload as (Ht & Hload'). rewrite Ht. cbn [negb].
  apply wp_bind. eapply (wp_load_config w); [split; [exact Ht|exact Hload']|exact S2|].
  intros w3 S3.
  apply wp_bind.
  eapply (wp_call_still (Resolve (joinpath output_dir (of_string dataset_id))));
    [exact S3|reflexivity|].
  intros w4 S4. cbn [sem fst]. unfold Return at 1. cbv iota beta. rewrite app_nil_r in S4.
  apply wp_bind. eapply (wp_call_still (MkdirP output_dir)); [exact S4| |].
  { cbn [sem snd lift with_files files]. rewrite makedirs_there; auto. }
  intros w5 S5. cbn [sem fst lift]. rewrite makedirs_there by auto. cbn [fst].
  unfold Return at 1. cbv iota beta. rewrite app_nil_r in S5.
  apply wp_bind. eapply (wp_call_still (Exists _)); [exact S5|reflexivity|].
  intros w6 S6. cbn [sem fst]. rewrite Hdst. unfold Return at 1. cbv iota beta.
  rewrite app_nil_r in S6. cbn [andb negb].
  apply wp_bind. eapply (wp_call_still (Print _)); [exact S6|reflexivity|].
  intros w7 S7. cbn [sem fst]. unfold Return at 1. cbv iota beta.
  apply wp_ret. apply HQ. exact S7.
Qed.

Lemma many_loop (w : World) (base : Path) (reg : pydict) (ids : list string) :
  read_json w REGISTRY_PATH = Return (PDict reg) ->
  is_dir (files w) (key w base) = true ->
  (forall i, i ∈ ids ->
             exists cfg_obj,
               loadable w (dict_get reg (TasksMore._normalize_dataset_id i)) cfg_obj /\
               exists_ (files w)
                 (key w (resolve (cwd w)
                           (joinpath base (of_string (TasksMore._normalize_dataset_id i)))))
               = true) ->
  forall (out : list string) (wi : World),
    still w out wi ->
    wp (for_each ids (fun i =>
          checkout_one (if TasksMore.contains_slash i then i else "benchmark-tasks/" +:+ i)
            base false ;;;
          Ret tt)) wi
      (fun r w' =>
         r = Return tt /\
         still w (out ++ map (fun i => "✔ Already present: "
                                       +:+ TasksMore._normalize_dataset_id i) ids) w').
Proof.
  intros Hreg Hbase. induction ids as [|i ids IH]; intros Hids out wi S.
  - apply wp_ret. cbn [map]. rewrite app_nil_r. split; [reflexivity|exact S].
  - cbn [for_each map]. apply wp_bind, wp_bind.
    destruct (Hids i) as (cfg_obj & Hload & Hdst); [left|].
    eapply (wp_checkout_hit w (TasksMore._normalize_dataset_id i) base reg cfg_obj);
      [exact Hreg|exact Hload|exact Hbase|exact Hdst|exact S|].
    intros wj Sj. apply wp_ret.
    eapply wp_impl; [|apply (IH (fun i' Hi' => Hids i' (list_elem_of_further _ _ _ Hi')) _ wj Sj)].
    intros r w' [Hr Hs]. split; [exact Hr|]. rewrite <- app_assoc in Hs. exact Hs.
Qed.


(** X24.  The exit codes of [arena checkout].  With [--list] the command
    lists and changes no file, whatever datasets and [--update] say, and
    its code is 0.  Without [--list] and without datasets it checks nothing
    out: it prints the hint, changes no file and returns 1.  With datasets
    its code, when it returns, is 0. *)
Theorem cmd_checkout_codes (args : CheckoutArgs) (w : World) :
  (list_flag args = true ->
   files (snd (run (_cmd_checkout args) w)) = files w /\
   run (_cmd_checkout args) w
   = run (_cmd_checkout (mkCheckoutArgs true [] false (output_dir args))) w /\
   forall z, fst (run (_cmd_checkout args) w) = Return z -> z = 0) /\
  (list_flag args = false -> datasets args = [] ->
   fst (run (_cmd_checkout args) w) = Return 1 /\
   files (snd (run (_cmd_checkout args) w)) = files w /\
   stdout (snd (run (_cmd_checkout args) w))
   = stdout w ++ ["No datasets provided. Try: arena checkout --list"]) /\
  (list_flag args = false -> datasets args <> [] ->
   forall z, fst (run (_cmd_checkout args) w) = Return z -> z = 0).
Proof.
  unfold _cmd_checkout. split; [|split].
  - intros ->. cbn [list_flag output_dir]. split; [|split; [reflexivity|]].
    + apply readonly_files. apply all_calls_bind; [apply list_available_readonly|].
      intros _. exact I.
    + intros z. rewrite run_bind.
      destruct (run (list_available (output_dir args)) w) as [[u|e] w1]; cbn;
        intros H; inversion H; reflexivity.
  - intros -> ->. cbn. auto.
  - intros -> Hne. destruct (datasets args) as [|i ids] eqn:E; [contradiction|].
    intros z. rewrite run_bind.
    destruct (run (checkout_many (i :: ids) (output_dir args) (update_flag args)) w)
      as [[u|e] w1]; cbn; intros H; inversion H; reflexivity.
Qed.

Lemma still_env w out wi : still w out wi -> same_env w wi.
Proof. intros (os & (He & _) & _). exact He. Qed.

Section BuildTasks.

Variable shuffled : list Tasks.TaskSpec -> list Tasks.TaskSpec.



End BuildTasks.

End CheckoutMore.

(** ** What a checkout leaves at the destination *)

Module InstallFacts.

Import FS Sys FSFacts SysFacts RunFacts Transforms GitAdapter Checkout CheckoutFacts
  CallFacts CheckoutMore.

Lemma exists_frame (m m' : files_t) (k : list string) :
  m' !! k = m !! k -> exists_ m' k = exists_ m k.
Proof. intros H. unfold exists_, node_at. destruct k; [reflexivity|now rewrite H]. Qed.

Lemma exists_lookup (m : files_t) (k : list string) :
  is_Some (m !! k) -> exists_ m k = true.
Proof. intros [n H]. unfold exists_, node_at. destruct k; [reflexivity|now rewrite H]. Qed.

Lemma graft_hit (b r : list string) (entries : list (list string * node)) (m : files_t) :
  r ∈ map fst entries -> is_Some (graft b entries m !! (b ++ r)).
Proof.
  induction entries as [|e es IH]; cbn [map graft foldr]; intros H.
  - apply elem_of_nil in H. contradiction.
  - destruct (decide (fst e = r)) as [->|Hne].
    + rewrite lookup_insert_eq. eauto.
    + rewrite lookup_insert_ne by (intros E; apply app_inv_head in E; contradiction).
      apply IH. apply elem_of_cons in H as [H|H]; [congruence|exact H].
Qed.

Lemma graft_keeps (b k : list string) (entries : list (list string * node)) (m : files_t) :
  is_Some (m !! k) -> is_Some (graft b entries m !! k).
Proof.
  intros H. induction entries as [|e es IH]; cbn [graft foldr]; [exact H|].
  destruct (decide (b ++ fst e = k)) as [->|Hne].
  - rewrite lookup_insert_eq. eauto.
  - rewrite lookup_insert_ne by exact Hne. exact IH.
Qed.

Lemma subtree_root (a : list string) (n : node) (m : files_t) :
  m !! a = Some n -> [] ∈ map fst (subtree a m).
Proof.
  intros H. apply (list_elem_of_fmap_2' fst _ ([], n)); [|reflexivity].
  unfold subtree. apply list_elem_of_omap. exists (a, n). split.
  - now apply elem_of_map_to_list.
  - cbn [fst snd]. rewrite decide_True by reflexivity. now rewrite drop_all.
Qed.

Lemma insert_dirs_hit (l : list (list string)) (k : list string) (m : files_t) :
  k ∈ l -> foldr (fun a acc => <[ a := Dir ]> acc) m l !! k = Some Dir.
Proof.
  induction l as [|a l IH]; cbn [foldr]; intros H.
  - apply elem_of_nil in H. contradiction.
  - destruct (decide (a = k)) as [->|Hne]; [apply lookup_insert_eq|].
    rewrite lookup_insert_ne by exact Hne. apply IH.
    apply elem_of_cons in H as [H|H]; [congruence|exact H].
Qed.

Lemma prefixes_self (k : list string) : k <> [] -> k ∈ prefixes k.
Proof.
  intros H. unfold prefixes.
  apply (list_elem_of_fmap_2' _ _ (length k)); [|now rewrite firstn_all].
  apply elem_of_seq. destruct k; [contradiction|]. cbn [length]. lia.
Qed.

Lemma makedirs_keeps (m : files_t) (a : list string) (ok : bool) (k : list string) :
  exists_ m k = true -> exists_ (snd (makedirs m a ok)) k = true.
Proof.
  intros H. unfold makedirs.
  destruct (node_at m a) as [[c|]|]; cbn [snd]; try exact H.
  destruct (blocked m a); cbn [snd]; [exact H|].
  unfold exists_, node_at in *. destruct k as [|x k]; [reflexivity|].
  destruct (m !! (x :: k)) as [n|] eqn:E; [|discriminate H].
  destruct (decide ((x :: k) ∈ prefixes a)) as [Hin|Hout].
  - now rewrite insert_dirs_hit.
  - rewrite insert_dirs_lookup by exact Hout. now rewrite E.
Qed.

(** A directory [makedirs] made, or found, is there. *)
Lemma makedirs_makes (m m' : files_t) (k : list string) (ok : bool) :
  makedirs m k ok = (Return tt, m') -> is_dir m' k = true.
Proof.
  unfold makedirs, is_dir. destruct (node_at m k) as [[c|]|] eqn:E.
  - discriminate.
  - destruct ok; [|discriminate]. intros H. inversion H. subst m'. now rewrite E.
  - destruct (blocked m k); [discriminate|]. intros H. inversion H.
    destruct k as [|x k]; [discriminate E|]. unfold node_at.
    rewrite insert_dirs_hit; [reflexivity|]. now apply prefixes_self.
Qed.

Lemma copy2_result (m m2 : files_t) (a b : list string) :
  copy2 m a b = (Return tt, m2) ->
  exists c : content,
    m2 = <[ (if is_dir m b then b ++ [List.last a ""] else b) := File c ]> m /\
    is_dir m (if is_dir m b then b ++ [List.last a ""] else b) = false /\
    node_at m a = Some (File c).
Proof.
  unfold copy2. destruct (node_at m a) as [[c|]|]; try discriminate.
  destruct (negb (is_dir m (removelast _))); [discriminate|].
  destruct (is_dir m (if is_dir m b then _ else b)) eqn:E; [discriminate|].
  intros H. inversion H. exists c. auto.
Qed.

(** Where [os.rename] returned, the target is there. *)
Lemma rename_there (m m' : files_t) (a b : list string) :
  rename m a b = (Return tt, m') -> exists_ m' b = true.
Proof.
  unfold rename. destruct (node_at m a) as [na|] eqn:Ea; [|discriminate].
  destruct (decide (a = b)) as [->|Hab].
  { intros H. inversion H. subst m'. unfold exists_. now rewrite Ea. }
  destruct (decide (a `prefix_of` b)) as [Hp|Hp]; [discriminate|].
  destruct (negb (is_dir m (removelast b))); [discriminate|].
  assert (exists_ (graft b (subtree a m) (remove_under b (remove_under a m))) b = true)
    as Hmoved.
  { apply exists_lookup.
    assert ([] ∈ map fst (subtree a m)) as Hin.
    { destruct a as [|x a]; [exfalso; apply Hp, prefix_nil|].
      unfold node_at in Ea. exact (subtree_root _ _ _ Ea). }
    pose proof (graft_hit b [] _ (remove_under b (remove_under a m)) Hin) as H.
    rewrite app_nil_r in H. exact H. }
  destruct na as [c|], (node_at m b) as [[c'|]|]; try discriminate;
    try (intros H; inversion H; subst m'; exact Hmoved).
  destruct (has_children b m); [discriminate|].
  intros H; inversion H; subst m'; exact Hmoved.
Qed.

(** Where [shutil.move] returned, the path it was given as the target is
    there, whether the source went into it or became it. *)
Lemma move_there (m m' : files_t) (a b : list string) :
  move m a b = (Return tt, m') -> exists_ m' b = true.
Proof.
  unfold move.
  destruct (is_dir m b) eqn:Eb; cbn [andb].
  - (* into the directory [b] *)
    assert (exists_ m b = true) as Hb.
    { unfold is_dir in Eb. unfold exists_. destruct (node_at m b) as [[c|]|]; auto. }
    destruct (bool_decide (a = b)).
    { intros H. inversion H. subst m'. exact Hb. }
    set (real := b ++ [List.last a ""]).
    assert (¬ real `prefix_of` b) as Hrb.
    { intros [l Hl]. subst real. rewrite <- app_assoc in Hl.
      apply (f_equal length) in Hl. rewrite !length_app in Hl. cbn in Hl. lia. }
    destruct (exists_ m real); [discriminate|].
    destruct (rename m a real) as [[u|e] m1] eqn:Er.
    + intros H. inversion H. subst m1. rewrite <- Hb. apply exists_frame.
      pose proof (rename_lookup m a real b) as Hl. rewrite Er in Hl. cbn [snd] in Hl.
      apply Hl; [|exact Hrb].
      intros Hab. unfold rename in Er.
      destruct (node_at m a) as [na|]; [|discriminate Er].
      destruct (decide (a = real)) as [Heq|Hne].
      { apply Hrb. rewrite <- Heq. exact Hab. }
      destruct (decide (a `prefix_of` real)) as [Hp|Hp]; [discriminate Er|].
      apply Hp. etransitivity; [exact Hab|]. now apply prefix_app_r.
    + destruct (is_dir m a) eqn:Ea.
      * destruct (bool_decide (a `prefix_of` real)) eqn:Ep; [discriminate|].
        apply bool_decide_eq_false in Ep.
        destruct (copytree m a real false) as [[u|e'] m2] eqn:Ec; [|discriminate].
        intros H.
        pose proof (rmtree_lookup m2 a false b) as H1. rewrite H in H1. cbn [snd] in H1.
        rewrite (exists_frame m2 m' b).
        -- unfold copytree in Ec. destruct (node_at m a) as [[c|]|]; try discriminate Ec.
           pose proof (makedirs_keeps m real false b Hb) as H2.
           destruct (makedirs m real false) as [[u'|e'] m3]; [|discriminate Ec].
           cbn [snd] in H2.
           destruct (clashes m3 real _); [discriminate Ec|].
           inversion Ec. rewrite <- H2. apply exists_frame.
           now apply graft_lookup.
        -- apply H1. intros Hab. apply Ep. etransitivity; [exact Hab|].
           now apply prefix_app_r.
      * destruct (copy2 m a real) as [[u|e'] m2] eqn:Ec; [|discriminate].
        intros H. destruct u.
        destruct (copy2_result _ _ _ _ Ec) as (c & -> & Hnd & Na).
        assert (a <> b) as Hne.
        { intros ->. unfold is_dir in Eb. rewrite Na in Eb. discriminate Eb. }
        pose proof (TransformsMore.unlink_other
                      (<[ (if is_dir m real then real ++ [List.last a ""] else real)
                          := File c ]> m) a b false Hne) as H1.
        rewrite H in H1. cbn [snd] in H1.
        rewrite <- Hb. apply exists_frame. rewrite H1.
        apply lookup_insert_ne. intros E. rewrite E in Hnd. congruence.
  - (* [b] becomes the source *)
    destruct (rename m a b) as [[u|e] m1] eqn:Er.
    + intros H. inversion H. subst m1. destruct u. exact (rename_there _ _ _ _ Er).
    + assert (is_Some (node_at m a) -> a <> b) as Hab.
      { intros [n Hn] ->. unfold rename in Er. rewrite Hn in Er.
        rewrite decide_True in Er by reflexivity. discriminate Er. }
      destruct (is_dir m a) eqn:Ea.
      * destruct (bool_decide (a `prefix_of` b)) eqn:Ep; [discriminate|].
        apply bool_decide_eq_false in Ep.
        destruct (copytree m a b false) as [[u|e'] m2] eqn:Ec; [|discriminate].
        intros H.
        assert (is_Some (m2 !! b) /\ b <> []) as [Hm2 Hnil].
        { unfold copytree in Ec. destruct (node_at m a) as [[c|]|]; try discriminate Ec.
          destruct (makedirs m b false) as [[u'|e'] m3] eqn:Em; [|discriminate Ec].
          destruct (clashes m3 b _); [discriminate Ec|]. inversion Ec.
          assert (b <> []) as Hnil.
          { intros ->. unfold makedirs in Em. cbn in Em. discriminate Em. }
          split; [|exact Hnil]. apply graft_keeps. destruct u'.
          apply makedirs_makes in Em. unfold is_dir, node_at in Em.
          destruct b; [contradiction|]. destruct (m3 !! (s :: b)); [eauto|discriminate]. }
        pose proof (rmtree_lookup m2 a false b Ep) as H1. rewrite H in H1. cbn [snd] in H1.
        apply exists_lookup. now rewrite H1.
      * destruct (copy2 m a b) as [[u|e'] m2] eqn:Ec; [|discriminate].
        intros H. destruct u.
        destruct (copy2_result _ _ _ _ Ec) as (c & -> & _ & Na).
        rewrite Eb in H.
        pose proof (TransformsMore.unlink_other (<[ b := File c ]> m) a b false
                      (Hab (ex_intro _ _ Na))) as H1.
        rewrite H in H1. cbn [snd] in H1.
        apply exists_lookup. rewrite H1, lookup_insert_eq. eauto.
Qed.

Lemma wp_call_env (o : op) (w0 w : World) (Q : outcome (ans o) -> World -> Prop) :
  same_env w0 w ->
  (forall w1, same_env w0 w1 -> files w1 = files (snd (sem o (record w o))) ->
              Q (fst (sem o (record w o))) w1) ->
  wp (call o) w Q.
Proof.
  intros E H. apply wp_call. apply H; [|reflexivity].
  destruct (record_env w o) as (E1 & _). destruct (sem_env o (record w o)) as (E2 & _).
  exact (same_env_trans _ _ _ E (same_env_trans _ _ _ E1 E2)).
Qed.

Lemma key_env (w w1 : World) (p : Path) : same_env w w1 -> key w1 p = key w p.
Proof. intros (Hc & _). unfold key. now rewrite Hc. Qed.


End InstallFacts.

(** ** Worked examples for the queue and the manifest parser *)

Module QueueDemo.

Import Tasks Queue QueueFacts QueueInv QueueLease QueueViews TasksFacts QueueMore TasksMore Demo.


Lemma demo_manifest_ok : Forall record_ok demo_manifest.
Proof.
  repeat constructor; eexists; (split; [reflexivity|]); split;
    first [left; reflexivity | right; eexists; reflexivity].
Qed.

Lemma parse_tasks_meta_witness :
  length [ mkTaskSpec "t1" (PStr "do X") None None [];
           mkTaskSpec "second" (PStr "Run benchmark task 'second'.")
             (Some (of_string "/data/ds/in/b.xlsx")) None [("level", PInt 2)];
           mkTaskSpec "task-3" (PStr "Run benchmark task 'task-3'.") None
             (Some (of_string "/abs/ans.xlsx")) [] ]
  = length demo_manifest /\
  forall (n : nat) (d : pydict) (sp : TaskSpec),
    demo_manifest !! n = Some (PDict d) ->
    [ mkTaskSpec "t1" (PStr "do X") None None [];
      mkTaskSpec "second" (PStr "Run benchmark task 'second'.")
        (Some (of_string "/data/ds/in/b.xlsx")) None [("level", PInt 2)];
      mkTaskSpec "task-3" (PStr "Run benchmark task 'task-3'.") None
        (Some (of_string "/abs/ans.xlsx")) [] ] !! n = Some sp ->
    (forall k, reserved_key k = true -> dict_has (meta sp) k = false) /\
    (forall k, reserved_key k = false ->
               dict_has (meta sp) k = dict_has d k /\
               dict_get (meta sp) k = dict_get d k) /\
    dict_keys (meta sp) = filter (fun k => reserved_key k = false) (dict_keys d).
Proof.
  apply (parse_tasks_meta (fun _ => "") [] demo_manifest_object demo_manifest
           (of_string "/data/ds")).
  - right. eexists. split; reflexivity.
  - reflexivity.
Defined.

(** A manifest whose second record is a number. *)
Definition broken_manifest : list pyval :=
  [ PDict [("id", PStr "t1")]; PInt 5; PDict [("id", PStr "t3")] ].


End QueueDemo.

(** ** Worked examples for the transforms and the checkout *)

Module TransformsDemo.

Import FS Sys FSFacts SysFacts RunFacts Transforms GitAdapter Checkout CheckoutFacts.
Import TransformsMore CheckoutMore InstallFacts CheckoutDemo.

Ltac by_decide :=
  match goal with
  | |- ¬ ?P => refine (@bool_decide_eq_false_1 P _ _); vm_compute; reflexivity
  | |- ?P => refine (@bool_decide_eq_true_1 P _ _); vm_compute; reflexivity
  end.

(** A tree of data below [/w/data]. *)
Definition tree_files : files_t :=
  list_to_map [ (["w"], Dir); (["w"; "data"], Dir);
                (["w"; "data"; "a.zip"],
                 File (Zip [("ok.txt", "1"); ("../../etc/x", "2"); ("late.txt", "3")]));
                (["w"; "data"; "pkg"], Dir);
                (["w"; "data"; "pkg"; "file.txt"], File (Bytes "hello"));
                (["w"; "data"; "keep.csv"], File (Bytes "a,b"));
                (["w"; "data"; "junk.tmp"], File (Bytes "x"));
                (["w"; "other.txt"], File (Bytes "mine")) ].

Definition tree_world : World :=
  mkWorld ["w"] tree_files ["tmp"] demo_glob (fun _ => "") demo_git [] Lookup [].

Definition data_root : Path := of_string "/w/data".

Definition rename_step : pydict :=
  [("type", PStr "rename"); ("from", PStr "junk.tmp"); ("to", PStr "junk.bak")].

Definition after_rename : World :=
  snd (run (apply_transforms data_root (PList [PDict rename_step])) tree_world).

Lemma apply_transforms_unknown_type_witness :
  exists w2 : World,
    run (apply_transforms data_root
           (PList ([PDict rename_step] ++ bogus_step :: [strip_step]))) tree_world
    = (Raise (ValueError "Unknown transform type: bogus"), w2) /\
    files w2 = files after_rename /\ stdout w2 = stdout after_rename.
Proof.
  apply (apply_transforms_unknown_type data_root [PDict rename_step] [strip_step]
           [("type", PStr "bogus")] tree_world after_rename).
  - vm_compute. reflexivity.
  - reflexivity.
  - reflexivity.
Defined.

Lemma safe_extract_rejects_witness :
  exists w1 : World,
    run (_safe_unzip (of_string "/w/data/a.zip") data_root) tree_world
    = (Raise (RuntimeError "Unsafe zip member path: ../../etc/x"), w1) /\
    files w1 = files tree_world.
Proof.
  apply (proj1 (safe_extract_rejects (of_string "/w/data/a.zip") data_root
                  ["ok.txt"] ["late.txt"] "../../etc/x" tree_world
                  ltac:(vm_compute; reflexivity) ltac:(vm_compute; reflexivity))).
  vm_compute. reflexivity.
Defined.

Lemma strip_prefix_missing_witness :
  exists w' : World,
    run (_t_strip_prefix data_root
           (PDict [("type", PStr "strip_prefix"); ("prefix", PStr "nothere/")])) tree_world
    = (Return tt, w') /\
    files w' = files tree_world /\ stdout w' = stdout tree_world.
Proof.
  apply (strip_prefix_missing data_root
           [("type", PStr "strip_prefix"); ("prefix", PStr "nothere/")] "nothere/" tree_world).
  - reflexivity.
  - reflexivity.
  - vm_compute. reflexivity.
Defined.

Definition demo_tmp : Path := abs_path ["tmp"; "arena_0"].

Lemma fetch_git_confined_witness :
  files (snd (run (fetch_git (PStr "https://example.org/ds.git") PNone PNone demo_tmp)
                (demo_world [])))
    !! ["proj"; "configs"]
  = files (demo_world []) !! ["proj"; "configs"] /\
  match fst (run (fetch_git (PStr "https://example.org/ds.git") PNone PNone demo_tmp)
               (demo_world [])) with
  | inl root =>
      exists_
        (files (snd (run (fetch_git (PStr "https://example.org/ds.git") PNone PNone demo_tmp)
                       (demo_world []))))
        (key (snd (run (fetch_git (PStr "https://example.org/ds.git") PNone PNone demo_tmp)
                     (demo_world []))) root) = true
  | inr _ => True
  end.
Proof.
  apply (fetch_git_confined (PStr "https://example.org/ds.git") PNone PNone demo_tmp
           (demo_world []) ["proj"; "configs"]).
  - by_decide.
  - by_decide.
Defined.

Lemma demo_loadable (steps : list pyval) (w : World) :
  loadable w (dict_get (demo_registry steps) demo_id) (demo_cfg steps).
Proof.
  split; [reflexivity|]. split; [left; reflexivity|]. split; reflexivity.
Qed.


(** A registry whose entry for the data set names no manifest. *)
Definition bare_cfg : pydict :=
  [("id", PStr demo_id);
   ("source", PDict [("type", PStr "git"); ("url", PStr "https://example.org/ds.git")])].

Definition bare_world : World :=
  world_of (<[ ["proj"; "configs"; "registry.json"] :=
                 File (Json (PDict [(demo_id, PDict bare_cfg)])) ]> (demo_files [])).


(** An earlier checkout with its manifest. *)
Definition ready_world : World :=
  world_of (<[ demo_dst ++ ["tasks.json"] :=
                 File (Json (PList [PDict [("id", PStr "t1"); ("instruction", PStr "do X")];
                                    PDict [("id", PStr "t2"); ("level", PInt 2)]])) ]>
              (installed_files [])).

Definition ready_tasks : list Tasks.TaskSpec :=
  [ Tasks.mkTaskSpec "t1" (PStr "do X") None None [];
    Tasks.mkTaskSpec "t2" (PStr "Run benchmark task 't2'.") None None [("level", PInt 2)] ].



End TransformsDemo.
